(** * Super Download: a shallow embedding of the download engine core

    The development follows the C++ sources component by component:
    block splitter, token bucket, progress monitor, HTTP retry loop,
    metadata store, task state machine and task queue.  Each component
    lives in a module holding the definitions translated from the
    source; the theorems follow after all models.

    Further models cover the data callback of a block, the file names
    taken from URLs, the probe of a download with its header lines, the
    download manager and the logger; their properties, and further
    properties of the components above, form the last part. *)

From Stdlib Require Import ZArith Lia Bool List String Floats Uint63.
From stdpp Require Import base option list gmap strings.

Local Open Scope Z_scope.

(* ===================================================================== *)
(** * Part I: models                                                      *)
(* ===================================================================== *)

(** ** Fixed-width integers of the C++ sources *)

Definition INT_MIN : Z := - 2 ^ 31.
Definition INT_MAX : Z := 2 ^ 31 - 1.

Definition in_int (z : Z) : Prop := INT_MIN <= z <= INT_MAX.

Definition INT64_MIN : Z := - 2 ^ 63.
Definition INT64_MAX : Z := 2 ^ 63 - 1.


(** Two's-complement wrap-around to 64 bits: what an [int64_t] holds
    after an addition that leaves its range (undefined in C++, and what
    the machine does), and the conversion of a [uint64_t]. *)
Definition wrap64 (z : Z) : Z := (z + 2 ^ 63) mod 2 ^ 64 - 2 ^ 63.

(** [std::clamp(v, lo, hi)] *)
Definition clamp (v lo hi : Z) : Z :=
  if v <? lo then lo else if hi <? v then hi else v.

(** ** meta_file.h: [BlockInfo] and [TaskMeta] *)

Record BlockInfo := mkBlockInfo {
  block_id    : Z;     (* int *)
  range_start : Z;     (* int64_t *)
  range_end   : Z;     (* int64_t *)
  downloaded  : Z;     (* int64_t *)
  completed   : bool
}.

Record TaskMeta := mkTaskMeta {
  url           : string;
  file_path     : string;
  file_name     : string;
  file_size     : Z;   (* int64_t *)
  etag          : string;
  last_modified : string;
  max_blocks    : Z;   (* int *)
  blocks        : list BlockInfo
}.

(** ** block_splitter.cpp *)

Module BlockSplitter.

(** [std::invalid_argument], with the message of the [throw]. *)
Inductive error := InvalidArgument (what : string).

(** The small-file threshold [2 * 1024 * 1024]. *)
Definition kSmallFile : Z := 2 * 1024 * 1024.

(** The [for (int i = 0; i < actual_blocks; ++i)] loop: [n] iterations
    remain, [i] is the loop counter and [offset] the running offset. *)
Fixpoint split_loop (n : nat) (i offset fsize block_size actual_blocks : Z)
  : list BlockInfo :=
  match n with
  | O => []
  | S n' =>
      if i <? actual_blocks then
        let this_size :=
          if i =? actual_blocks - 1 then fsize - offset else block_size in
        mkBlockInfo i offset (offset + this_size - 1) 0 false
          :: split_loop n' (i + 1) (offset + this_size)
               fsize block_size actual_blocks
      else []
  end.

Definition splitBlocks (fsize num_blocks : Z) (supports_range : bool)
  : error + list BlockInfo :=
  if fsize <=? 0 then
    inl (InvalidArgument "file_size must be > 0")
  else if (num_blocks <? 1) || (32 <? num_blocks) then
    inl (InvalidArgument "num_blocks must be in [1, 32]")
  else if negb supports_range || (fsize <? kSmallFile) then
    inr [mkBlockInfo 0 0 (fsize - 1) 0 false]
  else
    let actual_blocks := Z.min num_blocks fsize in
    let block_size := Z.quot fsize actual_blocks in
    inr (split_loop (Z.to_nat actual_blocks) 0 0
           fsize block_size actual_blocks).

(** Size in bytes of a block's inclusive range. *)
Definition block_len (b : BlockInfo) : Z := range_end b - range_start b + 1.

(** Consecutive blocks touch: [range_end + 1 = range_start] of the next. *)
Fixpoint contiguous (bs : list BlockInfo) : Prop :=
  match bs with
  | b1 :: ((b2 :: _) as tl) => range_end b1 + 1 = range_start b2 /\ contiguous tl
  | _ => True
  end.

(** [block_id]s count up from [k]. *)
Fixpoint ids_from (k : Z) (bs : list BlockInfo) : Prop :=
  match bs with
  | [] => True
  | b :: tl => block_id b = k /\ ids_from (k + 1) tl
  end.

Definition fresh (b : BlockInfo) : Prop :=
  downloaded b = 0 /\ completed b = false.

(** The three ways through [splitBlocks]: the argument checks, the
    single block, and the loop over [num_blocks] blocks of at least one
    byte each. *)
Inductive split_case (fsize n : Z) (supports_range : bool)
  : error + list BlockInfo -> Prop :=
| split_rejected (e : error) :
    fsize <= 0 \/ n < 1 \/ n > 32 ->
    split_case fsize n supports_range (inl e)
| split_single :
    0 < fsize -> 1 <= n <= 32 ->
    supports_range = false \/ fsize < kSmallFile ->
    split_case fsize n supports_range
      (inr [mkBlockInfo 0 0 (fsize - 1) 0 false])
| split_even :
    kSmallFile <= fsize -> 1 <= n <= 32 -> supports_range = true ->
    1 <= fsize ÷ n -> (fsize ÷ n) * n <= fsize ->
    split_case fsize n supports_range
      (inr (split_loop (Z.to_nat n) 0 0 fsize (fsize ÷ n) n)).

End BlockSplitter.

(** ** C++ [double] arithmetic

    IEEE-754 binary64 values are Rocq's primitive floats; the
    conversions below are the [static_cast]s of the sources. *)

Module Dbl.

(** [static_cast<double>(z)] for a 64-bit integer [z] (round to nearest;
    the magnitude has to stay below [2^63]). *)
Definition of_int64 (z : Z) : float :=
  if z <? 0 then PrimFloat.opp (PrimFloat.of_uint63 (Uint63.of_Z (- z)))
  else PrimFloat.of_uint63 (Uint63.of_Z z).

(** The integer part of a finite value (truncation toward zero); NaN
    and the infinities have none. *)
Definition trunc (f : float) : option Z :=
  match Prim2SF f with
  | S754_zero _ => Some 0
  | S754_finite s m e =>
      let v := if 0 <=? e then Z.pos m * 2 ^ e
               else Z.quot (Z.pos m) (2 ^ (- e)) in
      Some (if s then - v else v)
  | _ => None
  end.

(** [static_cast<int64_t>(f)] and [static_cast<int>(f)]: the integer
    part when the target type holds it.  For NaN, the infinities and
    an integer part out of the range of the target, C++ leaves the cast
    undefined; the model returns what the conversion instruction of
    x86-64 ([cvttsd2si]) returns there, the smallest value of the
    target type. *)
Definition to_int64 (f : float) : Z :=
  match trunc f with
  | Some v => if (INT64_MIN <=? v) && (v <=? INT64_MAX) then v else INT64_MIN
  | None => INT64_MIN
  end.

Definition to_int (f : float) : Z :=
  match trunc f with
  | Some v => if (INT_MIN <=? v) && (v <=? INT_MAX) then v else INT_MIN
  | None => INT_MIN
  end.

(** The sign bit of a value that is no NaN. *)
Definition sf_sign (x : spec_float) : option bool :=
  match x with
  | S754_zero s | S754_infinity s | S754_finite s _ _ => Some s
  | S754_nan => None
  end.

(** [x] is NaN or has the sign bit [s]. *)
Definition signed (s : bool) (x : spec_float) : Prop :=
  x = S754_nan \/ sf_sign x = Some s.

End Dbl.

(** ** token_bucket.cpp *)

Module TokenBucket.

(** The fields of [class TokenBucket]; [last_refill_] is a reading of
    the steady clock in microseconds. *)
Record t := mk {
  rate_        : Z;
  tokens_      : Z;
  max_tokens_  : Z;
  last_refill_ : Z;
  cancelled_   : bool
}.

(** [TokenBucket::TokenBucket(rate)], constructed at clock reading [now]. *)
Definition create (rate now : Z) : t := mk rate rate rate now false.

Definition set_tokens (tb : t) (v : Z) : t :=
  mk (rate_ tb) v (max_tokens_ tb) (last_refill_ tb) (cancelled_ tb).

(** [TokenBucket::refill()], the clock reading [now] given.  The sum
    [tokens_ + new_tokens] is one of [int64_t]s. *)
Definition refill (now : Z) (tb : t) : t :=
  let elapsed := now - last_refill_ tb in
  if (elapsed <=? 0) || (rate_ tb <=? 0) then tb
  else
    let new_tokens :=
      Dbl.to_int64 (PrimFloat.div
                      (PrimFloat.mul (Dbl.of_int64 (rate_ tb))
                                     (Dbl.of_int64 elapsed))
                      1000000%float) in
    if 0 <? new_tokens then
      mk (rate_ tb)
         (Z.min (wrap64 (tokens_ tb + new_tokens)) (max_tokens_ tb))
         (max_tokens_ tb) now (cancelled_ tb)
    else tb.

(** [TokenBucket::setRate(rate)] at clock reading [now]. *)
Definition setRate (rate now : Z) (tb : t) : t :=
  let tb1 := refill now tb in
  let tokens' :=
    if (0 <? rate) && (rate <? tokens_ tb1) then rate else tokens_ tb1 in
  mk rate tokens' rate (last_refill_ tb1) (cancelled_ tb1).

(** [TokenBucket::cancel()] *)
Definition cancel (tb : t) : t :=
  mk (rate_ tb) (tokens_ tb) (max_tokens_ tb) (last_refill_ tb) true.

(** What other threads may do to the bucket while a caller sleeps in
    [cv_.wait_for] with the mutex released: the public operations. *)
Inductive op :=
| OpSetRate (rate now : Z)
| OpCancel
| OpTake (n now : Z).   (* another thread's successful [acquire(n)] *)

Definition apply_op (tb : t) (o : op) : t :=
  match o with
  | OpSetRate r now => setRate r now tb
  | OpCancel => cancel tb
  | OpTake n now =>
      if (n <=? 0) || (rate_ tb =? 0) || cancelled_ tb then tb
      else
        let tb1 := refill now tb in
        if n <=? tokens_ tb1 then set_tokens tb1 (tokens_ tb1 - n) else tb1
  end.

Definition interfere (ops : list op) (tb : t) : t :=
  fold_left apply_op ops tb.

(** One pass through the [while (true)] loop of [acquire] that ends in
    [wait_for]: the clock reading its [refill] sees, and what the other
    threads did during the wait. *)
Record wake := mkWake { wake_now : Z; wake_others : list op }.

(** The [while (true)] loop of [acquire].  The schedule lists the waits
    the caller goes through; [None] says that the caller is still
    blocked when the schedule ends. *)
Fixpoint acquire_loop (sched : list wake) (tb : t) (tokens : Z)
  : option Z * t :=
  if cancelled_ tb then (Some 0, tb)
  else
    match sched with
    | [] => (None, tb)
    | w :: rest =>
        let tb1 := refill (wake_now w) tb in
        if tokens <=? tokens_ tb1 then
          (Some tokens, set_tokens tb1 (tokens_ tb1 - tokens))
        else
          let tb2 := interfere (wake_others w) tb1 in
          if rate_ tb2 =? 0 then (Some tokens, tb2)
          else acquire_loop rest tb2 tokens
    end.

(** [TokenBucket::acquire(tokens)] *)
Definition acquire (sched : list wake) (tb : t) (tokens : Z)
  : option Z * t :=
  if tokens <=? 0 then (Some 0, tb)
  else if rate_ tb =? 0 then (Some tokens, tb)
  else acquire_loop sched tb tokens.

End TokenBucket.

(** ** progress_monitor.cpp *)

Module ProgressMonitor.

(** [struct Sample]: a steady-clock reading in nanoseconds and the
    cumulative byte count. *)
Record Sample := mkSample { time : Z; bytes : Z }.

Record t := mk {
  total_bytes_      : Z;
  downloaded_bytes_ : Z;
  samples_          : list Sample     (* std::deque, front first *)
}.

Record ProgressInfo := mkInfo {
  total_bytes         : Z;
  downloaded_bytes    : Z;
  speed_bytes_per_sec : float;
  progress_percent    : float;
  remaining_seconds   : Z      (* int *)
}.

Definition WINDOW_SIZE_SEC : Z := 5.

(** [ProgressMonitor::ProgressMonitor(total_bytes)] *)
Definition create (total : Z) : t := mk total 0 [].

(** [ProgressMonitor::addBytes(bytes)] at clock reading [now]. *)
Definition addBytes (now n : Z) (pm : t) : t :=
  if n <=? 0 then pm
  else
    let d := downloaded_bytes_ pm + n in
    mk (total_bytes_ pm) d (samples_ pm ++ [mkSample now d]).

(** The [while (!samples_.empty() && samples_.front().time < cutoff)]
    loop popping the front. *)
Fixpoint trim (cutoff : Z) (ss : list Sample) : list Sample :=
  match ss with
  | s :: rest => if time s <? cutoff then trim cutoff rest else ss
  | [] => []
  end.

(** [std::chrono::duration<double>(d).count()] for a duration of [ns]
    nanoseconds. *)
Definition seconds_of_ns (ns : Z) : float :=
  PrimFloat.div (Dbl.of_int64 ns) 1000000000%float.

(** [ProgressMonitor::snapshot()] at clock reading [now]; returns the
    snapshot and the monitor with its window trimmed. *)
Definition snapshot (now : Z) (pm : t) : ProgressInfo * t :=
  let percent :=
    if 0 <? total_bytes_ pm then
      PrimFloat.mul
        (PrimFloat.div (Dbl.of_int64 (downloaded_bytes_ pm))
                       (Dbl.of_int64 (total_bytes_ pm)))
        100%float
    else 0%float in
  let cutoff := now - WINDOW_SIZE_SEC * 1000000000 in
  let ss := trim cutoff (samples_ pm) in
  let speed :=
    match ss, last ss with
    | oldest :: _ :: _, Some newest =>
        let elapsed := seconds_of_ns (time newest - time oldest) in
        if PrimFloat.ltb 0%float elapsed then
          PrimFloat.div (Dbl.of_int64 (bytes newest - bytes oldest)) elapsed
        else 0%float
    | _, _ => 0%float
    end in
  let remaining :=
    if PrimFloat.ltb 0%float speed then
      Dbl.to_int
        (PrimFloat.div
           (Dbl.of_int64 (total_bytes_ pm - downloaded_bytes_ pm)) speed)
    else -1 in
  (mkInfo (total_bytes_ pm) (downloaded_bytes_ pm) speed percent remaining,
   mk (total_bytes_ pm) (downloaded_bytes_ pm) ss).

(** A monitor that saw 1000 bytes at [t = 0] and 1000 more one second
    later, for a file of [total] bytes. *)
Definition two_samples (total : Z) : t :=
  addBytes 1000000000 1000 (addBytes 0 1000 (create total)).

(** A monitor for a file of 5 000 000 000 bytes that saw one byte at
    [t = 0] and one more a second later. *)
Definition one_byte_per_second : t :=
  addBytes 1000000000 1 (addBytes 0 1 (create 5000000000)).

End ProgressMonitor.

(** ** http_engine.cpp: the retry loop of [HttpEngine::download] *)

Module HttpEngine.

(** The [CURLcode]s the engine tells apart; every other code is
    [CURLE_OTHER]. *)
Inductive CURLcode :=
| CURLE_OK
| CURLE_OPERATION_TIMEDOUT
| CURLE_COULDNT_CONNECT
| CURLE_COULDNT_RESOLVE_HOST
| CURLE_COULDNT_RESOLVE_PROXY
| CURLE_GOT_NOTHING
| CURLE_RECV_ERROR
| CURLE_SEND_ERROR
| CURLE_PARTIAL_FILE
| CURLE_SSL_CERTPROBLEM
| CURLE_PEER_FAILED_VERIFICATION
| CURLE_OTHER (code : Z).

Definition is_ok (c : CURLcode) : bool :=
  match c with CURLE_OK => true | _ => false end.

Definition isRetryableCurlCode (code : CURLcode) : bool :=
  match code with
  | CURLE_OPERATION_TIMEDOUT
  | CURLE_COULDNT_CONNECT
  | CURLE_COULDNT_RESOLVE_HOST
  | CURLE_COULDNT_RESOLVE_PROXY
  | CURLE_GOT_NOTHING
  | CURLE_RECV_ERROR
  | CURLE_SEND_ERROR
  | CURLE_PARTIAL_FILE => true
  | _ => false
  end.

Definition isNonRetryableHttpStatus (http_code : Z) : bool :=
  (400 <=? http_code) && (http_code <? 500).

Definition isTlsCertError (code : CURLcode) : bool :=
  match code with
  | CURLE_SSL_CERTPROBLEM
  | CURLE_PEER_FAILED_VERIFICATION => true
  | _ => false
  end.

Definition kRetryBackoffSec : list Z := [1; 2; 4].

(** [kRetryBackoffSec[std::min(attempt - 1, 3 - 1)]] *)
Definition backoff (attempt : Z) : Z :=
  nth (Z.to_nat (Z.min (attempt - 1) (Z.of_nat (length kRetryBackoffSec) - 1)))
      kRetryBackoffSec 0.

(** What an [HttpError] says: the message is built from these parts. *)
Inductive message :=
| MsgUnknown                          (* "Unknown error" *)
| MsgCancelled                        (* "Download cancelled" *)
| MsgDownloadFailed (res : CURLcode)  (* "Download failed: " + curl_easy_strerror(res) *)
| MsgHttpError (http_code : Z)        (* "HTTP error " + to_string(http_code) *)
| MsgException (what : string).       (* e.what() of another exception *)

Record HttpError := mkHttpError {
  what        : message;
  curlCode    : CURLcode;
  httpStatus  : Z;
  isRetryable : bool
}.

(** How [curl_easy_perform] and the callbacks it runs ended. *)
Inductive performed :=
| Performed (res : CURLcode) (http_code : Z)
| Threw (what : string).              (* a [std::exception] other than [HttpError] *)

(** The surroundings of one pass through the loop: whether another
    thread calls [cancel()] before the pass starts, during the back-off
    sleep, between the last check of the pass and [reset()], or after
    [reset()] and before the flag is read again; and the outcome of the
    transfer. *)
Record attempt_env := mkAttempt {
  cancel_before       : bool;
  cancel_in_sleep     : bool;
  cancel_before_reset : bool;
  cancel_in_transfer  : bool;
  outcome             : performed
}.

Inductive event :=
| EvCheck (seen : bool)     (* [impl_->cancelled.load()] before a transfer *)
| EvSleep (secs : Z)        (* [sleep_for(seconds(secs))] *)
| EvPerform (attempt : Z).  (* [curl_easy_perform] of pass [attempt] *)

Inductive result := Returned | Thrown (e : HttpError).

Definition cancelled_error : HttpError :=
  mkHttpError MsgCancelled CURLE_OK 0 false.

(** [HttpEngine::cancel()] on the flag [impl_->cancelled], when another
    thread calls it ([called]). *)
Definition cancel (called : bool) (cancelled : bool) : bool :=
  cancelled || called.

(** [Impl::reset()] on the flag: [cancelled.store(false)]. *)
Definition reset (cancelled : bool) : bool := false.

(** The body of the [try] after [reset()]: the transfer and the
    classification of its outcome, [cancelled] being the flag when the
    transfer has returned.  [inl] leaves the function, [inr last_error]
    is [continue]. *)
Definition classify (cancelled : bool) (p : performed)
  : result + HttpError :=
  match p with
  | Threw w => inl (Thrown (mkHttpError (MsgException w) CURLE_OK 0 false))
  | Performed res http_code =>
      if negb (is_ok res) then
        if cancelled then
          inl (Thrown (mkHttpError MsgCancelled res http_code false))
        else
          let retryable := isRetryableCurlCode res in
          if isTlsCertError res then
            inl (Thrown (mkHttpError (MsgDownloadFailed res) res http_code false))
          else
            let last_error :=
              mkHttpError (MsgDownloadFailed res) res http_code retryable in
            if negb retryable then inl (Thrown last_error)
            else inr last_error
      else if 400 <=? http_code then
        let retryable := negb (isNonRetryableHttpStatus http_code) in
        let last_error :=
          mkHttpError (MsgHttpError http_code) CURLE_OK http_code retryable in
        if negb retryable then inl (Thrown last_error)
        else inr last_error
      else inl Returned
  end.

(** The [for (int attempt = 0; attempt < max_attempts; ++attempt)] loop
    with [n] passes to go; [cancelled] is the flag as the last pass left
    it.  Returns the events in order and how the function ends. *)
Fixpoint download_loop (n : nat) (attempt : Z) (cancelled : bool)
    (last_error : HttpError) (env : Z -> attempt_env)
  : list event * result :=
  match n with
  | O => ([], Thrown last_error)
  | S n' =>
      let a := env attempt in
      let flag := cancel (cancel_before a) cancelled in
      if flag then ([EvCheck true], Thrown cancelled_error)
      else
        let flag :=
          if 0 <? attempt then cancel (cancel_in_sleep a) flag else flag in
        if (0 <? attempt) && flag then
          ([EvCheck false; EvSleep (backoff attempt); EvCheck true],
           Thrown cancelled_error)
        else
          let pre :=
            if 0 <? attempt
            then [EvCheck false; EvSleep (backoff attempt); EvCheck false]
            else [EvCheck false] in
          let flag := reset (cancel (cancel_before_reset a) flag) in
          let flag := cancel (cancel_in_transfer a) flag in
          match classify flag (outcome a) with
          | inl r => (pre ++ [EvPerform attempt], r)
          | inr last_error' =>
              let (evs, r) :=
                download_loop n' (attempt + 1) flag last_error' env in
              (pre ++ EvPerform attempt :: evs, r)
          end
  end.

(** [HttpEngine::download] with [config.max_retries = max_retries], on an
    engine whose flag is [cancelled] at the call. *)
Definition download (max_retries : Z) (cancelled : bool)
    (env : Z -> attempt_env) : list event * result :=
  download_loop (Z.to_nat (max_retries + 1)) 0 cancelled
    (mkHttpError MsgUnknown CURLE_OK 0 false) env.

Definition is_perform (e : event) : bool :=
  match e with EvPerform _ => true | _ => false end.

(** Number of transfers in a run. *)
Definition attempts (evs : list event) : nat :=
  length (filter (fun e => is_perform e = true) evs).

(** The failures after which the loop goes on: the libcurl codes of
    [isRetryableCurlCode] (timeout, connection failure, host or proxy
    that does not resolve, empty reply, receive or send error, partial
    transfer), and an answer with an HTTP status from 500 on. *)
Definition transient (p : performed) : bool :=
  match p with
  | Performed res http_code =>
      isRetryableCurlCode res || (is_ok res && (500 <=? http_code))
  | Threw _ => false
  end.

(** The failures that end the download at once: HTTP 4xx, a TLS
    certificate failure, or a failed transfer with the flag set. *)
Definition fatal (a : attempt_env) : bool :=
  match outcome a with
  | Performed res http_code =>
      (is_ok res && isNonRetryableHttpStatus http_code)
      || isTlsCertError res
      || (negb (is_ok res) && cancel_in_transfer a)
  | Threw _ => false
  end.

(** What a run of [k] transfers looks like up to and including transfer
    [k - 1]: a check before each transfer, and from the second transfer
    on a sleep of 1, 2, 4, 4, ... seconds followed by another check. *)
Definition spec_sleep (attempt : Z) : Z :=
  if attempt =? 1 then 1 else if attempt =? 2 then 2 else 4.

Definition spec_pass (attempt : Z) : list event :=
  (if attempt =? 0 then [EvCheck false]
   else [EvCheck false; EvSleep (spec_sleep attempt); EvCheck false])
  ++ [EvPerform attempt].

Fixpoint spec_passes (k : nat) (from : Z) : list event :=
  match k with
  | O => []
  | S k' => spec_pass from ++ spec_passes k' (from + 1)
  end.

(** A run may end in a check that sees the flag. *)
Definition spec_tail (attempt : Z) (tail : list event) : Prop :=
  tail = [] \/ tail = [EvCheck true] \/
  (0 < attempt /\
   tail = [EvCheck false; EvSleep (spec_sleep attempt); EvCheck true]).

(** An environment of transfers that all end the same way, nobody
    calling [cancel()]. *)
Definition always (p : performed) : Z -> attempt_env :=
  fun _ => mkAttempt false false false false p.

(** Another thread calls [cancel()] once, after the check that opens
    the first pass and before its [reset()]; the first transfer ends as
    [p] says and every later one with HTTP 200. *)
Definition cancel_after_first_check (p : performed) : Z -> attempt_env :=
  fun k => if k =? 0 then mkAttempt false false true false p
           else mkAttempt false false false false (Performed CURLE_OK 200).

(** The same surroundings but for the calls of [cancel()] between a
    check and the [reset()] that follows it. *)
Definition same_but_lost_cancels (env env' : Z -> attempt_env) : Prop :=
  forall k,
    cancel_before (env k) = cancel_before (env' k) /\
    cancel_in_sleep (env k) = cancel_in_sleep (env' k) /\
    cancel_in_transfer (env k) = cancel_in_transfer (env' k) /\
    outcome (env k) = outcome (env' k).

End HttpEngine.

(** ** meta_file.cpp *)

Module MetaFile.

(** The [nlohmann::json] values.  [JInt] stands for the two integer
    kinds of the library ([number_integer], an [int64_t], and
    [number_unsigned], a [uint64_t]), [JFloat] for [number_float].
    Objects are kept as association lists; the library keeps them in a
    [std::map], ordered by key and each key once. *)
#[local] Unset Elimination Schemes.
Inductive json :=
| JNull
| JBool (b : bool)
| JInt (z : Z)
| JFloat (f : float)
| JString (s : string)
| JArray (items : list json)
| JObject (members : list (string * json)).
#[local] Set Elimination Schemes.

Fixpoint assoc (key : string) (members : list (string * json)) : option json :=
  match members with
  | [] => None
  | (k, v) :: rest => if String.eqb k key then Some v else assoc key rest
  end.

(** [j.at(key)]: [None] stands for the exception ([out_of_range] for a
    missing key, [type_error] when [j] is no object). *)
Definition at_ (key : string) (j : json) : option json :=
  match j with
  | JObject members => assoc key members
  | _ => None
  end.

(** [static_cast<int>] of a 64-bit integer. *)
Definition wrap32 (z : Z) : Z := (z + 2 ^ 31) mod 2 ^ 32 - 2 ^ 31.

(** [j.get<T>()]: [None] stands for [type_error].  The library
    converts every number with [static_cast<T>], and for [int], which is
    none of its own number types, a boolean as well; [bool] and
    [std::string] are only read from a value of their own kind. *)
Definition get_int (j : json) : option Z :=
  match j with
  | JInt z => Some (wrap32 z)
  | JFloat f => Some (Dbl.to_int f)
  | JBool b => Some (if b then 1 else 0)
  | _ => None
  end.
Definition get_int64 (j : json) : option Z :=
  match j with
  | JInt z => Some (wrap64 z)
  | JFloat f => Some (Dbl.to_int64 f)
  | _ => None
  end.
Definition get_bool (j : json) : option bool :=
  match j with JBool b => Some b | _ => None end.
Definition get_string (j : json) : option string :=
  match j with JString s => Some s | _ => None end.

(** The members of an object in the order of the [std::map]: by key,
    bytes compared as [std::string] compares them. *)
Fixpoint insert_member (kv : string * json) (l : list (string * json))
  : list (string * json) :=
  match l with
  | [] => [kv]
  | kv' :: rest =>
      if String.leb (fst kv) (fst kv') then kv :: l
      else kv' :: insert_member kv rest
  end.

Definition by_key (members : list (string * json)) : list (string * json) :=
  foldr insert_member [] members.

(** What [for (const auto& bj : j)] visits: the items of an array, the
    values of an object in the order of their keys, nothing for [null],
    and the value itself otherwise. *)
Definition elements (j : json) : list json :=
  match j with
  | JArray items => items
  | JObject members => map snd (by_key members)
  | JNull => []
  | _ => [j]
  end.

Definition blockInfoToJson (b : BlockInfo) : json :=
  JObject [ ("block_id",    JInt (block_id b));
            ("range_start", JInt (range_start b));
            ("range_end",   JInt (range_end b));
            ("downloaded",  JInt (downloaded b));
            ("completed",   JBool (completed b)) ].

Definition blockInfoFromJson (j : json) : option BlockInfo :=
  id    ← at_ "block_id" j ≫= get_int;
  start ← at_ "range_start" j ≫= get_int64;
  end_  ← at_ "range_end" j ≫= get_int64;
  done_ ← at_ "downloaded" j ≫= get_int64;
  compl ← at_ "completed" j ≫= get_bool;
  Some (mkBlockInfo id start end_ done_ compl).

Definition taskMetaToJson (meta : TaskMeta) : json :=
  let blocks_arr := JArray (map blockInfoToJson (blocks meta)) in
  JObject [ ("url",           JString (url meta));
            ("file_path",     JString (file_path meta));
            ("file_name",     JString (file_name meta));
            ("file_size",     JInt (file_size meta));
            ("etag",          JString (etag meta));
            ("last_modified", JString (last_modified meta));
            ("max_blocks",    JInt (max_blocks meta));
            ("blocks",        blocks_arr) ].

(** The [push_back] loop over [j.at("blocks")]; the first block that
    throws ends it. *)
Fixpoint blocksFromJson (items : list json) : option (list BlockInfo) :=
  match items with
  | [] => Some []
  | bj :: rest =>
      b ← blockInfoFromJson bj;
      bs ← blocksFromJson rest;
      Some (b :: bs)
  end.

Definition taskMetaFromJson (j : json) : option TaskMeta :=
  u  ← at_ "url" j ≫= get_string;
  fp ← at_ "file_path" j ≫= get_string;
  fn ← at_ "file_name" j ≫= get_string;
  fs ← at_ "file_size" j ≫= get_int64;
  et ← at_ "etag" j ≫= get_string;
  lm ← at_ "last_modified" j ≫= get_string;
  mb ← at_ "max_blocks" j ≫= get_int;
  arr ← at_ "blocks" j;
  bs ← blocksFromJson (elements arr);
  Some (mkTaskMeta u fp fn fs et lm mb bs).

(** The text side of the JSON library, which is not part of the
    repository: [dump] writes a value ([None]: it throws, as it does for
    a string that is not UTF-8), [parse] reads a file's contents
    ([None]: it throws). *)
Record JsonLibrary := mkJsonLibrary {
  Contents   : Type;
  empty_file : Contents;
  dump       : json -> option Contents;
  parse      : Contents -> option json
}.


(** How the [std::ofstream] of a [save] fares. *)
Inductive ofstream_fate (L : JsonLibrary) :=
| OpenFails                         (* [!ofs.is_open()] *)
| WriteFails (torn : Contents L)    (* [!ofs.good()] after [<<] *)
| WriteGood.
Arguments OpenFails {L}.
Arguments WriteFails {L} torn.
Arguments WriteGood {L}.

(** The files on disk, by path. *)
Abbreviation disk L := (gmap string (Contents L)) (only parsing).

Section Disk.
Context (L : JsonLibrary).

(** [MetaFile::save(meta_path, meta)] *)
Definition save (io : ofstream_fate L) (d : disk L) (meta_path : string)
    (meta : TaskMeta) : bool * disk L :=
  match io with
  | OpenFails => (false, d)
  | _ =>
      match dump L (taskMetaToJson meta) with
      | None => (false, <[meta_path := empty_file L]> d)
      | Some text =>
          match io with
          | WriteFails torn => (false, <[meta_path := torn]> d)
          | _ => (true, <[meta_path := text]> d)
          end
      end
  end.

(** [MetaFile::load(meta_path)] *)
Definition load (d : disk L) (meta_path : string) : option TaskMeta :=
  c ← d !! meta_path;
  j ← parse L c;
  taskMetaFromJson j.

(** [MetaFile::remove(meta_path)]: [std::remove] deletes the file when
    there is one and the system lets it ([permitted]; it does not, for
    one, while the file is open elsewhere), and says whether it did. *)
Definition remove (permitted : bool) (d : disk L) (meta_path : string)
  : bool * disk L :=
  if bool_decide (is_Some (d !! meta_path)) && permitted
  then (true, delete meta_path d)
  else (false, d).

End Disk.




(** The records of the repository's round-trip tests. *)
Definition sample_meta : TaskMeta :=
  mkTaskMeta "https://example.com/file.zip" "C:/Downloads/file.zip" "file.zip"
    1048576 "abc123" "Wed, 01 Jan 2025 00:00:00 GMT" 4
    [ mkBlockInfo 0 0 262143 262144 true;
      mkBlockInfo 1 262144 524287 100000 false;
      mkBlockInfo 2 524288 786431 0 false;
      mkBlockInfo 3 786432 1048575 0 false ].


End MetaFile.

(** ** task.h, task.cpp and block.cpp: the task state machine

    A call of an operation, and a step of a job, is taken as a whole:
    what the other threads do to the task comes before or after it, not
    between two of its statements.  The removals of the file and of the
    metadata file, which the source attempts and whose failure it
    ignores, are taken to succeed. *)

Module Task.

Inductive TaskState :=
| Queued | Downloading | Paused | Completed | Failed | Cancelled.

#[global] Instance TaskState_eq_dec : EqDecision TaskState.
Proof. solve_decision. Defined.

(** [class Block]: its [info_], its pause flag, and the cancellation flag
    of the [HttpEngine] it borrows. *)
Record Block := mkBlock {
  info_             : BlockInfo;
  paused_           : bool;
  engine_cancelled_ : bool
}.

(** What ends a job on the pool with an exception. *)
Inductive failure :=
| FailHttp (e : HttpEngine.HttpError)
| FailOther (what : string).

(** [error_message_]: [e.what() + " (HTTP " + to_string(status) + ")"]
    for an [HttpError], [e.what()] for any other exception. *)
Inductive error_text :=
| ErrHttp (e : HttpEngine.HttpError)
| ErrOther (what : string).

(** The fields of [class Task] the state machine reads and writes, and
    whether the destination file and the metadata file are on disk. *)
Record t := mk {
  task_id_          : Z;
  state_            : TaskState;
  error_message_    : option error_text;    (* [None]: the empty string *)
  file_size_        : Z;
  max_blocks_       : Z;
  blocks_           : list Block;
  progress_         : option ProgressMonitor.t;
  auto_retry_count_ : Z;
  file_on_disk_     : bool;
  meta_on_disk_     : bool
}.

Definition kMaxAutoRetries : Z := 3.

(** [on_state_change_(task_id_, new_state)] as the task's output. *)
Definition notification : Type := Z * TaskState.

Definition with_state (s : TaskState) (tk : t) : t :=
  mk (task_id_ tk) s (error_message_ tk) (file_size_ tk) (max_blocks_ tk)
     (blocks_ tk) (progress_ tk) (auto_retry_count_ tk)
     (file_on_disk_ tk) (meta_on_disk_ tk).

Definition with_error (e : error_text) (tk : t) : t :=
  mk (task_id_ tk) (state_ tk) (Some e) (file_size_ tk) (max_blocks_ tk)
     (blocks_ tk) (progress_ tk) (auto_retry_count_ tk)
     (file_on_disk_ tk) (meta_on_disk_ tk).

Definition with_blocks (bs : list Block) (tk : t) : t :=
  mk (task_id_ tk) (state_ tk) (error_message_ tk) (file_size_ tk)
     (max_blocks_ tk) bs (progress_ tk) (auto_retry_count_ tk)
     (file_on_disk_ tk) (meta_on_disk_ tk).

Definition with_progress (p : option ProgressMonitor.t) (tk : t) : t :=
  mk (task_id_ tk) (state_ tk) (error_message_ tk) (file_size_ tk)
     (max_blocks_ tk) (blocks_ tk) p (auto_retry_count_ tk)
     (file_on_disk_ tk) (meta_on_disk_ tk).

Definition with_retry_count (n : Z) (tk : t) : t :=
  mk (task_id_ tk) (state_ tk) (error_message_ tk) (file_size_ tk)
     (max_blocks_ tk) (blocks_ tk) (progress_ tk) n
     (file_on_disk_ tk) (meta_on_disk_ tk).

Definition with_disk (file meta : bool) (tk : t) : t :=
  mk (task_id_ tk) (state_ tk) (error_message_ tk) (file_size_ tk)
     (max_blocks_ tk) (blocks_ tk) (progress_ tk) (auto_retry_count_ tk)
     file meta.

Definition with_file_size (n : Z) (tk : t) : t :=
  mk (task_id_ tk) (state_ tk) (error_message_ tk) n
     (max_blocks_ tk) (blocks_ tk) (progress_ tk) (auto_retry_count_ tk)
     (file_on_disk_ tk) (meta_on_disk_ tk).

(** [Task::Task(task_id, ..., max_blocks, ...)] *)
Definition create (task_id max_blocks : Z) : t :=
  mk task_id Queued None 0 (clamp max_blocks 1 32) [] None 0 false false.

(** [Task::fromMeta], the metadata loaded: a [Paused] task with id 0 and
    the progress of the saved blocks; the blocks themselves are read
    again by the job of [resume]. *)
Definition fromMeta (now : Z) (meta : TaskMeta) : t :=
  let already_downloaded :=
    fold_left (fun acc bi => acc + downloaded bi) (blocks meta) 0 in
  mk 0 Paused None (file_size meta) (clamp (max_blocks meta) 1 32) []
     (Some (ProgressMonitor.addBytes now already_downloaded
              (ProgressMonitor.create (file_size meta))))
     0 true true.

(** [Task::setState]: the callback is invoked only when the state it finds
    differs from the new one. *)
Definition setState (new_state : TaskState) (tk : t) : t * list notification :=
  let old_state := state_ tk in
  (with_state new_state tk,
   if decide (old_state = new_state) then [] else [(task_id_ tk, new_state)]).

(** [Block::pause]: sets the flag and cancels the engine. *)
Definition Block_pause (b : Block) : Block := mkBlock (info_ b) true true.

(** [Task::start]: the compare-exchange stores [Downloading] before
    [setState] runs.  The job the pool is given runs later. *)
Definition start (tk : t) : t * list notification :=
  if decide (state_ tk = Queued) then
    setState Downloading (with_state Downloading tk)
  else (tk, []).

(** [Task::pause] *)
Definition pause (tk : t) : t * list notification :=
  if decide (state_ tk = Downloading) then
    let tk1 := with_state Paused tk in
    let tk2 := with_blocks (map Block_pause (blocks_ tk1)) tk1 in
    let tk3 := with_disk (file_on_disk_ tk2) true tk2 in      (* saveMeta *)
    setState Paused tk3
  else (tk, []).

(** [Task::resume] *)
Definition resume (tk : t) : t * list notification :=
  if decide (state_ tk = Paused) then
    setState Downloading (with_state Downloading tk)
  else if decide (state_ tk = Failed) then
    setState Downloading (with_state Downloading tk)
  else (tk, []).

(** [Task::cancel]: the state is stored without a test; the file and the
    metadata are removed. *)
Definition cancel (tk : t) : t * list notification :=
  let tk1 := with_state Cancelled tk in
  let tk2 := with_blocks (map Block_pause (blocks_ tk1)) tk1 in
  let tk3 := with_disk false false tk2 in
  setState Cancelled tk3.

(** [Task::checkCompletion]; [actual_size] is what [fs::file_size] returns
    ([None]: it throws). *)
Definition checkCompletion (actual_size : option Z) (tk : t)
  : t * list notification :=
  if (0 <? file_size_ tk)
     && negb (bool_decide (actual_size = Some (file_size_ tk)))
  then setState Failed tk
  else
    let '(tk1, ns) := setState Completed tk in
    (with_disk (file_on_disk_ tk1) false tk1, ns).

Definition all_done (tk : t) : bool :=
  forallb (fun b => completed (info_ b)) (blocks_ tk).

(** [Task::onBlockProgress(block_id, bytes_delta)] at clock reading [now]. *)
Definition onBlockProgress (now : Z) (actual_size : option Z)
    (bytes_delta : Z) (tk : t) : t * list notification :=
  if decide (state_ tk = Cancelled) then (tk, [])
  else
    let tk1 :=
      with_progress (ProgressMonitor.addBytes now bytes_delta <$> progress_ tk) tk in
    if all_done tk1 && bool_decide (state_ tk1 = Downloading)
    then checkCompletion actual_size tk1
    else (tk1, []).

(** What the pool threads do to a task, one step at a time. *)
Inductive worker_event :=
| BlockStart (i : nat)
    (* [Block::execute] begins: [paused_.store(false)] *)
| BlockChunk (i : nat) (written : Z) (now : Z) (actual_size : option Z)
    (* the data callback wrote [written] bytes and reports them *)
| BlockDone (i : nat) (now : Z) (actual_size : option Z)
    (* [engine_->download] returned *)
| BlockThrew (i : nat) (e : failure)
    (* [engine_->download] threw; the job in [submitBlocks] swallows it *)
| StartJobDone (content_length : Z) (accept_ranges : bool)
    (* [fetchFileInfoAndStart] went through in the job of [start]: the
       probe answered, the file is allocated, the blocks are created and
       submitted, the metadata saved *)
| StartJobThrew (e : failure)
    (* [fetchFileInfoAndStart] threw in the job of [start] *)
| ResumeJobThrew (e : failure).
    (* the job of [resume] threw *)

Definition update_block (i : nat) (f : Block -> Block) (tk : t) : t :=
  with_blocks (alter f i (blocks_ tk)) tk.

Definition add_downloaded (n : Z) (b : Block) : Block :=
  let bi := info_ b in
  mkBlock (mkBlockInfo (block_id bi) (range_start bi) (range_end bi)
             (downloaded bi + n) (completed bi))
          (paused_ b) (engine_cancelled_ b).

Definition set_completed (b : Block) : Block :=
  let bi := info_ b in
  mkBlock (mkBlockInfo (block_id bi) (range_start bi) (range_end bi)
             (downloaded bi) true)
          (paused_ b) (engine_cancelled_ b).

Definition unpause (b : Block) : Block :=
  mkBlock (info_ b) false (engine_cancelled_ b).

Definition error_of (e : failure) : error_text :=
  match e with
  | FailHttp h => ErrHttp h
  | FailOther w => ErrOther w
  end.

(** The catch clauses of the job of [start]. *)
Definition start_job_failed (e : failure) (tk : t) : t * list notification :=
  let tk1 := with_error (error_of e) tk in
  match e with
  | FailHttp h =>
      if HttpEngine.isRetryable h && (auto_retry_count_ tk1 <? kMaxAutoRetries)
      then
        let tk2 := with_retry_count (auto_retry_count_ tk1 + 1) tk1 in
        start (with_state Queued tk2)
      else setState Failed tk1
  | FailOther _ => setState Failed tk1
  end.

(** [fetchFileInfoAndStart] from the answer of the probe on: the size,
    the allocation, [createBlocks], [saveMeta]. *)
Definition fetched (content_length : Z) (accept_ranges : bool) (tk : t)
  : t * list notification :=
  let unknown := content_length <=? 0 in
  let size := if unknown then 0 else content_length in
  let accept := if unknown then false else accept_ranges in
  let tk1 := with_file_size size tk in
  let tk2 := with_disk (file_on_disk_ tk1 || (0 <? size)) (meta_on_disk_ tk1) tk1 in
  let tk3 := with_progress (Some (ProgressMonitor.create size)) tk2 in
  let created :=
    if 0 <? size then BlockSplitter.splitBlocks size (max_blocks_ tk3) accept
    else inr [mkBlockInfo 0 (-1) (-1) 0 false] in
  match created with
  | inr infos =>
      let tk4 := with_blocks (map (fun bi => mkBlock bi false false) infos) tk3 in
      (with_disk (file_on_disk_ tk4) true tk4, [])
  | inl (BlockSplitter.InvalidArgument w) =>
      start_job_failed (FailOther w) (with_blocks [] tk3)
  end.

Definition step (ev : worker_event) (tk : t) : t * list notification :=
  match ev with
  | BlockStart i =>
      match blocks_ tk !! i with
      | Some b =>
          if completed (info_ b) then (tk, [])
          else (update_block i unpause tk, [])
      | None => (tk, [])
      end
  | BlockChunk i written now actual_size =>
      match blocks_ tk !! i with
      | Some b =>
          if paused_ b then (tk, [])
          else onBlockProgress now actual_size written
                 (update_block i (add_downloaded written) tk)
      | None => (tk, [])
      end
  | BlockDone i now actual_size =>
      match blocks_ tk !! i with
      | Some b =>
          if paused_ b then (tk, [])
          else onBlockProgress now actual_size 0
                 (update_block i set_completed tk)
      | None => (tk, [])
      end
  | BlockThrew i e => (tk, [])
  | StartJobDone content_length accept_ranges =>
      fetched content_length accept_ranges tk
  | StartJobThrew e => start_job_failed e tk
  | ResumeJobThrew e => setState Failed (with_error (error_of e) tk)
  end.

(** Events in sequence, the notifications collected in order. *)
Fixpoint run (evs : list worker_event) (tk : t) : t * list notification :=
  match evs with
  | [] => (tk, [])
  | ev :: rest =>
      let '(tk1, ns1) := step ev tk in
      let '(tk2, ns2) := run rest tk1 in
      (tk2, ns1 ++ ns2)
  end.

(** A block event other than the completion of block [i]. *)
Definition spares (i : nat) (ev : worker_event) : Prop :=
  match ev with
  | BlockStart _ | BlockChunk _ _ _ _ | BlockThrew _ _ => True
  | BlockDone j _ _ => j <> i
  | StartJobDone _ _ | StartJobThrew _ | ResumeJobThrew _ => False
  end.

(** Block [i] exists and has not completed. *)
Definition incomplete (i : nat) (tk : t) : Prop :=
  exists b, blocks_ tk !! i = Some b /\ completed (info_ b) = false.

(** The operations a caller has on a task. *)
Inductive operation :=
| OpStart | OpPause | OpResume | OpCancel
| OpProgress (now : Z) (actual_size : option Z) (bytes_delta : Z).

Definition apply (o : operation) (tk : t) : t * list notification :=
  match o with
  | OpStart => start tk
  | OpPause => pause tk
  | OpResume => resume tk
  | OpCancel => cancel tk
  | OpProgress now actual bytes_delta => onBlockProgress now actual bytes_delta tk
  end.

(** A new task with id 1, started, whose probe found 100 bytes: one
    block [[0, 99]], not yet running. *)
Definition downloading_task : t :=
  fst (step (StartJobDone 100 true) (fst (start (create 1 8)))).

(** The same task after its block has written the 100 bytes and the
    transfer has returned, the file on disk being 100 bytes long. *)
Definition completed_task : t :=
  fst (run [BlockStart 0; BlockChunk 0 100 1 (Some 100);
            BlockDone 0 2 (Some 100)] downloading_task).

(** HTTP 404 from [HttpEngine::download]. *)
Definition http_404 : failure :=
  FailHttp (HttpEngine.mkHttpError (HttpEngine.MsgHttpError 404)
              HttpEngine.CURLE_OK 404 false).

End Task.

(** ** task_queue.cpp and the callback wiring of download_manager.cpp *)

Module TaskQueue.

Import Task.

(** The [Task] objects live in a heap: the queue's vector and the
    manager's map hold [shared_ptr]s to the same objects, here handles. *)
Abbreviation handle := nat (only parsing).
Abbreviation heap := (gmap nat Task.t) (only parsing).

(** The fields of [class TaskQueue]. *)
Record t := mk {
  tasks_          : list handle;
  max_concurrent_ : Z;
  active_count_   : Z;
  auto_start_     : bool
}.

(** The queue together with the task objects it points to. *)
Record world := mkWorld {
  objects : heap;
  queue   : t
}.

(** [TaskQueue::TaskQueue(max_concurrent)] *)
Definition create (max_concurrent : Z) : t :=
  mk [] (clamp max_concurrent 1 10) 0 true.

Definition with_tasks (l : list handle) (q : t) : t :=
  mk l (max_concurrent_ q) (active_count_ q) (auto_start_ q).
Definition with_max (m : Z) (q : t) : t :=
  mk (tasks_ q) m (active_count_ q) (auto_start_ q).
Definition with_active (a : Z) (q : t) : t :=
  mk (tasks_ q) (max_concurrent_ q) a (auto_start_ q).
Definition with_auto_start (b : bool) (q : t) : t :=
  mk (tasks_ q) (max_concurrent_ q) (active_count_ q) b.

(** [t->getId() == task_id] for the object behind a handle. *)
Definition has_id (hp : heap) (task_id : Z) (h : handle) : Prop :=
  task_id_ <$> hp !! h = Some task_id.

#[global] Instance has_id_dec hp task_id h : Decision (has_id hp task_id h).
Proof. unfold has_id. apply _. Defined.

(** [std::find_if(tasks_.begin(), tasks_.end(), ...)]: the position of
    the first task with the id, with its handle. *)
Definition find_task (hp : heap) (task_id : Z) (l : list handle)
  : option (nat * handle) :=
  list_find (has_id hp task_id) l.

(** The loop of [tryStartNext]: stops at the first task that finds the
    queue full; starts every [Queued] task before, counting each.  The
    source reads the state of a task from [getInfo()], which also takes
    a snapshot of the task's progress monitor and so drops the samples
    that have left its window; the loop below reads the state and
    leaves the monitor alone. *)
Fixpoint start_loop (l : list handle) (max_concurrent : Z)
    (hp : heap) (active : Z) : heap * Z :=
  match l with
  | [] => (hp, active)
  | h :: rest =>
      if max_concurrent <=? active then (hp, active)
      else
        match hp !! h with
        | Some tk =>
            if decide (state_ tk = Queued) then
              start_loop rest max_concurrent
                (<[h := fst (Task.start tk)]> hp) (active + 1)
            else start_loop rest max_concurrent hp active
        | None => start_loop rest max_concurrent hp active
        end
  end.

(** [TaskQueue::tryStartNext] *)
Definition tryStartNext (w : world) : world :=
  let q := queue w in
  if negb (auto_start_ q) then w
  else
    let '(hp, active) :=
      start_loop (tasks_ q) (max_concurrent_ q) (objects w) (active_count_ q) in
    mkWorld hp (with_active active q).

(** [TaskQueue::onTaskFinished(task_id)] *)
Definition onTaskFinished (task_id : Z) (w : world) : world :=
  match find_task (objects w) task_id (tasks_ (queue w)) with
  | None => w
  | Some _ =>
      let q := queue w in
      let q1 := if 0 <? active_count_ q
                then with_active (active_count_ q - 1) q else q in
      tryStartNext (mkWorld (objects w) q1)
  end.

(** [DownloadManager::onTaskStateChange(task_id, state)] *)
Definition onTaskStateChange (n : notification) (w : world) : world :=
  match snd n with
  | Completed | Failed | Cancelled => onTaskFinished (fst n) w
  | _ => w
  end.

Definition dispatch (ns : list notification) (w : world) : world :=
  fold_left (fun w n => onTaskStateChange n w) ns w.

(** A method of the task behind handle [h], its callbacks delivered. *)
Definition on_task (h : handle) (f : Task.t -> Task.t * list notification)
    (w : world) : world :=
  match objects w !! h with
  | Some tk =>
      let '(tk', ns) := f tk in
      dispatch ns (mkWorld (<[h := tk']> (objects w)) (queue w))
  | None => w
  end.

(** [TaskQueue::addTask(task)] *)
Definition addTask (h : handle) (w : world) : world :=
  match objects w !! h with
  | None => w                          (* [if (!task) return] *)
  | Some _ =>
      tryStartNext
        (mkWorld (objects w) (with_tasks (tasks_ (queue w) ++ [h]) (queue w)))
  end.

(** [TaskQueue::removeTask(task_id)] *)
Definition removeTask (task_id : Z) (w : world) : bool * world :=
  match find_task (objects w) task_id (tasks_ (queue w)) with
  | None => (false, w)
  | Some (i, h) =>
      let q := queue w in
      let was_active :=
        bool_decide (state_ <$> objects w !! h = Some Downloading) in
      let q1 := if was_active then with_active (active_count_ q - 1) q else q in
      let q2 := with_tasks (delete i (tasks_ q1)) q1 in
      let w1 := tryStartNext (mkWorld (objects w) q2) in
      (true, on_task h Task.cancel w1)
  end.

(** [std::iter_swap] of the elements at [i] and [j]. *)
Definition iter_swap (i j : nat) (l : list handle) : list handle :=
  match l !! i, l !! j with
  | Some a, Some b => <[i := b]> (<[j := a]> l)
  | _, _ => l
  end.

(** [TaskQueue::moveUp(task_id)] *)
Definition moveUp (task_id : Z) (w : world) : bool * world :=
  match find_task (objects w) task_id (tasks_ (queue w)) with
  | None => (false, w)
  | Some (O, _) => (false, w)
  | Some (S i, _) =>
      (true, mkWorld (objects w)
               (with_tasks (iter_swap (S i) i (tasks_ (queue w))) (queue w)))
  end.

(** [TaskQueue::moveDown(task_id)] *)
Definition moveDown (task_id : Z) (w : world) : bool * world :=
  match find_task (objects w) task_id (tasks_ (queue w)) with
  | None => (false, w)
  | Some (i, _) =>
      if decide (S i = length (tasks_ (queue w))) then (false, w)
      else
        (true, mkWorld (objects w)
                 (with_tasks (iter_swap i (S i) (tasks_ (queue w))) (queue w)))
  end.

(** [TaskQueue::setMaxConcurrent(max)] *)
Definition setMaxConcurrent (max : Z) (w : world) : world :=
  tryStartNext (mkWorld (objects w) (with_max (clamp max 1 10) (queue w))).

(** The number of tasks of the queue whose state is [Downloading]. *)
Definition downloading_count (w : world) : Z :=
  Z.of_nat (length (filter
    (fun h => state_ <$> objects w !! h = Some Downloading)
    (tasks_ (queue w)))).

(** What can happen to the queue and its tasks, one call at a time. *)
Inductive action :=
| AddTask (h : handle)
| RemoveTask (task_id : Z)
| OnTaskFinished (task_id : Z)
| SetMaxConcurrent (max : Z)
| TryStartNext
| MoveUp (task_id : Z)
| MoveDown (task_id : Z)
| TaskOp (h : handle) (o : Task.operation)
| Worker (h : handle) (ev : Task.worker_event).

Definition act (a : action) (w : world) : world :=
  match a with
  | AddTask h => addTask h w
  | RemoveTask task_id => snd (removeTask task_id w)
  | OnTaskFinished task_id => onTaskFinished task_id w
  | SetMaxConcurrent max => setMaxConcurrent max w
  | TryStartNext => tryStartNext w
  | MoveUp task_id => snd (moveUp task_id w)
  | MoveDown task_id => snd (moveDown task_id w)
  | TaskOp h o => on_task h (Task.apply o) w
  | Worker h ev => on_task h (Task.step ev) w
  end.

Definition acts (l : list action) (w : world) : world :=
  fold_left (fun w a => act a w) l w.

(** One new task with id 1 behind handle 0, and an empty queue that
    admits one download at a time. *)
Definition one_task_world : world :=
  mkWorld {[ 0%nat := Task.create 1 8 ]} (create 1).

(** Two new tasks with ids 1 and 2 behind handles 0 and 1, and an empty
    queue that admits one download at a time. *)
Definition two_task_world : world :=
  mkWorld {[ 0%nat := Task.create 1 8; 1%nat := Task.create 2 8 ]} (create 1).

(** The state of the task behind a handle. *)
Definition state_of (w : world) (h : handle) : option TaskState :=
  state_ <$> objects w !! h.

(** A task recovered from its metadata behind handle 0, and an empty
    queue of width 1. *)
Definition recovered_world : world :=
  mkWorld {[ 0%nat := Task.fromMeta 0 MetaFile.sample_meta ]} (create 1).

(** Tasks with ids 1, 2, 3 behind handles 0, 1, 2, added in this order
    to a queue that does not start them. *)
Definition three_task_world : world :=
  fold_left (fun w h => addTask h w) [0; 1; 2]%nat
    (mkWorld {[ 0%nat := Task.create 1 1; 1%nat := Task.create 2 1;
                2%nat := Task.create 3 1 ]}
             (with_auto_start false (create 10))).

(** [getAllTaskInfo()], reduced to the ids. *)
Definition ids (w : world) : list (option Z) :=
  map (fun h => task_id_ <$> objects w !! h) (tasks_ (queue w)).

(** The task the queue identifies by [task_id]: the first in queue order
    with that id, at position [i], behind handle [h]. *)
Definition first_with_id (w : world) (task_id : Z) (i : nat) (h : handle)
  : Prop :=
  tasks_ (queue w) !! i = Some h /\ has_id (objects w) task_id h /\
  forall j h', tasks_ (queue w) !! j = Some h' -> (j < i)%nat ->
               ~ has_id (objects w) task_id h'.

(** No task of the queue has the id. *)
Definition absent (w : world) (task_id : Z) : Prop :=
  Forall (fun h => ~ has_id (objects w) task_id h) (tasks_ (queue w)).

(** What a queue operation that only reorders leaves alone: the task
    objects with their states, the counters, and the tasks in the queue
    up to their order. *)
Definition reordered (w w' : world) : Prop :=
  objects w' = objects w /\
  active_count_ (queue w') = active_count_ (queue w) /\
  max_concurrent_ (queue w') = max_concurrent_ (queue w) /\
  auto_start_ (queue w') = auto_start_ (queue w) /\
  tasks_ (queue w') ≡ₚ tasks_ (queue w).

End TaskQueue.

(** ** Further models: the blocks as a tiling of the file *)

Module Tiling.

Import BlockSplitter.

(** Byte offset [o] lies in the range of block [b]. *)
Definition covers (o : Z) (b : BlockInfo) : Prop :=
  range_start b <= o <= range_end b.

(** The bytes of all blocks together. *)
Definition total_len (bs : list BlockInfo) : Z :=
  foldr (fun b acc => block_len b + acc) 0 bs.

(** A non-empty run of non-empty blocks that touch, from byte [lo] to
    byte [hi]. *)
Definition tiles (lo hi : Z) (bs : list BlockInfo) : Prop :=
  contiguous bs /\
  (exists b0, head bs = Some b0 /\ range_start b0 = lo) /\
  (exists bl, last bs = Some bl /\ range_end bl = hi) /\
  Forall (fun b => range_start b <= range_end b) bs.

End Tiling.

(** ** Further models: the state of a token bucket *)

Module BucketState.

Import TokenBucket.

(** The bucket holds between nothing and one second's worth of tokens,
    and its capacity is its rate. *)
Definition sane (tb : t) : Prop :=
  max_tokens_ tb = rate_ tb /\
  0 <= tokens_ tb /\
  (0 < rate_ tb -> tokens_ tb <= rate_ tb).

(** The part of it that survives an overflow of the 64-bit sum in
    [refill]: the bucket holds no more than its capacity, which is its
    rate. *)
Definition capped (tb : t) : Prop :=
  max_tokens_ tb = rate_ tb /\
  (0 < rate_ tb -> tokens_ tb <= rate_ tb).

Definition is_set_rate (o : op) : bool :=
  match o with OpSetRate _ _ => true | _ => false end.

(** No thread calls [setRate] during the waits of the schedule. *)
Definition rate_kept (sched : list wake) : Prop :=
  Forall (fun w => Forall (fun o => is_set_rate o = false) (wake_others w))
         sched.

End BucketState.

(** ** Further models: a monitor over a run of calls *)

Module MonitorRun.

Import ProgressMonitor.

(** The calls a monitor receives, each with the reading of the steady
    clock it makes (nanoseconds). *)
Inductive call :=
| AddBytes (now n : Z)
| Snapshot (now : Z).

Definition call_time (c : call) : Z :=
  match c with AddBytes now _ => now | Snapshot now => now end.

Definition feed1 (pm : t) (c : call) : t :=
  match c with
  | AddBytes now n => addBytes now n pm
  | Snapshot now => snd (snapshot now pm)
  end.

Definition feed (cs : list call) (pm : t) : t := fold_left feed1 cs pm.

(** The bytes reported by the calls, as [addBytes] counts them. *)
Definition counted (cs : list call) : Z :=
  foldr (fun c acc =>
           match c with
           | AddBytes _ n => (if n <=? 0 then 0 else n) + acc
           | Snapshot _ => acc
           end) 0 cs.

(** Every sample the calls push, from a count of [d] bytes on: what the
    deque would hold if nothing were ever popped. *)
Fixpoint history (d : Z) (cs : list call) : list Sample :=
  match cs with
  | [] => []
  | AddBytes now n :: rest =>
      if n <=? 0 then history d rest
      else mkSample now (d + n) :: history (d + n) rest
  | Snapshot _ :: rest => history d rest
  end.

(** The readings of a steady clock never go back. *)
Fixpoint steady (cs : list call) : Prop :=
  match cs with
  | [] => True
  | c :: rest =>
      Forall (fun c' => call_time c <= call_time c') rest /\ steady rest
  end.

Fixpoint ascending (ss : list Sample) : Prop :=
  match ss with
  | [] => True
  | s :: rest => Forall (fun s' => time s <= time s') rest /\ ascending rest
  end.

Definition window_ns : Z := WINDOW_SIZE_SEC * 1000000000.

Definition in_window (cutoff : Z) (s : Sample) : bool := cutoff <=? time s.

End MonitorRun.

(** ** Further models: a JSON library that can refuse *)

Module MetaStore.

Import MetaFile.

Fixpoint mentions (c : Ascii.ascii) (s : string) : bool :=
  match s with
  | EmptyString => false
  | String a rest => Ascii.eqb a c || mentions c rest
  end.

Definition dumpable (j : json) : bool :=
  match j with
  | JObject members =>
      forallb (fun kv =>
                 match snd kv with
                 | JString s => negb (mentions (Ascii.ascii_of_nat 255) s)
                 | _ => true
                 end) members
  | _ => true
  end.

(** A library that, like the real one, refuses to dump a string holding
    the byte 255, which no UTF-8 text holds, and to parse an empty
    file. *)
Definition strict_library : JsonLibrary :=
  mkJsonLibrary (option json) None
    (fun j => if dumpable j then Some (Some j) else None)
    (fun c => c).

(** [sample_meta] with a file name decoded from [%FF.zip]. *)
Definition undumpable_meta : TaskMeta :=
  mkTaskMeta (url sample_meta) (file_path sample_meta)
    (String (Ascii.ascii_of_nat 255) ".zip")
    (file_size sample_meta) (etag sample_meta) (last_modified sample_meta)
    (max_blocks sample_meta) (blocks sample_meta).

End MetaStore.

(** ** Further models: a task under its callers and its workers *)

Module TaskRun.

Import Task.

(** What happens to a task: a call of one of its operations, or a step
    of one of its jobs on the pool. *)
Inductive action :=
| Call (o : operation)
| Work (ev : worker_event).

Definition do1 (a : action) (tk : t) : t * list notification :=
  match a with
  | Call o => apply o tk
  | Work ev => step ev tk
  end.

Fixpoint exec (acts : list action) (tk : t) : t * list notification :=
  match acts with
  | [] => (tk, [])
  | a :: rest =>
      let '(tk1, ns1) := do1 a tk in
      let '(tk2, ns2) := exec rest tk1 in
      (tk2, ns1 ++ ns2)
  end.




(** The file size that [fs::file_size] returns to [checkCompletion],
    where the action gets that far. *)
Definition seen_size (a : action) : option Z :=
  match a with
  | Call (OpProgress _ actual _) => actual
  | Work (BlockChunk _ _ _ actual) => actual
  | Work (BlockDone _ _ actual) => actual
  | _ => None
  end.



(** [downloading_task] after its block has written the 100 bytes, the
    transfer not yet returned. *)
Definition written_task : t :=
  fst (run [BlockStart 0; BlockChunk 0 100 1 (Some 100)] downloading_task).

End TaskRun.

(** ** Further models: the limits of a queue *)

Module QueueLimits.

Import TaskQueue.

(** The width of the queue is between 1 and 10, and the queue counts no
    more than 10 active downloads. *)
Definition limits (w : world) : Prop :=
  1 <= max_concurrent_ (queue w) <= 10 /\ active_count_ (queue w) <= 10.

End QueueLimits.

(** ** Further models: the data callback of a block *)

Module BlockData.

(** One pass through the [while (remaining > 0)] loop of the data
    callback: what [paused_.load()] reads, the waits the caller goes
    through in [limiter_->acquire], and what [WriteFile] reports as
    written for a request of a given size. *)
Record pass := mkPass {
  paused_now : bool;
  waits      : list TokenBucket.wake;
  write      : Z -> Z
}.

(** What the callback reads and writes: [info_.downloaded], the
    [current_offset] it captures, the bucket behind [limiter_] ([None]:
    a null pointer), the writes to the file as (offset, length), and the
    deltas passed to [on_progress_]. *)
Record cursor := mkCursor {
  downloaded_    : Z;
  current_offset : Z;
  limiter_       : option TokenBucket.t;
  file_writes    : list (Z * Z);
  reported       : list Z
}.

Definition with_limiter (lim : option TokenBucket.t) (c : cursor) : cursor :=
  mkCursor (downloaded_ c) (current_offset c) lim (file_writes c) (reported c).

(** The body of the loop after a write of [written] bytes. *)
Definition advance (written : Z) (c : cursor) : cursor :=
  mkCursor (downloaded_ c + written) (current_offset c + written)
    (limiter_ c) (file_writes c ++ [(current_offset c, written)])
    (reported c ++ [written]).

(** The [while (remaining > 0)] loop.  [None]: the caller is still
    blocked in [acquire], or in the loop, when the passes end. *)
Fixpoint data_loop (ps : list pass) (c : cursor) (remaining total_written : Z)
  : option Z * cursor :=
  if remaining <=? 0 then (Some total_written, c)
  else
    match ps with
    | [] => (None, c)
    | p :: rest =>
        if paused_now p then (Some 0, c)
        else
          let chunk := remaining in
          let '(granted, lim) :=
            match limiter_ c with
            | None => (Some chunk, None)
            | Some tb =>
                let '(r, tb') := TokenBucket.acquire (waits p) tb chunk in
                (r, Some tb')
            end in
          let c1 := with_limiter lim c in
          match granted with
          | None => (None, c1)
          | Some g =>
              if bool_decide (is_Some (limiter_ c)) && (g =? 0)
              then (Some 0, c1)
              else
                let written := write p g in
                if written =? 0 then (Some 0, c1)
                else data_loop rest (advance written c1)
                       (remaining - written) (total_written + written)
          end
    end.

(** The data callback of [Block::execute], called with [size] bytes;
    [paused_first] is what its first [paused_.load()] reads. *)
Definition on_data (paused_first : bool) (ps : list pass) (c : cursor)
    (size : Z) : option Z * cursor :=
  if paused_first then (Some 0, c) else data_loop ps c size 0.

(** A call of the data callback by the transfer. *)
Record delivery := mkDelivery {
  size         : Z;
  paused_first : bool;
  passes       : list pass
}.

(** The calls of one [engine_->download]: the transfer hands over its
    chunks until the callback returns less than it was given, which
    aborts it.  [Some true]: every chunk was taken; [Some false]: the
    callback aborted the transfer; [None]: a call has not returned. *)
Fixpoint transfer (ds : list delivery) (c : cursor) : option bool * cursor :=
  match ds with
  | [] => (Some true, c)
  | d :: rest =>
      match on_data (paused_first d) (passes d) c (size d) with
      | (None, c1) => (None, c1)
      | (Some consumed, c1) =>
          if consumed =? size d then transfer rest c1 else (Some false, c1)
      end
  end.

(** The writes follow one another in the file from offset [off] on,
    each of at least one byte. *)
Fixpoint chain (off : Z) (ws : list (Z * Z)) : Prop :=
  match ws with
  | [] => True
  | (o, len) :: rest => o = off /\ 0 < len /\ chain (off + len) rest
  end.

Definition total (ws : list (Z * Z)) : Z :=
  foldr (fun w acc => snd w + acc) 0 ws.

(** The bytes the transfer hands over in its calls. *)
Definition delivered (ds : list delivery) : Z :=
  foldr (fun d acc => size d + acc) 0 ds.

(** [WriteFile] never reports more than it was asked to write. *)
Definition writes_within (p : pass) : Prop :=
  forall chunk, 0 < chunk -> 0 <= write p chunk <= chunk.

(** What a run of the callback adds to the cursor: the writes [ws]. *)
Definition extends (c c' : cursor) (ws : list (Z * Z)) : Prop :=
  file_writes c' = file_writes c ++ ws /\
  reported c' = reported c ++ map snd ws /\
  chain (current_offset c) ws /\
  downloaded_ c' = downloaded_ c + total ws /\
  current_offset c' = current_offset c + total ws.

(** A cursor at the start of a block [[1000, 1999]] of a new download,
    with a bucket of [rate] bytes per second. *)
Definition fresh_cursor (rate : option Z) : cursor :=
  mkCursor 0 1000 ((fun r => TokenBucket.create r 0) <$> rate) [] [].

End BlockData.

(** ** Further models: file names from URLs *)

Module FileName.

Import Stdlib.Strings.Ascii.

(** The [hexVal] lambda of [urlDecode]: [None] stands for -1. *)
Definition hexVal (c : Ascii.ascii) : option nat :=
  let n := Ascii.nat_of_ascii c in
  if (48 <=? n)%nat && (n <=? 57)%nat then Some (n - 48)%nat
  else if (97 <=? n)%nat && (n <=? 102)%nat then Some (n - 97 + 10)%nat
  else if (65 <=? n)%nat && (n <=? 70)%nat then Some (n - 65 + 10)%nat
  else None.

(** [Task::urlDecode]: the loop over [encoded], index [i] at the head
    of the string; [i + 2 < encoded.size()] holds when two more
    characters follow. *)
Fixpoint urlDecode (encoded : string) : string :=
  match encoded with
  | EmptyString => EmptyString
  | String c rest =>
      if Ascii.eqb c "%"%char then
        match rest with
        | String hi (String lo rest') =>
            match hexVal hi, hexVal lo with
            | Some h, Some l =>
                String (Ascii.ascii_of_nat (h * 16 + l)) (urlDecode rest')
            | _, _ => String c (urlDecode rest)
            end
        | _ => String c (urlDecode rest)
        end
      else if Ascii.eqb c "+"%char then String " "%char (urlDecode rest)
      else String c (urlDecode rest)
  end.

(** [s.find(c)]: the first position of [c]. *)
Fixpoint find (c : Ascii.ascii) (s : string) : option nat :=
  match s with
  | EmptyString => None
  | String a rest =>
      if Ascii.eqb a c then Some O else S <$> find c rest
  end.

(** [s.rfind(c)]: the last position of [c]. *)
Fixpoint rfind (c : Ascii.ascii) (s : string) : option nat :=
  match s with
  | EmptyString => None
  | String a rest =>
      match rfind c rest with
      | Some i => Some (S i)
      | None => if Ascii.eqb a c then Some O else None
      end
  end.

(** [s.substr(0, n)] and [s.substr(n)], for [n <= s.size()]. *)
Fixpoint substr_to (n : nat) (s : string) : string :=
  match n, s with
  | S n', String a rest => String a (substr_to n' rest)
  | _, _ => EmptyString
  end.

Fixpoint substr_from (n : nat) (s : string) : string :=
  match n, s with
  | S n', String _ rest => substr_from n' rest
  | _, _ => s
  end.

(** [Task::extractFileName] *)
Definition extractFileName (url : string) : string :=
  let path :=
    match find "?"%char url with
    | Some query_pos => substr_to query_pos url
    | None => url
    end in
  match rfind "/"%char path with
  | Some slash_pos =>
      if (slash_pos + 1 <? String.length path)%nat
      then urlDecode (substr_from (slash_pos + 1) path)
      else "download"
  | None => "download"
  end.

End FileName.

(** ** Further models: the probe of a download *)

Module Probe.

Import Stdlib.Strings.Ascii HttpEngine.

(** *** Header lines *)

(** The characters of [" \t\r\n"]. *)
Definition is_blank (c : ascii) : bool :=
  Ascii.eqb c " "%char || Ascii.eqb c "009"%char
  || Ascii.eqb c "013"%char || Ascii.eqb c "010"%char.

(** [s.find_first_not_of(" \t\r\n")] and [s.find_last_not_of(" \t\r\n")] *)
Fixpoint find_first_not_of_blank (s : string) : option nat :=
  match s with
  | EmptyString => None
  | String a rest =>
      if is_blank a then S <$> find_first_not_of_blank rest else Some O
  end.

Fixpoint find_last_not_of_blank (s : string) : option nat :=
  match s with
  | EmptyString => None
  | String a rest =>
      match find_last_not_of_blank rest with
      | Some i => Some (S i)
      | None => if is_blank a then None else Some O
      end
  end.

(** [s.substr(pos, len)], for [pos <= s.size()]. *)
Definition substr (pos len : nat) (s : string) : string :=
  FileName.substr_to len (FileName.substr_from pos s).

(** [trim]; without a last position [end - start + 1] wraps around to a
    length that reaches the end of the string. *)
Definition trim (s : string) : string :=
  match find_first_not_of_blank s with
  | None => EmptyString
  | Some start =>
      match find_last_not_of_blank s with
      | Some end_ => substr start (end_ - start + 1) s
      | None => FileName.substr_from start s
      end
  end.

Fixpoint all_blank (s : string) : bool :=
  match s with
  | EmptyString => true
  | String a rest => is_blank a && all_blank rest
  end.

(** [std::tolower(static_cast<unsigned char>(c))] in the C locale. *)
Definition tolower (c : ascii) : ascii :=
  let n := nat_of_ascii c in
  if (65 <=? n)%nat && (n <=? 90)%nat then ascii_of_nat (n + 32) else c.

(** A string with its letters in lower case. *)
Fixpoint lower (s : string) : string :=
  match s with
  | EmptyString => EmptyString
  | String a rest => String (tolower a) (lower rest)
  end.

(** The loop of [headerNameEquals] over the characters of [name]. *)
Fixpoint name_loop (header name : string) : bool :=
  match name with
  | EmptyString => true
  | String n name' =>
      match header with
      | String h header' =>
          if Ascii.eqb (tolower h) (tolower n) then name_loop header' name'
          else false
      | EmptyString => false
      end
  end.

Definition headerNameEquals (header name : string) : bool :=
  if (String.length header <? String.length name)%nat then false
  else name_loop header name.

(** [std::stoll(value)]: white space, a sign, decimal digits; [None]
    stands for [invalid_argument] (no digit) and [out_of_range]. *)
Definition is_space (c : ascii) : bool :=
  let n := nat_of_ascii c in
  ((9 <=? n)%nat && (n <=? 13)%nat) || (n =? 32)%nat.

Definition digit (c : ascii) : option Z :=
  let n := nat_of_ascii c in
  if (48 <=? n)%nat && (n <=? 57)%nat then Some (Z.of_nat (n - 48)) else None.

Fixpoint skip_space (s : string) : string :=
  match s with
  | String a rest => if is_space a then skip_space rest else s
  | EmptyString => s
  end.

Fixpoint digits (acc : Z) (s : string) : Z :=
  match s with
  | String a rest =>
      match digit a with
      | Some d => digits (acc * 10 + d) rest
      | None => acc
      end
  | EmptyString => acc
  end.

Definition stoll (s : string) : option Z :=
  let s1 := skip_space s in
  let '(negative, s2) :=
    match s1 with
    | String a rest =>
        if Ascii.eqb a "-"%char then (true, rest)
        else if Ascii.eqb a "+"%char then (false, rest)
        else (false, s1)
    | EmptyString => (false, s1)
    end in
  match s2 with
  | String a _ =>
      match digit a with
      | Some _ =>
          let v := if negative then - digits 0 s2 else digits 0 s2 in
          if (- 2 ^ 63 <=? v) && (v <=? 2 ^ 63 - 1) then Some v else None
      | None => None
      end
  | EmptyString => None
  end.

(** [struct FileInfo] *)
Record FileInfo := mkFileInfo {
  content_length      : Z;
  accept_ranges       : bool;
  etag                : string;
  last_modified       : string;
  content_type        : string;
  final_url           : string;
  content_disposition : string
}.

(** A default-constructed [FileInfo]. *)
Definition no_info : FileInfo := mkFileInfo (-1) false "" "" "" "" "".

(** [headHeaderCallback] on one header line; it always returns [total],
    so the transfer goes on. *)
Definition headHeaderCallback (line : string) (info : FileInfo) : FileInfo :=
  match FileName.find ":"%char line with
  | None => info
  | Some colon =>
      let name := FileName.substr_to colon line in
      let value := trim (FileName.substr_from (colon + 1) line) in
      if headerNameEquals name "Content-Length" then
        match stoll value with
        | Some v =>
            mkFileInfo v (accept_ranges info) (etag info) (last_modified info)
              (content_type info) (final_url info) (content_disposition info)
        | None => info
        end
      else if headerNameEquals name "Accept-Ranges" then
        mkFileInfo (content_length info) (negb (String.eqb value "none"))
          (etag info) (last_modified info) (content_type info)
          (final_url info) (content_disposition info)
      else if headerNameEquals name "ETag" then
        mkFileInfo (content_length info) (accept_ranges info) value
          (last_modified info) (content_type info) (final_url info)
          (content_disposition info)
      else if headerNameEquals name "Last-Modified" then
        mkFileInfo (content_length info) (accept_ranges info) (etag info)
          value (content_type info) (final_url info)
          (content_disposition info)
      else if headerNameEquals name "Content-Type" then
        mkFileInfo (content_length info) (accept_ranges info) (etag info)
          (last_modified info) value (final_url info)
          (content_disposition info)
      else if headerNameEquals name "Content-Disposition" then
        mkFileInfo (content_length info) (accept_ranges info) (etag info)
          (last_modified info) (content_type info) (final_url info) value
      else info
  end.

(** *** [fetchFileInfo] *)

(** What an [HttpError] of the probe says. *)
Inductive probe_message :=
| ProbeUnknown                        (* "Unknown error" *)
| ProbeCancelled                      (* "Request cancelled" *)
| ProbeRequestFailed (res : CURLcode) (* "Request failed: " + strerror *)
| ProbeHeadFailed (res : CURLcode)    (* "HEAD request failed: " + strerror *)
| ProbeGetFailed (res : CURLcode)     (* "GET info failed: " + strerror *)
| ProbeHttpError (http_code : Z)      (* "HTTP error " + to_string(code) *)
| ProbeException (what : string)      (* e.what() of another exception *)
| ProbeFailedToFetch.                 (* "Failed to fetch file info" *)

Record ProbeError := mkProbeError {
  probe_what  : probe_message;
  probe_curl  : CURLcode;
  probe_http  : Z;
  probe_retry : bool
}.

(** How [curl_easy_perform] ended: its code, the status, the header
    lines it passed to the callback, [CURLINFO_EFFECTIVE_URL] and
    [CURLINFO_CONTENT_LENGTH_DOWNLOAD_T]. *)
Inductive answered :=
| Answered (res : CURLcode) (http_code : Z) (lines : list string)
    (effective_url : option string) (cl : Z)
| Failed (what : string).   (* a [std::exception] other than [HttpError] *)

(** The surroundings of one pass: what [cancelled.load()] reads after
    the back-off sleep and after a failed transfer, and the transfer. *)
Record pass_env := mkPassEnv {
  cancelled_after_sleep    : bool;
  cancelled_after_transfer : bool;
  answer                   : answered
}.

Inductive request := Head | Get.

Inductive probe_event :=
| Slept (secs : Z)
| Requested (m : request) (attempt : Z).

(** How the retry loop of one method ends. *)
Inductive loop_end :=
| Return (info : FileInfo)
| Throw (e : ProbeError)
| Forbidden                       (* [got_forbidden = true; break] *)
| Exhausted (last_error : ProbeError).

Definition CURLE_WRITE_ERROR : CURLcode := CURLE_OTHER 23.

Definition is_write_error (res : CURLcode) : bool :=
  match res with CURLE_OTHER 23 => true | _ => false end.

(** The code of the transfer as the probe reads it: the abort by the
    write callback of the GET counts as no error once a status has
    arrived. *)
Definition effective_code (use_get : bool) (res : CURLcode) (http_code : Z)
  : CURLcode :=
  if use_get && is_write_error res then
    if (0 <? http_code) && (http_code <? 400) then CURLE_OK
    else if 400 <=? http_code then CURLE_OK
    else res
  else res.

(** The success branch: the headers seen, the effective URL, and the
    content length of the transfer where no header gave one. *)
Definition extract_info (lines : list string) (effective_url : option string)
    (cl : Z) : FileInfo :=
  let info := fold_left (fun i l => headHeaderCallback l i) lines no_info in
  let info1 :=
    match effective_url with
    | Some u =>
        mkFileInfo (content_length info) (accept_ranges info)
          (etag info) (last_modified info) (content_type info) u
          (content_disposition info)
    | None => info
    end in
  if (content_length info1 <? 0) && (0 <=? cl) then
    mkFileInfo cl (accept_ranges info1) (etag info1)
      (last_modified info1) (content_type info1) (final_url info1)
      (content_disposition info1)
  else info1.

(** The body of the retry loop from [reset()] on; [inr] is [continue]. *)
Definition probe_once (use_get : bool) (a : pass_env)
  : loop_end + ProbeError :=
  match answer a with
  | Failed w => inl (Throw (mkProbeError (ProbeException w) CURLE_OK 0 false))
  | Answered res0 http_code lines effective_url cl =>
      let res := effective_code use_get res0 http_code in
      if negb (is_ok res) then
        if cancelled_after_transfer a then
          inl (Throw (mkProbeError ProbeCancelled res http_code false))
        else
          let retryable := isRetryableCurlCode res in
          if isTlsCertError res then
            inl (Throw (mkProbeError (ProbeRequestFailed res) res http_code
                          false))
          else
            let last_error :=
              mkProbeError
                (if use_get then ProbeGetFailed res else ProbeHeadFailed res)
                res http_code retryable in
            if negb retryable then inl (Throw last_error) else inr last_error
      else if 400 <=? http_code then
        if negb use_get && ((http_code =? 403) || (http_code =? 405)) then
          inl Forbidden
        else
          let retryable := negb (isNonRetryableHttpStatus http_code) in
          let last_error :=
            mkProbeError (ProbeHttpError http_code) CURLE_OK http_code
              retryable in
          if negb retryable then inl (Throw last_error) else inr last_error
      else inl (Return (extract_info lines effective_url cl))
  end.

(** The [for (int attempt = 0; attempt < max_attempts; ++attempt)] loop
    of one method, [n] passes to go. *)
Fixpoint probe_loop (use_get : bool) (n : nat) (attempt : Z)
    (last_error : ProbeError) (env : bool -> Z -> pass_env)
  : list probe_event * loop_end :=
  match n with
  | O => ([], Exhausted last_error)
  | S n' =>
      let a := env use_get attempt in
      let m := if use_get then Get else Head in
      if (0 <? attempt) && cancelled_after_sleep a then
        ([Slept (backoff attempt)],
         Throw (mkProbeError ProbeCancelled CURLE_OK 0 false))
      else
        let pre := if 0 <? attempt then [Slept (backoff attempt)] else [] in
        match probe_once use_get a with
        | inl r => (pre ++ [Requested m attempt], r)
        | inr last_error' =>
            let (evs, r) :=
              probe_loop use_get n' (attempt + 1) last_error' env in
            (pre ++ Requested m attempt :: evs, r)
        end
  end.

Inductive probe_result :=
| Probed (info : FileInfo)
| ProbeThrown (e : ProbeError).

Definition unknown_error : ProbeError :=
  mkProbeError ProbeUnknown CURLE_OK 0 false.

(** What the [for (int method = 0; method < 2; ++method)] loop does
    with the end of a retry loop: [inl] leaves the function, [inr] goes
    on to the next method. *)
Definition after_loop (use_get : bool) (r : loop_end)
  : probe_result + unit :=
  match r with
  | Return info => inl (Probed info)
  | Throw e => inl (ProbeThrown e)
  | Forbidden => inr tt   (* with or without the [continue] *)
  | Exhausted last_error => inl (ProbeThrown last_error)
  end.

(** [HttpEngine::fetchFileInfo] with [config.max_retries = max_retries]. *)
Definition fetchFileInfo (max_retries : Z) (env : bool -> Z -> pass_env)
  : list probe_event * probe_result :=
  let n := Z.to_nat (max_retries + 1) in
  let (evs1, r1) := probe_loop false n 0 unknown_error env in
  match after_loop false r1 with
  | inl r => (evs1, r)
  | inr _ =>
      let (evs2, r2) := probe_loop true n 0 unknown_error env in
      match after_loop true r2 with
      | inl r => (evs1 ++ evs2, r)
      | inr _ =>
          (evs1 ++ evs2,
           ProbeThrown (mkProbeError ProbeFailedToFetch CURLE_OK 403 false))
      end
  end.

Definition is_request (m : request) (e : probe_event) : bool :=
  match e, m with
  | Requested Head _, Head | Requested Get _, Get => true
  | _, _ => false
  end.

(** The requests of a method in a run. *)
Definition requests (m : request) (evs : list probe_event) : nat :=
  length (List.filter (is_request m) evs).

(** HEAD was answered with 403 or 405. *)
Definition head_refused (a : pass_env) : Prop :=
  exists http_code lines effective_url cl,
    answer a = Answered CURLE_OK http_code lines effective_url cl /\
    (http_code = 403 \/ http_code = 405).

(** The transfer counted as a success: no error but the abort by the
    write callback of the GET, and a status below 400. *)
Definition answered_well (use_get : bool) (a : pass_env) : Prop :=
  exists res http_code lines effective_url cl,
    answer a = Answered res http_code lines effective_url cl /\
    http_code < 400 /\
    (res = CURLE_OK \/
     use_get = true /\ res = CURLE_WRITE_ERROR /\ 0 < http_code).

(** A server that answers HEAD with 405 and GET with 200 and two
    headers, the transfer then being aborted by the write callback. *)
Definition head_not_allowed (use_get : bool) (attempt : Z) : pass_env :=
  mkPassEnv false false
    (if use_get then
       Answered CURLE_WRITE_ERROR 200
         ["HTTP/1.1 200 OK"; "content-length: 1048576";
          "Accept-Ranges: bytes"; ""] None (-1)
     else Answered CURLE_OK 405 ["HTTP/1.1 405 Method Not Allowed"] None (-1)).

End Probe.

(** ** Further models: the download manager *)

Module Manager.

Import Task TaskQueue.

(** [struct ManagerConfig], its integers. *)
Record ManagerConfig := mkConfig {
  max_blocks_per_task  : Z;
  max_concurrent_tasks : Z;
  thread_pool_size     : Z;
  speed_limit          : Z
}.

(** The fields of [class DownloadManager]: the queue comes with the task
    objects it shares with [tasks_by_id_], whose values are handles;
    [next_handle_] is the next object to be allocated. *)
Record t := mk {
  config_       : ManagerConfig;
  token_bucket_ : TokenBucket.t;
  task_queue_   : world;
  tasks_by_id_  : gmap Z nat;
  next_task_id_ : Z;
  next_handle_  : nat
}.

Definition with_queue (w : world) (m : t) : t :=
  mk (config_ m) (token_bucket_ m) w (tasks_by_id_ m) (next_task_id_ m)
     (next_handle_ m).

(** [DownloadManager::DownloadManager(config)] at clock reading [now]. *)
Definition create (config : ManagerConfig) (now : Z) : t :=
  let c :=
    mkConfig (clamp (max_blocks_per_task config) 1 32)
             (clamp (max_concurrent_tasks config) 1 10)
             (if thread_pool_size config <? 1 then 16
              else thread_pool_size config)
             (if speed_limit config <? 0 then 0 else speed_limit config) in
  mk c (TokenBucket.create (speed_limit c) now)
     (mkWorld ∅ (TaskQueue.create (max_concurrent_tasks c))) ∅ 1 0.

(** [DownloadManager::findTask] *)
Definition findTask (task_id : Z) (m : t) : option nat :=
  tasks_by_id_ m !! task_id.

Definition on_found (task_id : Z)
    (f : Task.t -> Task.t * list notification) (m : t) : t :=
  match findTask task_id m with
  | Some h => with_queue (on_task h f (task_queue_ m)) m
  | None => m
  end.

(** [pauseTask], [resumeTask], [cancelTask] *)
Definition pauseTask (task_id : Z) : t -> t := on_found task_id Task.pause.
Definition resumeTask (task_id : Z) : t -> t := on_found task_id Task.resume.
Definition cancelTask (task_id : Z) : t -> t := on_found task_id Task.cancel.

(** [DownloadManager::removeTask] *)
Definition removeTask (task_id : Z) (m : t) : t :=
  let w := snd (TaskQueue.removeTask task_id (task_queue_ m)) in
  mk (config_ m) (token_bucket_ m) w (delete task_id (tasks_by_id_ m))
     (next_task_id_ m) (next_handle_ m).

(** [moveTaskUp], [moveTaskDown] *)
Definition moveTaskUp (task_id : Z) (m : t) : t :=
  with_queue (snd (TaskQueue.moveUp task_id (task_queue_ m))) m.
Definition moveTaskDown (task_id : Z) (m : t) : t :=
  with_queue (snd (TaskQueue.moveDown task_id (task_queue_ m))) m.

(** [DownloadManager::setSpeedLimit] at clock reading [now]. *)
Definition setSpeedLimit (bytes_per_sec now : Z) (m : t) : t :=
  let b := if bytes_per_sec <? 0 then 0 else bytes_per_sec in
  let c := config_ m in
  mk (mkConfig (max_blocks_per_task c) (max_concurrent_tasks c)
        (thread_pool_size c) b)
     (TokenBucket.setRate b now (token_bucket_ m))
     (task_queue_ m) (tasks_by_id_ m) (next_task_id_ m) (next_handle_ m).

(** [DownloadManager::updateConfig] *)
Definition updateConfig (config : ManagerConfig) (now : Z) (m : t) : t :=
  let c := config_ m in
  let m1 :=
    mk (mkConfig (clamp (max_blocks_per_task config) 1 32)
          (clamp (max_concurrent_tasks config) 1 10)
          (thread_pool_size c) (speed_limit c))
       (token_bucket_ m) (task_queue_ m) (tasks_by_id_ m)
       (next_task_id_ m) (next_handle_ m) in
  let m2 := setSpeedLimit (speed_limit config) now m1 in
  with_queue
    (setMaxConcurrent (max_concurrent_tasks (config_ m2)) (task_queue_ m2)) m2.

(** The scan of [addDownload] for a task with the same URL that is not
    [Completed], [Cancelled] or [Failed], through the map in the order
    of its keys, which are the ids handed out so far: [fuel] ids from
    [task_id] on.  [same_url h] stands for [info.url == url] on the task
    behind [h]. *)
Fixpoint find_duplicate (same_url : nat -> bool) (m : t) (fuel : nat)
    (task_id : Z) : option Z :=
  match fuel with
  | O => None
  | S fuel' =>
      let next := find_duplicate same_url m fuel' (task_id + 1) in
      match tasks_by_id_ m !! task_id with
      | Some h =>
          match state_of (task_queue_ m) h with
          | Some s =>
              if same_url h
                 && negb (bool_decide (s = Completed))
                 && negb (bool_decide (s = Cancelled))
                 && negb (bool_decide (s = Failed))
              then Some task_id else next
          | None => next
          end
      | None => next
      end
  end.

(** A new task object behind a new handle, under a new id, added to the
    queue. *)
Definition enrol (tk : Z -> Task.t) (m : t) : Z * t :=
  let task_id := next_task_id_ m in
  let h := next_handle_ m in
  let w := task_queue_ m in
  let w1 := mkWorld (<[h := tk task_id]> (objects w)) (queue w) in
  (task_id,
   mk (config_ m) (token_bucket_ m) (addTask h w1)
      (<[task_id := h]> (tasks_by_id_ m)) (task_id + 1) (S h)).

(** [DownloadManager::addDownload] *)
Definition addDownload (same_url : nat -> bool) (m : t) : Z * t :=
  match find_duplicate same_url m (Z.to_nat (next_task_id_ m - 1)) 1 with
  | Some task_id => (task_id, m)
  | None =>
      enrol (fun task_id =>
               Task.create task_id (max_blocks_per_task (config_ m))) m
  end.

(** [DownloadManager::recoverTasks]: the loop over the [.meta] files of
    the directory, each with what [MetaFile::load] returns for it (no
    file when there is no directory). *)
Definition recoverTasks (now : Z) (files : list (option TaskMeta)) (m : t)
  : t :=
  fold_left
    (fun m file =>
       match file with
       | Some meta => snd (enrol (fun _ => Task.fromMeta now meta) m)
       | None => m
       end) files m.

(** What happens to a manager: the calls of its interface, and the
    steps of the jobs of its tasks. *)
Inductive call :=
| AddDownload (same_url : nat -> bool)
| PauseTask (task_id : Z)
| ResumeTask (task_id : Z)
| CancelTask (task_id : Z)
| RemoveTask (task_id : Z)
| MoveTaskUp (task_id : Z)
| MoveTaskDown (task_id : Z)
| SetSpeedLimit (bytes_per_sec now : Z)
| RecoverTasks (now : Z) (files : list (option TaskMeta))
| UpdateConfig (config : ManagerConfig) (now : Z)
| Job (h : nat) (ev : Task.worker_event).

Definition call1 (m : t) (c : call) : t :=
  match c with
  | AddDownload same_url => snd (addDownload same_url m)
  | PauseTask task_id => pauseTask task_id m
  | ResumeTask task_id => resumeTask task_id m
  | CancelTask task_id => cancelTask task_id m
  | RemoveTask task_id => removeTask task_id m
  | MoveTaskUp task_id => moveTaskUp task_id m
  | MoveTaskDown task_id => moveTaskDown task_id m
  | SetSpeedLimit b now => setSpeedLimit b now m
  | RecoverTasks now files => recoverTasks now files m
  | UpdateConfig config now => updateConfig config now m
  | Job h ev => with_queue (on_task h (Task.step ev) (task_queue_ m)) m
  end.

Definition calls (cs : list call) (m : t) : t := fold_left call1 cs m.

(** The task objects carry the same ids in [w'] as in [w]. *)
Definition keeps_ids (w w' : world) : Prop :=
  forall h i, has_id (objects w') i h <-> has_id (objects w) i h.

(** The manager's books: the ids of the map are ids handed out, each
    leads to an object that carries this id or, recovered from
    metadata, the id 0; every task of the queue carries 0 or an id that
    leads back to it; no task is in the queue twice. *)
Definition consistent (m : t) : Prop :=
  let w := task_queue_ m in
  1 <= next_task_id_ m /\
  (forall h i, has_id (objects w) i h -> (h < next_handle_ m)%nat) /\
  (forall k h, tasks_by_id_ m !! k = Some h ->
     1 <= k < next_task_id_ m /\
     (has_id (objects w) k h \/ has_id (objects w) 0 h)) /\
  (forall h, h ∈ tasks_ (queue w) ->
     exists i, has_id (objects w) i h /\
               (i = 0 \/ tasks_by_id_ m !! i = Some h)) /\
  NoDup (tasks_ (queue w)).

(** A manager that has recovered the task of [MetaFile.sample_meta] and
    resumed it. *)
Definition recovered_manager : t :=
  calls [RecoverTasks 0 [Some MetaFile.sample_meta]; ResumeTask 1]
    (create (mkConfig 8 3 16 0) 0).

(** What the manager promises about its settings. *)
Definition settings_agree (m : t) : Prop :=
  let c := config_ m in
  1 <= max_blocks_per_task c <= 32 /\
  1 <= max_concurrent_tasks c <= 10 /\
  1 <= thread_pool_size c /\
  0 <= speed_limit c /\
  TokenBucket.rate_ (token_bucket_ m) = speed_limit c /\
  TokenBucket.max_tokens_ (token_bucket_ m) = speed_limit c /\
  max_concurrent_ (queue (task_queue_ m)) = max_concurrent_tasks c.

End Manager.

(** ** Further models: the logger *)

Module Logger.

Inductive LogLevel := LVL_INFO | LVL_WARN | LVL_ERROR.

Definition levelToString (level : LogLevel) : string :=
  match level with
  | LVL_INFO => "INFO"
  | LVL_WARN => "WARN"
  | LVL_ERROR => "ERROR"
  end.

(** The fields of [class Logger]: the lines written to [file_] since it
    was opened ([None]: it is not open), and [recent_logs_]. *)
Record t := mk {
  file_        : option (list string);
  recent_logs_ : list string
}.

Definition MAX_RECENT : Z := 1000.

(** The line [log] builds; [ts] is what [currentTimestamp()] returns. *)
Definition line_of (ts : string) (level : LogLevel) (message : string)
  : string :=
  String.append "["
    (String.append ts
       (String.append "] ["
          (String.append (levelToString level)
             (String.append "] " message)))).

(** [Logger::log(level, message)] *)
Definition log (ts : string) (level : LogLevel) (message : string) (lg : t)
  : t :=
  let line := line_of ts level message in
  let pushed := recent_logs_ lg ++ [line] in
  mk ((fun lines => lines ++ [line]) <$> file_ lg)
     (if MAX_RECENT <? Z.of_nat (length pushed) then tail pushed else pushed).

(** [Logger::getRecentLogs(count)]; [None]: [begin() + start] lies past
    the end, which a negative [count] brings about. *)
Definition getRecentLogs (count : Z) (lg : t) : option (list string) :=
  let n := Z.of_nat (length (recent_logs_ lg)) in
  let start := if n <=? count then 0 else n - count in
  if n <? start then None
  else Some (drop (Z.to_nat start) (recent_logs_ lg)).

(** A call of [log]: the time stamp, the level and the message. *)
Definition entry : Type := string * LogLevel * string.

Definition line_of_entry (e : entry) : string :=
  line_of (fst (fst e)) (snd (fst e)) (snd e).

Definition logs (es : list entry) (lg : t) : t :=
  fold_left (fun lg e => log (fst (fst e)) (snd (fst e)) (snd e) lg) es lg.

End Logger.

(* ===================================================================== *)
(** * Part II: theorems                                                   *)
(* ===================================================================== *)

(** ** Block splitter *)

Section BlockSplitterFacts.
Import BlockSplitter.

Variables fsize bsz actual : Z.
Hypothesis bsz_pos : 1 <= bsz.
Hypothesis fits : bsz * actual <= fsize.

(** The loop invariant: entering iteration [i] with [offset = i * bsz]
    and [n = actual - i] iterations to go. *)
Lemma split_loop_spec (n : nat) :
  forall i offset,
    Z.of_nat n = actual - i -> 0 <= i -> (0 < n)%nat -> offset = i * bsz ->
    let bs := split_loop n i offset fsize bsz actual in
    length bs = n /\ ids_from i bs /\ Forall fresh bs /\ contiguous bs /\
    (exists b0, head bs = Some b0 /\ range_start b0 = offset) /\
    (exists bl, last bs = Some bl /\ range_end bl = fsize - 1) /\
    Forall (fun b => range_start b <= range_end b) bs.
Proof using bsz_pos fits.
  induction n as [|n IH]; intros i offset Hn Hi Hpos Hoff; [lia|].
  cbn [split_loop]. cbv zeta.
  destruct (Z.ltb_spec i actual) as [Hlt|]; [|lia].
  destruct n as [|n].
  - (* the last block *)
    assert (i = actual - 1) as -> by lia.
    rewrite Z.eqb_refl. cbn.
    repeat split; try (constructor; [|constructor]); cbn; try done.
    + by eexists.
    + eexists; split; [done|cbn; lia].
    + subst offset. nia.
  - destruct (Z.eqb_spec i (actual - 1)) as [|Hne]; [lia|].
    destruct (IH (i + 1) (offset + bsz)) as (Hlen & Hids & Hfresh & Hcont & [b0 [Hb0 Hs0]] & [bl [Hbl Hel]] & Hne').
    { lia. } { lia. } { lia. } { lia. }
    set (rest := split_loop (S n) (i + 1) (offset + bsz) fsize bsz actual) in *.
    destruct rest as [|r rest'] eqn:Hrest; [discriminate|].
    cbn in Hb0. injection Hb0 as ->.
    split_and!; try done.
    + cbn. cbn in Hlen. lia.
    + constructor; [done|done].
    + cbn. split; [lia|done].
    + by eexists.
    + exists bl. split; [|done]. by rewrite last_cons, Hbl.
    + constructor; [cbn; lia|done].
Qed.

(** Every value the loop stores lies inside the file: no 64-bit
    computation of the source leaves the range of [file_size]. *)
Lemma split_loop_bounds (n : nat) :
  forall i offset,
    Z.of_nat n = actual - i -> 0 <= i -> offset = i * bsz ->
    Forall (fun b => offset <= range_start b <= range_end b /\
                     range_end b <= fsize - 1 /\
                     i <= block_id b < actual)
           (split_loop n i offset fsize bsz actual).
Proof using bsz_pos fits.
  induction n as [|n IH]; intros i offset Hn Hi Hoff; [constructor|].
  cbn [split_loop]. cbv zeta.
  destruct (Z.ltb_spec i actual) as [Hlt|]; [|lia].
  destruct (Z.eqb_spec i (actual - 1)) as [Hlast|Hne].
  - constructor.
    + cbn. subst offset i. nia.
    + destruct n; [constructor|lia].
  - constructor.
    + cbn. subst offset. nia.
    + eapply Forall_impl; [apply (IH (i + 1) (offset + bsz)); lia|].
      cbn. intros b Hb. lia.
Qed.

End BlockSplitterFacts.

Section BlockSplitterClaims.
Import BlockSplitter.

(** Every block of the loop but the last has [bsz] bytes; the last one
    takes what is left of the file. *)
Lemma split_loop_sizes (fsize bsz actual : Z) (n : nat) :
  forall i offset k b,
    Z.of_nat n = actual - i -> offset = i * bsz ->
    split_loop n i offset fsize bsz actual !! k = Some b ->
    block_len b =
      if Z.of_nat k =? actual - i - 1
      then fsize - (actual - 1) * bsz else bsz.
Proof.
  unfold block_len.
  induction n as [|n IH]; intros i offset k b Hn Hoff Hk; [done|].
  cbn [split_loop] in Hk. cbv zeta in Hk.
  destruct (Z.ltb_spec i actual) as [Hlt|]; [|lia].
  destruct k as [|k]; cbn in Hk.
  - injection Hk as <-. cbn.
    destruct (Z.eqb_spec i (actual - 1)),
             (Z.eqb_spec (Z.of_nat 0) (actual - i - 1));
      subst; lia.
  - destruct (Z.eqb_spec i (actual - 1)) as [->|Hne].
    { destruct n; [done|lia]. }
    rewrite (IH (i + 1) (offset + bsz) k b) by (done || lia).
    destruct (Z.eqb_spec (Z.of_nat k) (actual - (i + 1) - 1)),
             (Z.eqb_spec (Z.of_nat (S k)) (actual - i - 1)); lia.
Qed.

Lemma splitBlocks_cases (fsize n : Z) (supports_range : bool) :
  split_case fsize n supports_range (splitBlocks fsize n supports_range).
Proof.
  unfold splitBlocks.
  destruct (Z.leb_spec fsize 0) as [|Hsz]; [constructor; lia|].
  destruct (Z.ltb_spec n 1) as [|Hlo]; cbn [orb]; [constructor; lia|].
  destruct (Z.ltb_spec 32 n) as [|Hhi]; [constructor; lia|].
  destruct supports_range; cbn [negb orb];
    [|constructor; (lia || by left)].
  destruct (Z.ltb_spec fsize kSmallFile) as [|Hbig];
    [constructor; (lia || by right)|].
  unfold kSmallFile in Hbig.
  assert (Z.min n fsize = n) as -> by lia.
  constructor; try (unfold kSmallFile; lia); try done.
  - rewrite Z.quot_div_nonneg by lia. apply Z.div_le_lower_bound; lia.
  - rewrite Z.quot_div_nonneg by lia. rewrite Z.mul_comm.
    apply Z.mul_div_le. lia.
Qed.

(** C3. [splitBlocks] throws [InvalidArgument] exactly when
    [file_size <= 0], [num_blocks < 1] or [num_blocks > 32]; otherwise
    the blocks carry the ids 0, 1, 2, ..., have [downloaded = 0] and
    [completed = false], are contiguous, start at 0, end at
    [file_size - 1], are each non-empty, and their number [k] satisfies
    [1 <= k <= min(num_blocks, file_size)]. *)
Theorem splitBlocks_spec (fsize num_blocks : Z) (supports_range : bool) :
  match splitBlocks fsize num_blocks supports_range with
  | inl _ => fsize <= 0 \/ num_blocks < 1 \/ num_blocks > 32
  | inr bs =>
      (0 < fsize /\ 1 <= num_blocks <= 32) /\
      ids_from 0 bs /\ Forall fresh bs /\ contiguous bs /\
      (exists b0, head bs = Some b0 /\ range_start b0 = 0) /\
      (exists bl, last bs = Some bl /\ range_end bl = fsize - 1) /\
      Forall (fun b => range_start b <= range_end b) bs /\
      1 <= Z.of_nat (length bs) <= Z.min num_blocks fsize
  end.
Proof.
  destruct (splitBlocks_cases fsize num_blocks supports_range)
    as [e Hbad|Hsz Hn Hone|Hbig Hn _ Hq1 Hq].
  - done.
  - (* a single block for the whole file *)
    split_and!; try done; try lia.
    + by repeat constructor.
    + by eexists.
    + eexists; split; [done|cbn; lia].
    + constructor; [cbn; lia|constructor].
    + cbn. lia.
  - unfold kSmallFile in Hbig.
    destruct (split_loop_spec fsize (fsize ÷ num_blocks) num_blocks
                Hq1 Hq (Z.to_nat num_blocks) 0 0)
      as (Hlen & Hids & Hfresh & Hcont & Hhd & Hlast & Hne); try lia.
    split_and!; try done; lia.
Qed.

(** The blocks of a file of [file_size] bytes lie inside it and carry
    ids below 32: with [file_size] an [int64_t], so is every field. *)
Lemma splitBlocks_in_file (fsize n : Z) (supports_range : bool)
    (bs : list BlockInfo) :
  splitBlocks fsize n supports_range = inr bs ->
  Forall (fun b => 0 <= range_start b <= range_end b /\
                   range_end b <= fsize - 1 /\ 0 <= block_id b < 32) bs.
Proof.
  destruct (splitBlocks_cases fsize n supports_range)
    as [e Hbad|Hsz Hn Hone|Hbig Hn _ Hq1 Hq]; intros [= <-].
  - constructor; [cbn; lia|constructor].
  - eapply Forall_impl;
      [apply (split_loop_bounds fsize (fsize ÷ n) n Hq1 Hq (Z.to_nat n) 0 0);
       lia|].
    cbn. intros b Hb. lia.
Qed.

(** A file below 2 MiB, or a server without range support, gives one
    block for the whole file, whatever the number of blocks asked for. *)
Lemma splitBlocks_single_block (fsize n : Z) (supports_range : bool) :
  0 < fsize -> 1 <= n <= 32 ->
  supports_range = false \/ fsize < kSmallFile ->
  splitBlocks fsize n supports_range
    = inr [mkBlockInfo 0 0 (fsize - 1) 0 false].
Proof.
  intros Hsz Hn Hone.
  destruct (splitBlocks_cases fsize n supports_range)
    as [e Hbad|_ _ _|Hbig _ Hsr _ _].
  - lia.
  - done.
  - destruct Hone; [congruence|lia].
Qed.

(** From 2 MiB on, with range support, [n] blocks come back: all but the
    last hold [file_size / n] bytes, the last one the remainder as well. *)
Lemma splitBlocks_even_split (fsize n : Z) :
  kSmallFile <= fsize -> 1 <= n <= 32 ->
  exists bs,
    splitBlocks fsize n true = inr bs /\ length bs = Z.to_nat n /\
    forall k b, bs !! k = Some b ->
      block_len b =
        if Z.of_nat k =? n - 1 then fsize ÷ n + Z.rem fsize n else fsize ÷ n.
Proof.
  intros Hbig Hn.
  destruct (splitBlocks_cases fsize n true)
    as [e Hbad|Hsz _ Hone|_ _ _ Hq1 Hq].
  - unfold kSmallFile in Hbig. lia.
  - destruct Hone; [done|lia].
  - eexists. split; [reflexivity|]. split.
    + by destruct (split_loop_spec fsize (fsize ÷ n) n Hq1 Hq
                     (Z.to_nat n) 0 0) as (Hlen & _); try lia.
    + intros k b Hk.
      rewrite (split_loop_sizes fsize (fsize ÷ n) n (Z.to_nat n) 0 0 k b)
        by (done || lia).
      rewrite Z.sub_0_r.
      destruct (Z.eqb_spec (Z.of_nat k) (n - 1)); [|done].
      pose proof (Z.quot_rem' fsize n). lia.
Qed.

(** From 2 MiB on the even split is there: 4 MiB in 4 blocks gives the
    ids 0..3 with 1 MiB each, and 4 MiB + 3 bytes gives 1 MiB, 1 MiB,
    1 MiB and 1 MiB + 3 bytes, the last block absorbing the remainder. *)
Lemma splitBlocks_large_even :
  splitBlocks 4194304 4 true =
    inr [ mkBlockInfo 0 0 1048575 0 false;
          mkBlockInfo 1 1048576 2097151 0 false;
          mkBlockInfo 2 2097152 3145727 0 false;
          mkBlockInfo 3 3145728 4194303 0 false ] /\
  (exists bs, splitBlocks 4194307 4 true = inr bs /\
     map block_len bs = [1048576; 1048576; 1048576; 1048579]).
Proof. split; [done|]. eexists. split; [reflexivity|done]. Qed.

(** C2.  The code breaks the claim, and the tests of the repository
    with it: the test for small files comes before the split, so
    [splitBlocks(100, 4, true)] returns the single block [0, 99] and not
    the four blocks [0,24], [25,49], [50,74], [75,99], and
    [splitBlocks(103, 4, true)] returns the single block [0, 102] and
    not blocks of 25, 25, 25 and 28 bytes; likewise
    [splitBlocks(3, 32, true)] and [splitBlocks(10000, 32, true)], of
    which the tests expect 3 and 32 blocks. *)
Theorem splitBlocks_small_file_not_split :
  splitBlocks 100 4 true = inr [mkBlockInfo 0 0 99 0 false] /\
  splitBlocks 100 4 true <>
    inr [ mkBlockInfo 0 0 24 0 false; mkBlockInfo 1 25 49 0 false;
          mkBlockInfo 2 50 74 0 false; mkBlockInfo 3 75 99 0 false ] /\
  splitBlocks 103 4 true = inr [mkBlockInfo 0 0 102 0 false] /\
  splitBlocks 3 32 true = inr [mkBlockInfo 0 0 2 0 false] /\
  splitBlocks 10000 32 true = inr [mkBlockInfo 0 0 9999 0 false].
Proof. by split_and!. Qed.

End BlockSplitterClaims.

(** ** Token bucket *)

Section TokenBucketClaims.
Import TokenBucket.

Lemma refill_cancelled now tb : cancelled_ (refill now tb) = cancelled_ tb.
Proof. unfold refill. by repeat case_match. Qed.

Lemma refill_rate now tb : rate_ (refill now tb) = rate_ tb.
Proof. unfold refill. by repeat case_match. Qed.

(** No public operation clears the cancellation flag. *)
Lemma apply_op_cancelled tb o :
  cancelled_ tb = true -> cancelled_ (apply_op tb o) = true.
Proof.
  destruct o; cbn; intros H; [by rewrite refill_cancelled|done|].
  repeat case_match; cbn; by rewrite ?refill_cancelled.
Qed.

Lemma interfere_cancelled ops : forall tb,
  cancelled_ tb = true -> cancelled_ (interfere ops tb) = true.
Proof.
  unfold interfere.
  induction ops as [|o ops IH]; intros tb H; cbn; [done|].
  by apply IH, apply_op_cancelled.
Qed.

Lemma interfere_cancel_seen ops : forall tb,
  In OpCancel ops -> cancelled_ (interfere ops tb) = true.
Proof.
  unfold interfere.
  induction ops as [|o ops IH]; intros tb Hin; cbn in Hin; [done|].
  destruct Hin as [->|Hin]; cbn.
  - by apply (interfere_cancelled ops).
  - by apply IH.
Qed.

(** The loop gives up at its first test once the flag is set. *)
Lemma acquire_loop_cancelled sched tb n :
  cancelled_ tb = true -> acquire_loop sched tb n = (Some 0, tb).
Proof. intros H. destruct sched; cbn; by rewrite H. Qed.

(** The bucket at work, rate 1000: [acquire(1000)] drains the full
    bucket at once; [acquire(100)] then finds 50 tokens after 50 ms and
    goes on waiting, and is served after 100 ms. *)
Lemma acquire_refill_scenario :
  let drained := snd (acquire [mkWake 0 []] (create 1000 0) 1000) in
  fst (acquire [mkWake 0 []] (create 1000 0) 1000) = Some 1000 /\
  tokens_ drained = 0 /\
  fst (acquire [mkWake 50000 []] drained 100) = None /\
  fst (acquire [mkWake 50000 []; mkWake 100000 []] drained 100) = Some 100.
Proof. by vm_compute. Qed.

(** C9, as stated, fails for [rate == 0]: a bucket without rate limit
    passes [acquire(100)] through after [cancel()]. *)
Lemma acquire_after_cancel_rate0_passes :
  fst (acquire [] (cancel (create 0 0)) 100) = Some 100 /\
  fst (acquire [] (cancel (create 0 0)) 100) <> Some 0.
Proof. by vm_compute. Qed.

(** C9, amended.  For [n > 0]: after [cancel()] every later [acquire(n)]
    on a bucket whose rate is not 0 returns 0; a caller blocked in the
    wait when [cancel()] arrives returns 0 on waking up, unless the rate
    was set to 0 meanwhile; and with rate 0 [acquire(n)] returns [n],
    cancelled or not. *)
Theorem acquire_cancelled (n : Z) (Hn : 0 < n) :
  (forall sched tb,
      cancelled_ tb = true -> rate_ tb <> 0 ->
      fst (acquire sched tb n) = Some 0) /\
  (forall w rest tb,
      cancelled_ tb = false -> rate_ tb <> 0 ->
      tokens_ (refill (wake_now w) tb) < n ->
      In OpCancel (wake_others w) ->
      rate_ (interfere (wake_others w) (refill (wake_now w) tb)) <> 0 ->
      fst (acquire (w :: rest) tb n) = Some 0) /\
  (forall sched tb, rate_ tb = 0 -> fst (acquire sched tb n) = Some n).
Proof.
  split_and!.
  - intros sched tb Hc Hr. unfold acquire.
    destruct (Z.leb_spec n 0); [lia|].
    destruct (Z.eqb_spec (rate_ tb) 0); [done|].
    by rewrite acquire_loop_cancelled.
  - intros w rest tb Hc Hr Hshort Hin Hr'. unfold acquire.
    destruct (Z.leb_spec n 0); [lia|].
    destruct (Z.eqb_spec (rate_ tb) 0); [done|].
    cbn [acquire_loop]. rewrite Hc. cbv zeta.
    destruct (Z.leb_spec n (tokens_ (refill (wake_now w) tb))); [lia|].
    destruct (Z.eqb_spec (rate_ (interfere (wake_others w)
                                   (refill (wake_now w) tb))) 0); [done|].
    rewrite acquire_loop_cancelled; [done|].
    by apply interfere_cancel_seen.
  - intros sched tb Hr. unfold acquire.
    destruct (Z.leb_spec n 0); [lia|].
    by rewrite Hr.
Qed.

(** The amended C9 at work: rate 1000, a full bucket drained by
    [acquire(1000)], then [acquire(100)] blocked and woken by
    [cancel()]; and [acquire(100)] on a cancelled bucket of rate 1000. *)
Lemma acquire_cancelled_witness :
  fst (acquire [] (cancel (create 1000 0)) 100) = Some 0 /\
  fst (acquire [mkWake 0 [OpCancel]]
         (snd (acquire [mkWake 0 []] (create 1000 0) 1000)) 100) = Some 0.
Proof.
  destruct (acquire_cancelled 100 ltac:(lia)) as (Hfuture & Hblocked & _).
  split.
  - apply Hfuture; [reflexivity|vm_compute; discriminate].
  - apply Hblocked.
    + reflexivity.
    + vm_compute; discriminate.
    + vm_compute; reflexivity.
    + left; reflexivity.
    + vm_compute; discriminate.
Defined.

End TokenBucketClaims.

(** ** Signs of [double] values *)

Section DblFacts.
Import Dbl.

Lemma binary_round_aux_signed prec emax sx mx ex lx :
  signed sx (binary_round_aux prec emax sx mx ex lx).
Proof.
  unfold binary_round_aux, signed.
  destruct (shr_fexp prec emax mx ex lx) as [mrs' e'].
  destruct (shr_fexp prec emax _ e' loc_Exact) as [mrs'' e''].
  destruct (shr_m mrs''); [by right|..|by left].
  destruct (_ <=? _); by right.
Qed.

Lemma binary_normalize_signed prec emax (z : Z) :
  0 <= z -> signed false (binary_normalize prec emax z 0 false).
Proof.
  intros Hz. destruct z as [|p|p]; [by right| |lia].
  unfold binary_normalize, binary_round.
  destruct (shl_align _ _ _). apply binary_round_aux_signed.
Qed.

Lemma SFopp_signed s x : signed s x -> signed (negb s) (SFopp x).
Proof.
  intros [->|H]; [by left|].
  destruct x; try done; right; cbn in *; congruence.
Qed.

Lemma of_int64_signed (z : Z) :
  signed (z <? 0) (Prim2SF (Dbl.of_int64 z)).
Proof.
  unfold Dbl.of_int64. destruct (z <? 0).
  - rewrite FloatAxioms.opp_spec. apply (SFopp_signed false).
    rewrite FloatAxioms.of_uint63_spec. apply binary_normalize_signed.
    pose proof (Uint63.to_Z_bounded (Uint63.of_Z (- z))). lia.
  - rewrite FloatAxioms.of_uint63_spec. apply binary_normalize_signed.
    pose proof (Uint63.to_Z_bounded (Uint63.of_Z z)). lia.
Qed.

Lemma SFdiv_signed prec emax sx sy x y :
  signed sx x -> signed sy y ->
  signed (xorb sx sy) (SFdiv prec emax x y).
Proof.
  intros [->|Hx] [->|Hy]; try (by left); [by destruct x; left|].
  destruct x as [s1|s1| |s1 m1 e1], y as [s2|s2| |s2 m2 e2];
    cbn in Hx, Hy; simplify_eq; try (by left); try (by right).
  unfold SFdiv. destruct (SFdiv_core_binary _ _ _ _ _ _) as [[mz ez] lz].
  apply binary_round_aux_signed.
Qed.

Lemma positive_signed (f : float) :
  PrimFloat.ltb 0%float f = true -> signed false (Prim2SF f).
Proof.
  rewrite FloatAxioms.ltb_spec. change (Prim2SF 0%float) with (S754_zero false).
  unfold SFltb, SFcompare. right.
  destruct (Prim2SF f) as [s|[]| |[] m e]; try done.
Qed.

Lemma trunc_signed (s : bool) (f : float) (v : Z) :
  signed s (Prim2SF f) -> Dbl.trunc f = Some v ->
  if s then v <= 0 else 0 <= v.
Proof.
  unfold Dbl.trunc. intros [H|H]; rewrite ?H; [done|].
  destruct (Prim2SF f) as [s'|s'| |s' m e]; cbn in H; simplify_eq; try done.
  - intros [= <-]. by destruct s.
  - intros [= <-].
    assert (0 <= (if 0 <=? e then Z.pos m * 2 ^ e
                  else Z.pos m ÷ 2 ^ (- e))) as Hv.
    { destruct (Z.leb_spec 0 e).
      - apply Z.mul_nonneg_nonneg; [lia|]. by apply Z.pow_nonneg.
      - apply Z.quot_pos; [lia|]. apply Z.pow_pos_nonneg; lia. }
    destruct s; lia.
Qed.

End DblFacts.

(** ** Progress monitor *)

Section ProgressMonitorClaims.
Import ProgressMonitor.

(** With a known total the ETA is [remaining / speed]: 8000 bytes left at
    1000 bytes per second are 8 seconds. *)
Lemma snapshot_known_total_eta :
  let info := fst (snapshot 1000000000 (two_samples 10000)) in
  speed_bytes_per_sec info = 1000%float /\ remaining_seconds info = 8.
Proof. vm_compute. done. Qed.

(** A monitor without two samples in its window reports speed 0 and
    ETA -1. *)
Lemma snapshot_initial (now total : Z) :
  let info := fst (snapshot now (create total)) in
  speed_bytes_per_sec info = 0%float /\ remaining_seconds info = -1.
Proof. done. Qed.

(** C8, as stated, fails when the total is unknown (0, as [Task] passes
    it) and the speed is positive: the snapshot divides
    [0 - downloaded_bytes] by the speed and returns -2, not -1. *)
Lemma snapshot_unknown_total_eta :
  let info := fst (snapshot 1000000000 (two_samples 0)) in
  total_bytes info = 0 /\ downloaded_bytes info = 2000 /\
  speed_bytes_per_sec info = 1000%float /\
  remaining_seconds info = -2 /\ remaining_seconds info <> -1.
Proof. vm_compute. by split_and!. Qed.

(** The conversions give the integer part whenever the target type
    holds it. *)
Lemma to_int_fits (f : float) (q : Z) :
  Dbl.trunc f = Some q -> in_int q -> Dbl.to_int f = q.
Proof.
  unfold Dbl.to_int, in_int. intros -> [Hlo Hhi].
  destruct (Z.leb_spec INT_MIN q); [|lia].
  destruct (Z.leb_spec q INT_MAX); [done|lia].
Qed.

(** The quotient the snapshot converts, on the fields it returns. *)
Lemma snapshot_remaining (now : Z) (pm : t) :
  let info := fst (snapshot now pm) in
  remaining_seconds info =
    if PrimFloat.ltb 0%float (speed_bytes_per_sec info)
    then Dbl.to_int
           (PrimFloat.div
              (Dbl.of_int64 (total_bytes info - downloaded_bytes info))
              (speed_bytes_per_sec info))
    else -1.
Proof. done. Qed.

(** A quotient that no [int] holds: 4 999 999 998 seconds are left at
    one byte per second, and the conversion gives the smallest [int]. *)
Lemma snapshot_eta_out_of_range :
  let info := fst (snapshot 1000000000 one_byte_per_second) in
  speed_bytes_per_sec info = 1%float /\
  total_bytes info - downloaded_bytes info = 4999999998 /\
  remaining_seconds info = INT_MIN.
Proof. vm_compute. done. Qed.

(** C8, amended.  Whenever the speed of a snapshot is positive,
    [remaining_seconds] is the quotient
    [(total_bytes - downloaded_bytes) / speed] truncated toward zero,
    for every quotient whose integer part an [int] holds, whether the
    total is known or not: it is then not negative as long as no more
    than the total was downloaded, and not positive when more than the
    total was (as for the total 0 of a download of unknown size).
    Whenever the speed is not positive it is -1; and the speed is 0,
    and the ETA -1, whenever the window of five seconds before the
    snapshot holds fewer than two samples. *)
Theorem snapshot_eta_spec (now : Z) (pm : t) :
  let info := fst (snapshot now pm) in
  let window := trim (now - WINDOW_SIZE_SEC * 1000000000) (samples_ pm) in
  (PrimFloat.ltb 0%float (speed_bytes_per_sec info) = true ->
   forall q,
     Dbl.trunc (PrimFloat.div
                  (Dbl.of_int64 (total_bytes_ pm - downloaded_bytes_ pm))
                  (speed_bytes_per_sec info)) = Some q ->
     in_int q ->
     remaining_seconds info = q /\
     (downloaded_bytes_ pm <= total_bytes_ pm -> 0 <= q) /\
     (total_bytes_ pm < downloaded_bytes_ pm -> q <= 0)) /\
  (PrimFloat.ltb 0%float (speed_bytes_per_sec info) = false ->
   remaining_seconds info = -1) /\
  ((length window < 2)%nat ->
   speed_bytes_per_sec info = 0%float /\ remaining_seconds info = -1).
Proof.
  cbn zeta. split_and!.
  - intros Hpos q Hq Hfit.
    pose proof (SFdiv_signed prec emax _ _ _ _
                  (of_int64_signed (total_bytes_ pm - downloaded_bytes_ pm))
                  (positive_signed _ Hpos)) as Hs.
    rewrite <- FloatAxioms.div_spec, xorb_false_r in Hs.
    pose proof (trunc_signed _ _ _ Hs Hq) as Hsign.
    split_and!.
    + rewrite snapshot_remaining. cbv zeta. rewrite Hpos.
      by apply to_int_fits.
    + intros Hle.
      destruct (Z.ltb_spec (total_bytes_ pm - downloaded_bytes_ pm) 0);
        [lia|done].
    + intros Hlt.
      destruct (Z.ltb_spec (total_bytes_ pm - downloaded_bytes_ pm) 0);
        [done|lia].
  - intros Hneg. rewrite snapshot_remaining. cbv zeta. by rewrite Hneg.
  - unfold snapshot.
    cbn [fst snd samples_ speed_bytes_per_sec remaining_seconds].
    destruct (trim _ (samples_ pm)) as [|oldest [|second rest]]; cbn [length].
    + done.
    + done.
    + lia.
Qed.

End ProgressMonitorClaims.

(** ** HTTP retry loop *)

Section HttpEngineClaims.
Import HttpEngine.

Lemma backoff_spec_sleep (attempt : Z) :
  1 <= attempt -> backoff attempt = spec_sleep attempt.
Proof.
  intros H. unfold backoff, spec_sleep, kRetryBackoffSec. cbn [length].
  destruct (Z.eqb_spec attempt 1) as [->|]; [done|].
  destruct (Z.eqb_spec attempt 2) as [->|]; [done|].
  replace (Z.min (attempt - 1) (Z.of_nat 3 - 1)) with 2 by lia. done.
Qed.

Lemma attempts_app (l1 l2 : list event) :
  attempts (l1 ++ l2) = (attempts l1 + attempts l2)%nat.
Proof. unfold attempts. by rewrite filter_app, length_app. Qed.

(** The events before the transfer of a pass are those the specification
    lists. *)
Lemma pass_prefix (attempt : Z) :
  0 <= attempt ->
  (if 0 <? attempt
   then [EvCheck false; EvSleep (backoff attempt); EvCheck false]
   else [EvCheck false]) ++ [EvPerform attempt] = spec_pass attempt.
Proof.
  intros H. unfold spec_pass.
  destruct (Z.ltb_spec 0 attempt), (Z.eqb_spec attempt 0); try lia; [|done].
  by rewrite backoff_spec_sleep by lia.
Qed.

Lemma classify_retry (a : attempt_env) (e : HttpError) :
  classify (cancel_in_transfer a) (outcome a) = inr e ->
  transient (outcome a) = true /\ fatal a = false.
Proof.
  unfold classify, transient, fatal.
  destruct (outcome a) as [res http|w]; [|done].
  destruct (is_ok res) eqn:Hok; cbn [negb].
  - destruct (Z.leb_spec 400 http) as [H4|]; [|done].
    unfold isNonRetryableHttpStatus.
    destruct (Z.leb_spec 400 http); [|lia]. cbn [andb].
    destruct (Z.ltb_spec http 500); cbn [negb]; [done|].
    intros _. destruct (Z.leb_spec 500 http); [|lia].
    destruct res; try done.
  - destruct (cancel_in_transfer a); [done|].
    destruct (isTlsCertError res) eqn:Htls; [done|].
    destruct (isRetryableCurlCode res); cbn [negb]; [|done].
    intros _. done.
Qed.

Lemma classify_fatal (a : attempt_env) (r : result) :
  classify (cancel_in_transfer a) (outcome a) = inl r -> fatal a = true ->
  exists e, r = Thrown e /\ isRetryable e = false.
Proof.
  unfold classify, fatal.
  destruct (outcome a) as [res http|w]; [|done].
  destruct (is_ok res) eqn:Hok; cbn [negb andb orb].
  - destruct (Z.leb_spec 400 http) as [H4|H4].
    + destruct (isNonRetryableHttpStatus http) eqn:H; cbn [negb].
      * intros [= <-] _. by eexists.
      * destruct res; done.
    + unfold isNonRetryableHttpStatus.
      destruct (Z.leb_spec 400 http); [lia|]. destruct res; done.
  - destruct (cancel_in_transfer a).
    + intros [= <-] _. by eexists.
    + destruct (isTlsCertError res).
      * intros [= <-] _. by eexists.
      * done.
Qed.

(** One pass of the loop, the flag worked out: [reset()] stores false
    over whatever a [cancel()] after the last check has stored, so the
    flag that the pass reads after its transfer, and hands to the next
    pass, is set by a [cancel()] during the transfer only. *)
Lemma download_loop_pass (n : nat) (attempt : Z) (cancelled : bool)
    (last_error : HttpError) (env : Z -> attempt_env) :
  download_loop (S n) attempt cancelled last_error env =
    let a := env attempt in
    if cancelled || cancel_before a then
      ([EvCheck true], Thrown cancelled_error)
    else if (0 <? attempt) && cancel_in_sleep a then
      ([EvCheck false; EvSleep (backoff attempt); EvCheck true],
       Thrown cancelled_error)
    else
      let pre :=
        if 0 <? attempt
        then [EvCheck false; EvSleep (backoff attempt); EvCheck false]
        else [EvCheck false] in
      match classify (cancel_in_transfer a) (outcome a) with
      | inl r => (pre ++ [EvPerform attempt], r)
      | inr last_error' =>
          let (evs, r) :=
            download_loop n (attempt + 1) (cancel_in_transfer a)
              last_error' env in
          (pre ++ EvPerform attempt :: evs, r)
      end.
Proof.
  cbn [download_loop]. cbv zeta. unfold HttpEngine.cancel, reset.
  destruct (cancelled || cancel_before (env attempt)); [done|].
  by destruct (0 <? attempt).
Qed.

(** The loop invariant: from pass [attempt] on, with [n] passes left. *)
Lemma download_loop_spec (env : Z -> attempt_env) (n : nat) :
  forall attempt cancelled last_error,
    0 <= attempt ->
    exists (k : nat) (tail : list event),
      fst (download_loop n attempt cancelled last_error env)
        = spec_passes k attempt ++ tail /\
      spec_tail (attempt + Z.of_nat k) tail /\
      (k <= n)%nat /\
      attempts (fst (download_loop n attempt cancelled last_error env)) = k /\
      (forall j, 0 <= j < Z.of_nat k - 1 ->
         transient (outcome (env (attempt + j))) = true) /\
      (forall j, 0 <= j < Z.of_nat k -> fatal (env (attempt + j)) = true ->
         j = Z.of_nat k - 1 /\
         exists e, snd (download_loop n attempt cancelled last_error env)
                     = Thrown e /\ isRetryable e = false) /\
      (tail <> [] ->
         snd (download_loop n attempt cancelled last_error env)
           = Thrown cancelled_error).
Proof.
  induction n as [|n IH]; intros attempt cancelled last_error Hat.
  { exists 0%nat, []. cbn. split_and!; try done; try lia. by left. }
  rewrite download_loop_pass. cbv zeta.
  destruct (cancelled || cancel_before (env attempt)) eqn:Hc.
  { exists 0%nat, [EvCheck true]. cbn.
    split_and!; try done; try lia. right; by left. }
  destruct ((0 <? attempt) && cancel_in_sleep (env attempt)) eqn:Hs.
  { apply andb_true_iff in Hs as [Hpos%Z.ltb_lt _].
    exists 0%nat, [EvCheck false; EvSleep (backoff attempt); EvCheck true].
    cbn [fst snd spec_passes app]. split_and!; try done; try lia.
    right; right. rewrite Z.add_0_r, backoff_spec_sleep by lia. done. }
  set (pre := if 0 <? attempt then _ else _).
  assert (Hpre : pre ++ [EvPerform attempt] = spec_pass attempt)
    by (by apply pass_prefix).
  assert (Hpre_att : attempts pre = 0%nat).
  { unfold pre. by destruct (0 <? attempt). }
  destruct (classify (cancel_in_transfer (env attempt))
              (outcome (env attempt))) as [r|last_error'] eqn:Hcl.
  - (* the function is left in this pass *)
    exists 1%nat, []. cbn [fst snd spec_passes].
    rewrite !app_nil_r, Hpre. split_and!; try done.
    + by left.
    + lia.
    + rewrite <- Hpre, attempts_app, Hpre_att. done.
    + intros j Hj. lia.
    + intros j Hj Hf. assert (j = 0) as -> by lia.
      rewrite Z.add_0_r in Hf. split; [lia|]. by eapply classify_fatal.
  - (* [continue] *)
    destruct (classify_retry _ _ Hcl) as [Htr Hnf].
    destruct (IH (attempt + 1) (cancel_in_transfer (env attempt))
                last_error' ltac:(lia))
      as (k & tail & Hevs & Htail & Hk & Hatt & Htrans & Hfatal & Hcan).
    destruct (download_loop n (attempt + 1)
                (cancel_in_transfer (env attempt)) last_error' env)
      as [evs r] eqn:Hrun.
    cbn [fst snd] in *.
    exists (S k), tail. cbn [spec_passes].
    split_and!.
    + rewrite <- Hpre, Hevs, <- !app_assoc. done.
    + by replace (attempt + Z.of_nat (S k)) with (attempt + 1 + Z.of_nat k) by lia.
    + lia.
    + change (pre ++ EvPerform attempt :: evs)
        with (pre ++ [EvPerform attempt] ++ evs).
      rewrite !attempts_app, Hpre_att, Hatt. done.
    + intros j Hj. destruct (Z.eq_dec j 0) as [->|Hne].
      * by rewrite Z.add_0_r.
      * replace (attempt + j) with (attempt + 1 + (j - 1)) by lia.
        apply Htrans. lia.
    + intros j Hj Hf. destruct (Z.eq_dec j 0) as [->|Hne].
      * rewrite Z.add_0_r in Hf. congruence.
      * replace (attempt + j) with (attempt + 1 + (j - 1)) in Hf by lia.
        destruct (Hfatal (j - 1) ltac:(lia) Hf) as [Hj' He].
        split; [lia|done].
    + done.
Qed.

(** A server that times out every time: five transfers for
    [max_retries = 4], with sleeps of 1, 2, 4 and 4 seconds, and the last
    error thrown in the end. *)
Lemma download_timeouts_trace :
  download 4 false (always (Performed CURLE_OPERATION_TIMEDOUT 0)) =
    ([EvCheck false; EvPerform 0;
      EvCheck false; EvSleep 1; EvCheck false; EvPerform 1;
      EvCheck false; EvSleep 2; EvCheck false; EvPerform 2;
      EvCheck false; EvSleep 4; EvCheck false; EvPerform 3;
      EvCheck false; EvSleep 4; EvCheck false; EvPerform 4],
     Thrown (mkHttpError (MsgDownloadFailed CURLE_OPERATION_TIMEDOUT)
               CURLE_OPERATION_TIMEDOUT 0 true)).
Proof. reflexivity. Qed.

(** HTTP 404 ends the download after one transfer. *)
Lemma download_404_fails_at_once :
  download 3 false (always (Performed CURLE_OK 404)) =
    ([EvCheck false; EvPerform 0],
     Thrown (mkHttpError (MsgHttpError 404) CURLE_OK 404 false)).
Proof. reflexivity. Qed.

(** An engine cancelled before the call makes no transfer. *)
Lemma download_cancelled_before (max_retries : Z) (env : Z -> attempt_env) :
  0 <= max_retries ->
  download max_retries true env = ([EvCheck true], Thrown cancelled_error).
Proof.
  intros H. unfold download.
  destruct (Z.to_nat (max_retries + 1)) eqn:Hn; [lia|done].
Qed.

(** The retry policy of the loop, over every environment of transfer
    outcomes and [cancel()] calls.  [HttpEngine::download] makes at most
    [max_retries + 1] transfers (none when [max_retries < 0]).  The flag
    is checked before each transfer; from the second transfer on the
    check is followed by a sleep of 1 s (second), 2 s (third), 4 s
    (every later transfer) and a check after the sleep.  A transfer is
    followed by another one only when it failed with a transient libcurl
    code or with an HTTP status from 500 on; HTTP 4xx, a TLS certificate
    failure or a failed transfer with the flag set ends the download
    with a non-retryable error and no further transfer; and a check that
    sees the flag ends it with the cancellation error. *)
Lemma download_retry_policy
    (max_retries : Z) (cancelled : bool) (env : Z -> attempt_env) :
  exists (k : nat) (tail : list event),
    fst (download max_retries cancelled env) = spec_passes k 0 ++ tail /\
    spec_tail (Z.of_nat k) tail /\
    (k <= Z.to_nat (max_retries + 1))%nat /\
    attempts (fst (download max_retries cancelled env)) = k /\
    (forall j, 0 <= j < Z.of_nat k - 1 ->
       transient (outcome (env j)) = true) /\
    (forall j, 0 <= j < Z.of_nat k -> fatal (env j) = true ->
       j = Z.of_nat k - 1 /\
       exists e, snd (download max_retries cancelled env) = Thrown e /\
                 isRetryable e = false) /\
    (tail <> [] ->
       snd (download max_retries cancelled env) = Thrown cancelled_error).
Proof.
  unfold download.
  destruct (download_loop_spec env (Z.to_nat (max_retries + 1)) 0 cancelled
              (mkHttpError MsgUnknown CURLE_OK 0 false) ltac:(lia))
    as (k & tail & H).
  exists k, tail. by rewrite !Z.add_0_l in H.
Qed.

(** A [cancel()] that arrives between the last check of a pass and its
    [reset()] changes nothing in the run, whatever the run. *)
Lemma reset_drops_cancel (env env' : Z -> attempt_env) (n : nat) :
  same_but_lost_cancels env env' ->
  forall attempt cancelled last_error,
    download_loop n attempt cancelled last_error env
    = download_loop n attempt cancelled last_error env'.
Proof.
  intros Hsame. induction n as [|n IH]; intros attempt cancelled last_error;
    [done|].
  rewrite !download_loop_pass. cbv zeta.
  destruct (Hsame attempt) as (H1 & H2 & H3 & H4).
  rewrite H1, H2, H3, H4.
  repeat case_match; try done; congruence.
Qed.

(** The same [cancel()] made before the check is seen by it: no
    transfer is made. *)
Lemma download_sees_cancel_at_check (p : performed) :
  download 3 false (fun _ => mkAttempt true false false false p) =
    ([EvCheck true], Thrown cancelled_error).
Proof. reflexivity. Qed.

(** C6.  The code breaks the claim on a [cancel()] that another thread
    makes right after the check that opens a pass: [reset()] then
    stores false over the flag, the call is lost, and the download goes
    on as if nobody had cancelled.  With [max_retries = 3]: a server
    that answers 200 is downloaded from and [download] returns; after
    an answer 503, and after a timeout, the download sleeps a second,
    makes a second transfer and returns. *)
Theorem download_loses_cancel :
  cancel_before_reset
    (cancel_after_first_check (Performed CURLE_OK 200) 0) = true /\
  download 3 false (cancel_after_first_check (Performed CURLE_OK 200)) =
    ([EvCheck false; EvPerform 0], Returned) /\
  download 3 false (cancel_after_first_check (Performed CURLE_OK 503)) =
    ([EvCheck false; EvPerform 0;
      EvCheck false; EvSleep 1; EvCheck false; EvPerform 1], Returned) /\
  download 3 false
    (cancel_after_first_check (Performed CURLE_OPERATION_TIMEDOUT 0)) =
    ([EvCheck false; EvPerform 0;
      EvCheck false; EvSleep 1; EvCheck false; EvPerform 1], Returned).
Proof. by split_and!. Qed.

End HttpEngineClaims.

(** ** Metadata store *)

Section MetaFileClaims.
Import MetaFile MetaStore.









End MetaFileClaims.

(** ** Task state machine *)

Section TaskClaims.
Import Task.

(** [start], [pause], [resume] and [cancel] store the new state before
    they call [setState], which then finds nothing changed: none of them
    invokes the state-change callback. *)
Lemma start_silent (tk : t) : snd (start tk) = [].
Proof. unfold start, setState. repeat case_decide; done. Qed.

Lemma pause_silent (tk : t) : snd (pause tk) = [].
Proof. unfold pause, setState. repeat case_decide; done. Qed.

Lemma resume_silent (tk : t) : snd (resume tk) = [].
Proof. unfold resume, setState. repeat case_decide; done. Qed.

Lemma cancel_silent (tk : t) : snd (cancel tk) = [].
Proof. unfold cancel, setState. cbn. by case_decide. Qed.

(** [Cancelled] is absorbing for the operations of a task. *)
Lemma cancelled_absorbing (o : operation) (tk : t) :
  state_ tk = Cancelled -> state_ (fst (apply o tk)) = Cancelled.
Proof.
  intros H. destruct o; cbn.
  - unfold start. rewrite H. by case_decide.
  - unfold pause. rewrite H. by case_decide.
  - unfold resume. rewrite H. by repeat case_decide.
  - done.
  - unfold onBlockProgress. by case_decide.
Qed.

(** [Completed] survives every operation but [cancel]. *)
Lemma completed_kept_unless_cancel (o : operation) (tk : t) :
  o <> OpCancel -> state_ tk = Completed ->
  state_ (fst (apply o tk)) = Completed.
Proof.
  intros Ho H. destruct o; cbn; try done.
  - unfold start. rewrite H. by case_decide.
  - unfold pause. rewrite H. by case_decide.
  - unfold resume. rewrite H. by repeat case_decide.
  - unfold onBlockProgress. rewrite H. case_decide; [done|].
    cbn. rewrite H. rewrite bool_decide_eq_false_2 by done.
    by rewrite andb_false_r.
Qed.

(** C4 fails on the code: [cancel()] on a task that has completed stores
    [Cancelled] and removes the downloaded file, without a callback. *)
Theorem cancel_regresses_completed :
  state_ downloading_task = Downloading /\
  state_ completed_task = Completed /\
  file_on_disk_ completed_task = true /\
  state_ (fst (apply OpCancel completed_task)) = Cancelled /\
  file_on_disk_ (fst (apply OpCancel completed_task)) = false /\
  snd (apply OpCancel completed_task) = [].
Proof. by vm_compute. Qed.

(** The job of [start] leaves [Cancelled] as well: a task cancelled while
    its probe is in flight turns [Failed] when the probe fails. *)
Lemma start_job_regresses_cancelled :
  let cancelled := fst (cancel (fst (start (create 1 8)))) in
  state_ cancelled = Cancelled /\
  state_ (fst (step (StartJobThrew http_404) cancelled)) = Failed.
Proof. by vm_compute. Qed.

(** *** Block failures *)

Lemma incomplete_not_all_done (i : nat) (tk : t) :
  incomplete i tk -> all_done tk = false.
Proof.
  intros (b & Hb & Hc). unfold all_done.
  apply not_true_is_false. intros Hall.
  rewrite forallb_forall in Hall.
  specialize (Hall b (proj1 (list_elem_of_In _ _) (list_elem_of_lookup_2 _ _ _ Hb))).
  congruence.
Qed.

Lemma onBlockProgress_incomplete (i : nat) now actual delta (tk : t) :
  incomplete i tk ->
  let r := onBlockProgress now actual delta tk in
  state_ (fst r) = state_ tk /\ error_message_ (fst r) = error_message_ tk /\
  blocks_ (fst r) = blocks_ tk /\ snd r = [].
Proof.
  intros Hi. unfold onBlockProgress. case_decide; [done|].
  cbn [with_progress blocks_ state_].
  assert (all_done (with_progress
            (ProgressMonitor.addBytes now delta <$> progress_ tk) tk) = false)
    as -> by (by apply (incomplete_not_all_done i)).
  done.
Qed.

Lemma incomplete_alter (i j : nat) (f : Block -> Block) (tk : t) :
  (forall b, completed (info_ (f b)) = completed (info_ b)) \/ j <> i ->
  incomplete i tk -> incomplete i (update_block j f tk).
Proof.
  intros Hf (b & Hb & Hc). unfold incomplete, update_block. cbn.
  destruct (decide (j = i)) as [->|Hne].
  - destruct Hf as [Hf|]; [|done].
    exists (f b). rewrite list_lookup_alter_eq, Hb. cbn. by rewrite Hf.
  - exists b. by rewrite list_lookup_alter_ne.
Qed.

(** While block [i] has not completed, no block event changes the state
    or the error message of the task, and none invokes the callback. *)
Lemma step_spares (i : nat) (ev : worker_event) (tk : t) :
  spares i ev -> incomplete i tk ->
  state_ (fst (step ev tk)) = state_ tk /\
  error_message_ (fst (step ev tk)) = error_message_ tk /\
  incomplete i (fst (step ev tk)) /\ snd (step ev tk) = [].
Proof.
  intros Hev Hi.
  destruct ev as [j|j written now actual|j now actual|j e|cl ar|e|e];
    cbn [step]; try done.
  - destruct (blocks_ tk !! j) as [b|] eqn:Hb; [|done].
    destruct (completed (info_ b)); [done|]. cbn.
    split_and!; try done. apply incomplete_alter; [|done]. by left.
  - destruct (blocks_ tk !! j) as [b|] eqn:Hb; [|done].
    destruct (paused_ b); [done|].
    assert (Hi' : incomplete i (update_block j (add_downloaded written) tk)).
    { apply incomplete_alter; [|done]. by left. }
    destruct (onBlockProgress_incomplete i now actual written _ Hi')
      as (Hs & He & Hbl & Hn).
    split_and!; try done.
    destruct Hi' as (b' & Hb' & Hc'). exists b'. by rewrite Hbl.
  - cbn in Hev.
    destruct (blocks_ tk !! j) as [b|] eqn:Hb; [|done].
    destruct (paused_ b); [done|].
    assert (Hi' : incomplete i (update_block j set_completed tk)).
    { apply incomplete_alter; [|done]. by right. }
    destruct (onBlockProgress_incomplete i now actual 0 _ Hi')
      as (Hs & He & Hbl & Hn).
    split_and!; try done.
    destruct Hi' as (b' & Hb' & Hc'). exists b'. by rewrite Hbl.
Qed.

(** A block whose download throws never completes, and the task stays as
    it was through all the events of the other blocks: a [Downloading]
    task stays [Downloading], its error message unset. *)
Lemma failed_block_never_reported (i : nat) (evs : list worker_event) :
  forall tk,
    Forall (spares i) evs -> incomplete i tk ->
    state_ (fst (run evs tk)) = state_ tk /\
    error_message_ (fst (run evs tk)) = error_message_ tk /\
    snd (run evs tk) = [].
Proof.
  induction evs as [|ev evs IH]; intros tk Hevs Hi; [done|].
  apply Forall_cons in Hevs as [Hev Hevs].
  destruct (step_spares i ev tk Hev Hi) as (Hs & He & Hi' & Hn).
  cbn [run]. destruct (step ev tk) as [tk1 ns1]. cbn [fst snd] in *.
  destruct (IH tk1 Hevs Hi') as (Hs' & He' & Hn').
  destruct (run evs tk1) as [tk2 ns2]. cbn [fst snd] in *.
  subst. split_and!; [congruence..|done].
Qed.

(** C5 fails on the code: the only block of a [Downloading] task runs
    and its download throws HTTP 404; the task is still [Downloading],
    has no error message, and the callback was never invoked. *)
Theorem block_failure_leaves_task_downloading :
  let r := run [BlockStart 0; BlockThrew 0 http_404] downloading_task in
  map info_ (blocks_ downloading_task) = [mkBlockInfo 0 0 99 0 false] /\
  state_ downloading_task = Downloading /\
  state_ (fst r) = Downloading /\
  error_message_ (fst r) = None /\
  snd r = [].
Proof. by vm_compute. Qed.

End TaskClaims.

(** ** Task queue *)

Section TaskQueueClaims.
Import Task TaskQueue.

(** C1 fails on the code: a queue of width 1 admits the first task on
    [addTask] (count 1, one task [Downloading]); [cancel()] on that task
    stores [Cancelled] before [setState] looks, so the callback that
    would reach [onTaskFinished] is never invoked: the queue still counts
    1 active task while none is [Downloading], and a second task added
    afterwards is never started. *)
Theorem cancel_leaves_active_count :
  let w1 := acts [AddTask 0%nat] two_task_world in
  let w2 := acts [AddTask 0%nat; TaskOp 0%nat OpCancel] two_task_world in
  let w3 := acts [AddTask 0%nat; TaskOp 0%nat OpCancel; AddTask 1%nat]
              two_task_world in
  (active_count_ (queue w1) = 1 /\ downloading_count w1 = 1) /\
  (state_of w2 0%nat = Some Cancelled /\
   active_count_ (queue w2) = 1 /\ downloading_count w2 = 0) /\
  (state_of w3 1%nat = Some Queued /\
   active_count_ (queue w3) = 1 /\ downloading_count w3 = 0).
Proof. by vm_compute. Qed.

(** The count goes wrong through [pause()] and [resume()] as well:
    [pause()] leaves the count at 1 with no task [Downloading], and
    [resume()] of a task recovered from its metadata makes it
    [Downloading] while the queue counts no active task. *)
Lemma pause_and_resume_leave_active_count :
  let w2 := acts [AddTask 0%nat; TaskOp 0%nat OpPause] one_task_world in
  let w3 := acts [AddTask 0%nat; TaskOp 0%nat OpResume] recovered_world in
  (active_count_ (queue w2) = 1 /\ downloading_count w2 = 0) /\
  (active_count_ (queue w3) = 0 /\ downloading_count w3 = 1).
Proof. by vm_compute. Qed.

(** Where the queue is told, the count is kept: a task that fails in its
    job reports [Failed], the count drops and the next task is started. *)
Lemma failure_frees_the_slot :
  let w := acts [AddTask 0%nat; AddTask 1%nat;
                 Worker 0%nat (StartJobThrew http_404)] two_task_world in
  state_of w 0%nat = Some Failed /\ state_of w 1%nat = Some Downloading /\
  active_count_ (queue w) = 1 /\ downloading_count w = 1.
Proof. by vm_compute. Qed.

(** The reordering scenario of the specification: from [1, 2, 3],
    [moveUp(2)] gives [2, 1, 3], then [moveDown(1)] gives [2, 3, 1], then
    [moveUp(1)] gives [2, 1, 3]; moving the first up or the last down
    returns false. *)
Lemma move_scenario :
  let w0 := three_task_world in
  let w1 := snd (moveUp 2 w0) in
  let w2 := snd (moveDown 1 w1) in
  let w3 := snd (moveUp 1 w2) in
  ids w0 = [Some 1; Some 2; Some 3] /\
  (fst (moveUp 2 w0) = true /\ ids w1 = [Some 2; Some 1; Some 3]) /\
  (fst (moveDown 1 w1) = true /\ ids w2 = [Some 2; Some 3; Some 1]) /\
  (fst (moveUp 1 w2) = true /\ ids w3 = [Some 2; Some 1; Some 3]) /\
  fst (moveUp 2 w3) = false /\ fst (moveDown 3 w3) = false /\
  fst (moveUp 999 w3) = false /\ fst (moveDown 999 w3) = false.
Proof. by vm_compute. Qed.

Lemma insert_adjacent (l : list nat) :
  forall i a b,
    l !! i = Some a -> l !! S i = Some b ->
    <[S i := a]> (<[i := b]> l) = take i l ++ b :: a :: drop (S (S i)) l.
Proof.
  induction l as [|x l IH]; intros i a b Ha Hb; [done|].
  destruct i as [|i]; cbn in Ha, Hb.
  - destruct l as [|y l]; [done|]. cbn. by rewrite drop_0.
  - cbn. f_equal. by apply IH.
Qed.

Lemma iter_swap_adjacent (l : list nat) (i a b : nat) :
  l !! i = Some a -> l !! S i = Some b ->
  l = take i l ++ a :: b :: drop (S (S i)) l /\
  iter_swap (S i) i l = take i l ++ b :: a :: drop (S (S i)) l /\
  iter_swap i (S i) l = take i l ++ b :: a :: drop (S (S i)) l.
Proof.
  intros Ha Hb. unfold iter_swap. rewrite Ha, Hb. split_and!.
  - by rewrite <- (drop_S _ _ _ Hb), take_drop_middle.
  - by apply insert_adjacent.
  - rewrite list_insert_insert_ne by lia. by apply insert_adjacent.
Qed.

Lemma find_task_first (w : world) (task_id : Z) (i : nat) (h : nat) :
  find_task (objects w) task_id (tasks_ (queue w)) = Some (i, h) <->
  first_with_id w task_id i h.
Proof. unfold find_task, first_with_id. apply list_find_Some. Qed.

Lemma find_task_absent (w : world) (task_id : Z) :
  find_task (objects w) task_id (tasks_ (queue w)) = None <->
  absent w task_id.
Proof. unfold find_task, absent. apply list_find_None. Qed.

(** C10. [moveUp(id)] and [moveDown(id)] leave the task objects (so each
    task's state), [active_count_] and the set of tasks in the queue as
    they are.  When they return true, the first task with the id has
    changed places with the task before it ([moveUp]) or after it
    ([moveDown]).  They return false exactly when no task has the id or
    the task is the first ([moveUp]) or the last ([moveDown]) of the
    queue, and then nothing has changed. *)
Theorem move_up_down_spec (task_id : Z) (w : world) :
  (reordered w (snd (moveUp task_id w)) /\
   (fst (moveUp task_id w) = true ->
      exists i h prev,
        first_with_id w task_id (S i) h /\
        tasks_ (queue w) !! i = Some prev /\
        tasks_ (queue (snd (moveUp task_id w)))
          = take i (tasks_ (queue w)) ++ h :: prev
              :: drop (S (S i)) (tasks_ (queue w))) /\
   (fst (moveUp task_id w) = false <->
      absent w task_id \/ exists h, first_with_id w task_id 0 h) /\
   (fst (moveUp task_id w) = false -> snd (moveUp task_id w) = w)) /\
  (reordered w (snd (moveDown task_id w)) /\
   (fst (moveDown task_id w) = true ->
      exists i h next,
        first_with_id w task_id i h /\
        tasks_ (queue w) !! S i = Some next /\
        tasks_ (queue (snd (moveDown task_id w)))
          = take i (tasks_ (queue w)) ++ next :: h
              :: drop (S (S i)) (tasks_ (queue w))) /\
   (fst (moveDown task_id w) = false <->
      absent w task_id \/
      exists i h, first_with_id w task_id i h /\
                  S i = length (tasks_ (queue w))) /\
   (fst (moveDown task_id w) = false -> snd (moveDown task_id w) = w)).
Proof.
  split.
  - (* moveUp *)
    unfold moveUp.
    destruct (find_task (objects w) task_id (tasks_ (queue w)))
      as [[[|i] h]|] eqn:Hfind.
    + pose proof (proj1 (find_task_first _ _ _ _) Hfind) as Hfirst. cbn.
      split_and!; [by unfold reordered|done| |done].
      split; [|done]. intros _. right. by exists h.
    + pose proof (proj1 (find_task_first _ _ _ _) Hfind) as Hfirst.
      pose proof Hfirst as (Hh & _).
      destruct (lookup_lt_is_Some_2 (tasks_ (queue w)) i) as [prev Hprev].
      { apply lookup_lt_Some in Hh. lia. }
      destruct (iter_swap_adjacent _ _ _ _ Hprev Hh) as (Hl & Hup & _).
      cbn. split_and!.
      * unfold reordered. cbn. split_and!; try done.
        rewrite Hup.
        transitivity (take i (tasks_ (queue w)) ++ prev :: h
                        :: drop (S (S i)) (tasks_ (queue w)));
          [apply Permutation_app_head, perm_swap|by rewrite <- Hl].
      * intros _. exists i, h, prev. by rewrite Hup.
      * split; [done|]. intros [Habs|[h' Hh']].
        -- apply find_task_absent in Habs. congruence.
        -- apply find_task_first in Hh'. congruence.
      * done.
    + pose proof (proj1 (find_task_absent _ _) Hfind) as Habs. cbn.
      split_and!; [by unfold reordered|done| |done].
      split; [|done]. intros _. by left.
  - (* moveDown *)
    unfold moveDown.
    destruct (find_task (objects w) task_id (tasks_ (queue w)))
      as [[i h]|] eqn:Hfind.
    + pose proof (proj1 (find_task_first _ _ _ _) Hfind) as Hfirst.
      pose proof Hfirst as (Hh & _).
      case_decide as Hlast.
      * cbn. split_and!; [by unfold reordered|done| |done].
        split; [|done]. intros _. right. by exists i, h.
      * destruct (lookup_lt_is_Some_2 (tasks_ (queue w)) (S i)) as [next Hnext].
        { apply lookup_lt_Some in Hh. lia. }
        destruct (iter_swap_adjacent _ _ _ _ Hh Hnext) as (Hl & _ & Hdown).
        cbn. split_and!.
        -- unfold reordered. cbn. split_and!; try done.
           rewrite Hdown.
           transitivity (take i (tasks_ (queue w)) ++ h :: next
                           :: drop (S (S i)) (tasks_ (queue w)));
             [apply Permutation_app_head, perm_swap|by rewrite <- Hl].
        -- intros _. exists i, h, next. by rewrite Hdown.
        -- split; [done|]. intros [Habs|(i' & h' & Hh' & Hlen)].
           ++ apply find_task_absent in Habs. congruence.
           ++ apply find_task_first in Hh'. congruence.
        -- done.
    + pose proof (proj1 (find_task_absent _ _) Hfind) as Habs. cbn.
      split_and!; [by unfold reordered|done| |done].
      split; [|done]. intros _. by left.
Qed.

End TaskQueueClaims.

(* ===================================================================== *)
(** * Part III: further properties of the code                            *)
(* ===================================================================== *)

(** ** Block splitter: the blocks tile the file *)

Section TilingFacts.
Import BlockSplitter Tiling.

Lemma tiles_cons_inv (lo hi : Z) (b1 b2 : BlockInfo) (tl : list BlockInfo) :
  tiles lo hi (b1 :: b2 :: tl) ->
  range_start b1 = lo /\ range_start b1 <= range_end b1 /\
  range_end b1 + 1 = range_start b2 /\
  tiles (range_start b2) hi (b2 :: tl).
Proof.
  intros ([Htouch Hc] & (b0 & [= <-] & Hlo) & (bl & Hbl & Hhi) & Hne).
  apply Forall_cons in Hne as [Hne1 Hne].
  split_and!; try done.
  unfold tiles. split_and!; try done.
  - by eexists.
  - exists bl. split; [|done].
    change (last (b1 :: b2 :: tl)) with (last (b2 :: tl)) in Hbl. done.
Qed.

Lemma tiles_single_inv (lo hi : Z) (b : BlockInfo) :
  tiles lo hi [b] -> range_start b = lo /\ range_end b = hi /\ lo <= hi.
Proof.
  intros (_ & (b0 & [= <-] & Hlo) & (bl & [= <-] & Hhi) & Hne).
  apply Forall_cons in Hne as [Hne1 _]. lia.
Qed.

(** The ranges of a tiling stay between its ends. *)
Lemma tiles_bounds (bs : list BlockInfo) :
  forall lo hi, tiles lo hi bs ->
    Forall (fun b => lo <= range_start b /\ range_end b <= hi) bs.
Proof.
  induction bs as [|b1 [|b2 tl] IH]; intros lo hi Ht.
  - constructor.
  - apply tiles_single_inv in Ht as (? & ? & ?).
    constructor; [lia|constructor].
  - apply tiles_cons_inv in Ht as (Hlo & Hne & Htouch & Ht).
    specialize (IH _ _ Ht).
    pose proof (proj1 (Forall_cons _ _ _) IH) as [[_ Hb2] _].
    destruct Ht as (_ & _ & _ & Hne2).
    apply Forall_cons in Hne2 as [Hne2 _].
    constructor.
    + lia.
    + eapply Forall_impl; [exact IH|]. cbn. intros b Hb. lia.
Qed.

Lemma tiles_total (bs : list BlockInfo) :
  forall lo hi, tiles lo hi bs -> total_len bs = hi - lo + 1.
Proof.
  induction bs as [|b1 [|b2 tl] IH]; intros lo hi Ht.
  - by destruct Ht as (_ & (b0 & ? & _) & _).
  - apply tiles_single_inv in Ht as (? & ? & ?).
    unfold total_len, block_len. cbn. lia.
  - apply tiles_cons_inv in Ht as (Hlo & Hne & Htouch & Ht).
    specialize (IH _ _ Ht).
    change (total_len (b1 :: b2 :: tl))
      with (block_len b1 + total_len (b2 :: tl)).
    rewrite IH. unfold block_len. lia.
Qed.

Lemma tiles_cover (bs : list BlockInfo) :
  forall lo hi o, tiles lo hi bs -> lo <= o <= hi ->
    exists i b, bs !! i = Some b /\ covers o b /\
      forall j b', bs !! j = Some b' -> covers o b' -> j = i.
Proof.
  unfold covers.
  induction bs as [|b1 [|b2 tl] IH]; intros lo hi o Ht Ho.
  - by destruct Ht as (_ & (b0 & ? & _) & _).
  - apply tiles_single_inv in Ht as (? & ? & ?).
    exists 0%nat, b1. split; [done|]. split; [lia|].
    intros [|j] b' Hj _; [done|]. by destruct j.
  - pose proof Ht as Ht0.
    apply tiles_cons_inv in Ht as (Hlo & Hne & Htouch & Ht).
    destruct (Z_le_gt_dec o (range_end b1)) as [Hin|Hout].
    + exists 0%nat, b1. split; [done|]. split; [lia|].
      intros [|j] b' Hj Hcov; [done|]. exfalso.
      pose proof (tiles_bounds _ _ _ Ht) as Hb.
      rewrite Forall_forall in Hb.
      change ((b2 :: tl) !! j = Some b') in Hj.
      specialize (Hb b' (list_elem_of_lookup_2 _ _ _ Hj)). lia.
    + destruct (IH (range_start b2) hi o Ht ltac:(lia))
        as (i & b & Hi & Hcov & Huniq).
      exists (S i), b. split; [done|]. split; [done|].
      intros [|j] b' Hj Hcov'.
      * injection Hj as <-. lia.
      * f_equal. by eapply Huniq.
Qed.

(** What [splitBlocks] returns tiles the file from byte 0 to the last. *)
Lemma splitBlocks_tiles (fsize n : Z) (supports_range : bool)
    (bs : list BlockInfo) :
  splitBlocks fsize n supports_range = inr bs -> tiles 0 (fsize - 1) bs.
Proof.
  destruct (splitBlocks_cases fsize n supports_range)
    as [e Hbad|Hsz Hn Hone|Hbig Hn _ Hq1 Hq]; intros [= <-].
  - unfold tiles. split_and!; [done|by eexists|by eexists|].
    constructor; [cbn; lia|constructor].
  - unfold kSmallFile in Hbig.
    destruct (split_loop_spec fsize (fsize ÷ n) n Hq1 Hq (Z.to_nat n) 0 0)
      as (_ & _ & _ & Hcont & Hhd & Hlast & Hne); try lia.
    by unfold tiles.
Qed.

(** X1. Every byte of the file lies in exactly one of the blocks that
    [splitBlocks] returns: no offset is downloaded twice and none is
    left out. *)
Theorem splitBlocks_covers_once (fsize n : Z) (supports_range : bool)
    (bs : list BlockInfo) (o : Z) :
  splitBlocks fsize n supports_range = inr bs ->
  0 <= o < fsize ->
  exists i b, bs !! i = Some b /\ covers o b /\
    forall j b', bs !! j = Some b' -> covers o b' -> j = i.
Proof.
  intros Hs Ho. apply splitBlocks_tiles in Hs.
  eapply tiles_cover; [exact Hs|lia].
Qed.

(** Byte 3000000 of a file of 4 MiB + 3 bytes in four blocks. *)
Lemma splitBlocks_covers_once_witness :
  exists bs, splitBlocks 4194307 4 true = inr bs /\
  exists i b, bs !! i = Some b /\ covers 3000000 b /\
    forall j b', bs !! j = Some b' -> covers 3000000 b' -> j = i.
Proof.
  eexists. split; [reflexivity|].
  apply (splitBlocks_covers_once 4194307 4 true); [reflexivity|lia].
Defined.

(** X2. The sizes of the blocks that [splitBlocks] returns add up to the
    size of the file. *)
Theorem splitBlocks_total_len (fsize n : Z) (supports_range : bool)
    (bs : list BlockInfo) :
  splitBlocks fsize n supports_range = inr bs -> total_len bs = fsize.
Proof.
  intros Hs. apply splitBlocks_tiles in Hs.
  rewrite (tiles_total _ _ _ Hs). lia.
Qed.

Lemma splitBlocks_total_len_witness :
  exists bs, splitBlocks 4194307 4 true = inr bs /\ total_len bs = 4194307.
Proof.
  eexists. split; [reflexivity|].
  by apply (splitBlocks_total_len 4194307 4 true).
Defined.

End TilingFacts.

(** ** Token bucket: the tokens stay within the capacity *)

Section BucketStateFacts.
Import TokenBucket BucketState.

Lemma sane_capped (tb : t) : sane tb -> capped tb.
Proof. by intros (? & _ & ?). Qed.

Lemma create_capped (rate now : Z) : capped (create rate now).
Proof. unfold capped. cbn. lia. Qed.

Lemma refill_capped (now : Z) (tb : t) : capped tb -> capped (refill now tb).
Proof.
  unfold capped, refill. intros (Hmax & Hhi).
  destruct (Z.leb_spec (now - last_refill_ tb) 0); [done|].
  destruct (Z.leb_spec (rate_ tb) 0); cbn [orb]; [done|].
  destruct (Z.ltb_spec 0 (Dbl.to_int64
    (Dbl.of_int64 (rate_ tb) * Dbl.of_int64 (now - last_refill_ tb)
     / 1000000)%float)); cbn; [lia|done].
Qed.

Lemma apply_op_capped (tb : t) (o : op) : capped tb -> capped (apply_op tb o).
Proof.
  intros Hs. destruct o as [r now| |n now]; cbn.
  - pose proof (refill_capped now tb Hs) as (Hmax & Hhi).
    unfold capped, setRate. cbn.
    destruct (Z.ltb_spec 0 r), (Z.ltb_spec r (tokens_ (refill now tb)));
      cbn; lia.
  - exact Hs.
  - destruct (Z.leb_spec n 0); [done|].
    destruct (Z.eqb_spec (rate_ tb) 0); [done|].
    destruct (cancelled_ tb); cbn [orb]; [done|].
    pose proof (refill_capped now tb Hs) as Hs1.
    destruct (Z.leb_spec n (tokens_ (refill now tb))); [|done].
    destruct Hs1 as (Hmax & Hhi). unfold capped. cbn. lia.
Qed.

Lemma interfere_capped (ops : list op) :
  forall tb, capped tb -> capped (interfere ops tb).
Proof.
  unfold interfere.
  induction ops as [|o ops IH]; intros tb Hs; cbn; [done|].
  by apply IH, apply_op_capped.
Qed.

Lemma acquire_loop_capped (n : Z) (sched : list wake) :
  0 < n -> forall tb, capped tb -> capped (snd (acquire_loop sched tb n)).
Proof.
  intros Hn.
  induction sched as [|w rest IH]; intros tb Hs; cbn.
  - by destruct (cancelled_ tb).
  - destruct (cancelled_ tb); [done|].
    pose proof (refill_capped (wake_now w) tb Hs) as Hs1.
    destruct (Z.leb_spec n (tokens_ (refill (wake_now w) tb))).
    + destruct Hs1 as (Hmax & Hhi). unfold capped. cbn. lia.
    + pose proof (interfere_capped (wake_others w) _ Hs1) as Hs2.
      destruct (Z.eqb_spec
        (rate_ (interfere (wake_others w) (refill (wake_now w) tb))) 0);
        [done|by apply IH].
Qed.

Lemma acquire_capped (n : Z) (sched : list wake) (tb : t) :
  capped tb -> capped (snd (acquire sched tb n)).
Proof.
  intros Hs. unfold acquire.
  destruct (Z.leb_spec n 0); [done|].
  destruct (Z.eqb_spec (rate_ tb) 0); [done|].
  by apply acquire_loop_capped.
Qed.

(** The lower bound of [sane] does not survive every [refill]: a full
    bucket of rate [2^62] refilled after a second and a half holds a
    negative number of tokens, the 64-bit sum having wrapped around. *)
Lemma refill_sum_wraps :
  sane (create (2 ^ 62) 0) /\
  tokens_ (refill 1500000 (create (2 ^ 62) 0)) < 0.
Proof. split; [unfold sane; cbn; lia|by vm_compute]. Qed.

(** Without [setRate], the other threads leave the rate alone. *)
Lemma interfere_rate_kept (ops : list op) :
  forall tb, Forall (fun o => is_set_rate o = false) ops ->
    rate_ (interfere ops tb) = rate_ tb.
Proof.
  unfold interfere.
  induction ops as [|o ops IH]; intros tb Hq; cbn; [done|].
  apply Forall_cons in Hq as [Ho Hq]. rewrite IH by done.
  destruct o as [r now| |n now]; cbn in *; [done|done|].
  repeat case_match; cbn; by rewrite ?refill_rate.
Qed.

(** X3. A bucket never holds more than its capacity, and its capacity
    is its rate: while the rate is positive the bucket holds at most one
    second's worth of tokens, whatever the threads do to it ([setRate],
    [cancel], [acquire] of other callers) and after any [acquire],
    blocked or served. *)
Theorem bucket_tokens_within_capacity (rate now n : Z) (ops : list op)
    (sched : list wake) :
  let tb := snd (acquire sched (interfere ops (create rate now)) n) in
  max_tokens_ tb = rate_ tb /\
  (0 < rate_ tb -> tokens_ tb <= rate_ tb).
Proof. by apply acquire_capped, interfere_capped, create_capped. Qed.

Lemma acquire_loop_over_cap (n : Z) (sched : list wake) :
  rate_kept sched ->
  forall tb, capped tb -> 0 < rate_ tb < n ->
    fst (acquire_loop sched tb n) = None \/
    (fst (acquire_loop sched tb n) = Some 0 /\
     cancelled_ (snd (acquire_loop sched tb n)) = true).
Proof.
  induction sched as [|w rest IH]; intros Hq tb Hs Hr; cbn.
  - destruct (cancelled_ tb) eqn:Hc; cbn; [right|left]; done.
  - destruct (cancelled_ tb) eqn:Hc; cbn; [by right|].
    apply Forall_cons in Hq as [Hw Hq].
    pose proof (refill_capped (wake_now w) tb Hs) as Hs1.
    pose proof Hs1 as (_ & Hhi).
    rewrite refill_rate in Hhi.
    destruct (Z.leb_spec n (tokens_ (refill (wake_now w) tb))); [lia|].
    pose proof (interfere_rate_kept (wake_others w)
                  (refill (wake_now w) tb) Hw) as Hrate.
    rewrite refill_rate in Hrate.
    destruct (Z.eqb_spec
      (rate_ (interfere (wake_others w) (refill (wake_now w) tb))) 0);
      [lia|].
    apply IH; [done|by apply interfere_capped|lia].
Qed.

Lemma acquire_loop_over_rate (n : Z) (sched : list wake) :
  rate_kept sched ->
  forall tb, sane tb -> 0 < rate_ tb < n ->
    fst (acquire_loop sched tb n) = None \/
    (fst (acquire_loop sched tb n) = Some 0 /\
     cancelled_ (snd (acquire_loop sched tb n)) = true).
Proof.
  intros Hq tb Hs%sane_capped Hr. by apply acquire_loop_over_cap.
Qed.

(** X4. A request for more tokens than the positive rate of the bucket
    is never served: as long as no thread calls [setRate], the caller of
    [acquire(n)] with [n > rate] stays blocked through every wait, and
    only returns, with 0, once the bucket is cancelled.  (A block asks
    for the whole chunk that the transfer hands it.) *)
Theorem acquire_over_rate_never_served (n : Z) (sched : list wake) (tb : t) :
  sane tb -> 0 < rate_ tb < n -> rate_kept sched ->
  fst (acquire sched tb n) = None \/
  (fst (acquire sched tb n) = Some 0 /\
   cancelled_ (snd (acquire sched tb n)) = true).
Proof.
  intros Hs Hr Hq. unfold acquire.
  destruct (Z.leb_spec n 0); [lia|].
  destruct (Z.eqb_spec (rate_ tb) 0); [lia|].
  by apply acquire_loop_over_rate.
Qed.

(** 16384 bytes asked of a bucket of 1024 bytes per second: blocked
    after an hour of waits. *)
Lemma acquire_over_rate_never_served_witness :
  let sched := [mkWake 1000000 [OpTake 10 1000000];
                mkWake 3600000000 []] in
  fst (acquire sched (create 1024 0) 16384) = None \/
  (fst (acquire sched (create 1024 0) 16384) = Some 0 /\
   cancelled_ (snd (acquire sched (create 1024 0) 16384)) = true).
Proof.
  apply (acquire_over_rate_never_served 16384
           [mkWake 1000000 [OpTake 10 1000000]; mkWake 3600000000 []]
           (create 1024 0)).
  - unfold sane. cbn. lia.
  - cbn. lia.
  - repeat constructor.
Defined.

End BucketStateFacts.

(** ** Progress monitor: the counter and the speed window over a run *)

Section MonitorRunFacts.
Import ProgressMonitor MonitorRun.

Lemma feed1_counters (pm : t) (c : call) :
  total_bytes_ (feed1 pm c) = total_bytes_ pm /\
  downloaded_bytes_ (feed1 pm c) = downloaded_bytes_ pm + counted [c].
Proof.
  destruct c as [now n|now]; cbn.
  - unfold addBytes. destruct (n <=? 0); cbn; lia.
  - lia.
Qed.

Lemma feed_counters (cs : list call) :
  forall pm,
    total_bytes_ (feed cs pm) = total_bytes_ pm /\
    downloaded_bytes_ (feed cs pm) = downloaded_bytes_ pm + counted cs.
Proof.
  unfold feed.
  induction cs as [|c cs IH]; intros pm; cbn [fold_left].
  - cbn. lia.
  - destruct (IH (feed1 pm c)) as [-> ->].
    destruct (feed1_counters pm c) as [-> ->].
    split; [done|]. unfold counted.
    destruct c as [now n|now]; cbn; [destruct (n <=? 0)|]; lia.
Qed.

Lemma counted_nonneg (cs : list call) : 0 <= counted cs.
Proof.
  unfold counted.
  induction cs as [|[now n|now] cs IH]; cbn; [lia| |done].
  destruct (Z.leb_spec n 0); lia.
Qed.

(** X5. The byte counter of a monitor is the sum of the positive
    amounts passed to [addBytes]: amounts of zero or less are ignored,
    [snapshot] changes no counter, the counter never goes down, and a
    snapshot reports exactly that sum together with the total the
    monitor was constructed with. *)
Theorem monitor_counts_reported_bytes (total now : Z) (cs more : list call) :
  let pm := feed cs (create total) in
  downloaded_bytes_ pm = counted cs /\
  total_bytes_ pm = total /\
  downloaded_bytes_ pm <= downloaded_bytes_ (feed more pm) /\
  downloaded_bytes (fst (snapshot now pm)) = counted cs /\
  total_bytes (fst (snapshot now pm)) = total.
Proof.
  cbn zeta.
  destruct (feed_counters cs (create total)) as [Ht Hd].
  destruct (feed_counters more (feed cs (create total))) as [_ Hd'].
  pose proof (counted_nonneg more).
  cbn in Ht, Hd. cbn [snapshot fst downloaded_bytes total_bytes].
  split_and!; lia.
Qed.

Lemma trim_ascending (c : Z) (ss : list Sample) :
  ascending ss -> trim c ss = List.filter (in_window c) ss.
Proof.
  induction ss as [|s ss IH]; [done|].
  intros [Hall Hasc]. cbn [trim List.filter]. unfold in_window at 1.
  destruct (Z.ltb_spec (time s) c), (Z.leb_spec c (time s)); try lia.
  - by apply IH.
  - f_equal. symmetry. apply forallb_filter_id.
    apply forallb_forall. intros x Hx.
    rewrite Forall_forall in Hall.
    specialize (Hall x (proj2 (list_elem_of_In _ _) Hx)).
    unfold in_window. apply Z.leb_le. lia.
Qed.

Lemma trim_keeps_ascending (c : Z) (ss : list Sample) :
  ascending ss -> ascending (trim c ss).
Proof.
  induction ss as [|s ss IH]; [done|].
  intros [Hall Hasc]. cbn [trim].
  destruct (time s <? c); [by apply IH|done].
Qed.

Lemma trim_keeps_bound (c T : Z) (ss : list Sample) :
  Forall (fun s => time s <= T) ss ->
  Forall (fun s => time s <= T) (trim c ss).
Proof.
  induction ss as [|s ss IH]; [done|].
  intros Hall. cbn [trim].
  destruct (time s <? c); [|done].
  apply IH. by apply Forall_cons in Hall as [_ ?].
Qed.

Lemma ascending_snoc (T : Z) (ss : list Sample) (s : Sample) :
  ascending ss -> Forall (fun s' => time s' <= T) ss -> T <= time s ->
  ascending (ss ++ [s]).
Proof.
  induction ss as [|s0 ss IH]; cbn; [by intros; split|].
  intros [Hall Hasc] Hb Ht.
  apply Forall_cons in Hb as [Hb0 Hb].
  split; [|by apply IH].
  apply Forall_app. split; [done|].
  constructor; [lia|constructor].
Qed.

Lemma filter_window_narrow (c c' : Z) (H : list Sample) :
  c <= c' ->
  List.filter (in_window c') (List.filter (in_window c) H)
  = List.filter (in_window c') H.
Proof.
  intros Hc. induction H as [|s H IH]; [done|].
  cbn [List.filter].
  destruct (in_window c s) eqn:E1; cbn [List.filter];
    destruct (in_window c' s) eqn:E2; rewrite ?IH; try done.
  unfold in_window in E1, E2.
  apply Z.leb_gt in E1. apply Z.leb_le in E2. lia.
Qed.

(** The deque against the history, call after call. *)
Lemma feed_window (cs : list call) :
  forall pm H c T now,
    ascending (samples_ pm) ->
    Forall (fun s => time s <= T) (samples_ pm) ->
    samples_ pm = List.filter (in_window c) H ->
    c <= T - window_ns ->
    Forall (fun e => T <= call_time e) cs ->
    steady cs ->
    T <= now ->
    Forall (fun e => call_time e <= now) cs ->
    exists c',
      c' <= now - window_ns /\
      ascending (samples_ (feed cs pm)) /\
      Forall (fun s => time s <= now) (samples_ (feed cs pm)) /\
      samples_ (feed cs pm)
      = List.filter (in_window c') (H ++ history (downloaded_bytes_ pm) cs).
Proof.
  unfold feed, window_ns, WINDOW_SIZE_SEC.
  induction cs as [|e cs IH];
    intros pm H c T now Hasc Hb Hs Hc Hlo Hst HT Hhi.
  - exists c. cbn. rewrite app_nil_r. split_and!; [lia|done| |done].
    eapply Forall_impl; [exact Hb|]. cbn. lia.
  - apply Forall_cons in Hlo as [Hlo0 Hlo].
    apply Forall_cons in Hhi as [Hhi0 Hhi].
    destruct Hst as [Hnext Hst].
    cbn [fold_left].
    destruct e as [t n|t]; cbn [call_time] in *; cbn [feed1 history].
    + unfold addBytes. destruct (Z.leb_spec n 0).
      * by apply (IH pm H c T now).
      * destruct (IH (mk (total_bytes_ pm) (downloaded_bytes_ pm + n)
                        (samples_ pm ++
                           [mkSample t (downloaded_bytes_ pm + n)]))
                    (H ++ [mkSample t (downloaded_bytes_ pm + n)]) c t now)
          as (c' & Hc' & Hasc' & Hb' & Hs'); cbn [samples_]; try done.
        -- by apply (ascending_snoc T).
        -- apply Forall_app. split.
           ++ eapply Forall_impl; [exact Hb|]. cbn. lia.
           ++ constructor; [cbn; lia|constructor].
        -- rewrite List.filter_app, <- Hs. f_equal. cbn. unfold in_window. cbn.
           destruct (Z.leb_spec c t); [done|lia].
        -- lia.
        -- exists c'. split_and!; try done.
           cbn [downloaded_bytes_] in Hs'. by rewrite <- app_assoc in Hs'.
    + destruct (IH (snd (snapshot t pm)) H (t - 5 * 1000000000) t now)
        as (c' & Hc' & Hasc' & Hb' & Hs'); cbn [snapshot snd samples_];
        try done.
      * by apply trim_keeps_ascending.
      * apply trim_keeps_bound.
        eapply Forall_impl; [exact Hb|]. cbn. lia.
      * rewrite trim_ascending by done. rewrite Hs.
        apply filter_window_narrow. lia.
      * by exists c'.
Qed.

(** X6. With a steady clock, the samples that [snapshot] keeps, and
    computes the speed from, are exactly the samples of the last five
    seconds among all that [addBytes] ever pushed, in their order,
    whatever earlier snapshots have popped. *)
Theorem snapshot_window_is_last_five_seconds (total now : Z)
    (cs : list call) :
  steady cs ->
  Forall (fun c => call_time c <= now) cs ->
  samples_ (snd (snapshot now (feed cs (create total))))
  = List.filter (in_window (now - window_ns)) (history 0 cs).
Proof.
  intros Hst Hhi.
  assert (exists c', c' <= now - window_ns /\
            ascending (samples_ (feed cs (create total))) /\
            samples_ (feed cs (create total))
            = List.filter (in_window c') (history 0 cs))
    as (c' & Hc' & Hasc & Hs).
  { destruct cs as [|e cs].
    - exists (now - window_ns). by cbn.
    - destruct (feed_window (e :: cs) (create total) []
                  (call_time e - window_ns) (call_time e) now)
        as (c' & Hc' & Hasc' & _ & Hs'); cbn [create samples_]; try done.
      + destruct Hst as [Hnext _]. constructor; [lia|done].
      + by apply Forall_cons in Hhi as [? _].
      + by exists c'. }
  cbn [snapshot snd samples_].
  rewrite trim_ascending by done. rewrite Hs.
  apply filter_window_narrow. unfold window_ns, WINDOW_SIZE_SEC in *. lia.
Qed.

(** Bytes at 0 s, 1 s and 7 s, a snapshot at 2 s, and one at 8 s: the
    samples of 7 s alone are left. *)
Lemma snapshot_window_is_last_five_seconds_witness :
  let cs := [AddBytes 0 100; AddBytes 1000000000 200;
             Snapshot 2000000000; AddBytes 7000000000 300] in
  samples_ (snd (snapshot 8000000000 (feed cs (create 1000))))
  = List.filter (in_window (8000000000 - window_ns)) (history 0 cs).
Proof.
  apply (snapshot_window_is_last_five_seconds 1000 8000000000
           [AddBytes 0 100; AddBytes 1000000000 200;
            Snapshot 2000000000; AddBytes 7000000000 300]).
  - cbn. split_and!; try done; repeat (constructor; [cbn; lia|]); constructor.
  - repeat (constructor; [cbn; lia|]). constructor.
Defined.

End MonitorRunFacts.

(** ** Metadata files: the store, failed saves, and what a load accepts *)

Section MetaStoreFacts.
Import MetaFile MetaStore.

(** X8. [save] is not atomic: the stream truncates the file before the
    record is dumped, so when the dump throws (as it does for a string
    that is not UTF-8) although the stream is in order, the record that
    an earlier [save] left at the path is gone, and [load] finds none. *)
Theorem failed_save_loses_record (L : JsonLibrary) (d d' : disk L)
    (p : string) (meta : TaskMeta) :
  parse L (empty_file L) = None ->
  save L WriteGood d p meta = (false, d') ->
  load L d' p = None.
Proof.
  intros Hempty. unfold save, load.
  destruct (dump L (taskMetaToJson meta)); intros [= <-].
  rewrite lookup_insert_eq. cbn. by rewrite Hempty.
Qed.

(** The record of the test saved, then a record whose file name holds
    the byte 255. *)
Lemma failed_save_loses_record_witness :
  let d := snd (save strict_library WriteGood ∅ "file.zip.meta"
                  sample_meta) in
  load strict_library d "file.zip.meta" = Some sample_meta /\
  load strict_library
    (snd (save strict_library WriteGood d "file.zip.meta" undumpable_meta))
    "file.zip.meta" = None.
Proof.
  split; [by vm_compute|].
  apply (failed_save_loses_record strict_library
           (snd (save strict_library WriteGood ∅ "file.zip.meta"
                   sample_meta))
           _ "file.zip.meta" undumpable_meta).
  - reflexivity.
  - by vm_compute.
Defined.

End MetaStoreFacts.

(** ** Tasks: the callback, completion, retries and the byte count *)

Section TaskRunFacts.
Import Task TaskRun.

Ltac task_cases :=
  unfold apply, step, start, pause, resume, cancel, onBlockProgress,
    checkCompletion, fetched, start_job_failed, start, setState,
    update_block;
  cbn -[BlockSplitter.splitBlocks];
  repeat first [case_decide | case_match];
  cbn -[BlockSplitter.splitBlocks] in *.

Lemma do1_task_id (a : action) (tk : t) :
  task_id_ (fst (do1 a tk)) = task_id_ tk.
Proof. destruct a as [[]|[]]; cbn [do1]; task_cases; done. Qed.

Lemma onBlockProgress_completed now actual delta (tk : t) :
  In (task_id_ tk, Completed) (snd (onBlockProgress now actual delta tk)) ->
  let tk' := fst (onBlockProgress now actual delta tk) in
  state_ tk = Downloading /\
  state_ tk' = Completed /\
  all_done tk' = true /\
  meta_on_disk_ tk' = false /\
  error_message_ tk' = error_message_ tk /\
  (0 < file_size_ tk -> actual = Some (file_size_ tk)).
Proof.
  unfold onBlockProgress. case_decide as Hc; [by intros []|].
  destruct (all_done _) eqn:Hall; cbn [andb]; [|by intros []].
  case_bool_decide as Hs; [|by intros []].
  cbn [state_ with_progress] in Hs.
  unfold checkCompletion, setState. cbn [file_size_ with_progress state_].
  destruct (Z.ltb_spec 0 (file_size_ tk)) as [Hsz|Hsz]; cbn [andb].
  - case_bool_decide as Ha; cbn [negb].
    + cbn. intros _. by split_and!.
    + cbn. rewrite Hs. case_decide; [done|].
      cbn. intros [[=]|[]].
  - cbn. intros _. split_and!; try done. lia.
Qed.

(** X11. The callback announces [Completed] only for a task that was
    [Downloading], all of whose blocks have completed, and, when the
    size of the file is known, only after the file on disk was found to
    have exactly that size; the task is then [Completed], its metadata
    file is removed and its error message untouched. *)
Theorem completed_only_when_all_blocks_done (a : action) (tk : t) :
  In (task_id_ tk, Completed) (snd (do1 a tk)) ->
  state_ tk = Downloading /\
  state_ (fst (do1 a tk)) = Completed /\
  all_done (fst (do1 a tk)) = true /\
  meta_on_disk_ (fst (do1 a tk)) = false /\
  error_message_ (fst (do1 a tk)) = error_message_ tk /\
  (0 < file_size_ tk -> seen_size a = Some (file_size_ tk)).
Proof.
  destruct a as [[| | | |now actual delta]
                |[i|i written now actual|i now actual|i e|cl ar|e|e]];
    cbn [do1 apply step seen_size].
  - by rewrite start_silent.
  - by rewrite pause_silent.
  - by rewrite resume_silent.
  - by rewrite cancel_silent.
  - apply onBlockProgress_completed.
  - task_cases; by intros [].
  - destruct (blocks_ tk !! i) as [b|]; [|by intros []].
    destruct (paused_ b); [by intros []|].
    apply (onBlockProgress_completed now actual written
             (update_block i (add_downloaded written) tk)).
  - destruct (blocks_ tk !! i) as [b|]; [|by intros []].
    destruct (paused_ b); [by intros []|].
    apply (onBlockProgress_completed now actual 0
             (update_block i set_completed tk)).
  - by intros [].
  - task_cases; simplify_eq/=; try (by intros []); by intros [[=]|[]].
  - task_cases; simplify_eq/=; try (by intros []); by intros [[=]|[]].
  - task_cases; simplify_eq/=; try (by intros []); by intros [[=]|[]].
Qed.

(** The block's transfer returning on [written_task]. *)
Lemma completed_only_when_all_blocks_done_witness :
  let a := Work (BlockDone 0 2 (Some 100)) in
  state_ written_task = Downloading /\
  state_ (fst (do1 a written_task)) = Completed /\
  all_done (fst (do1 a written_task)) = true /\
  meta_on_disk_ (fst (do1 a written_task)) = false /\
  error_message_ (fst (do1 a written_task)) = error_message_ written_task /\
  (0 < file_size_ written_task ->
   seen_size a = Some (file_size_ written_task)).
Proof.
  apply (completed_only_when_all_blocks_done
           (Work (BlockDone 0 2 (Some 100))) written_task).
  left. reflexivity.
Defined.

Lemma do1_retry_count (a : action) (tk : t) :
  0 <= auto_retry_count_ tk <= kMaxAutoRetries ->
  auto_retry_count_ tk <= auto_retry_count_ (fst (do1 a tk))
                       <= kMaxAutoRetries.
Proof.
  unfold kMaxAutoRetries.
  destruct a as [[]|[]]; cbn [do1]; task_cases; simplify_eq/=;
    repeat match goal with
           | H : _ && _ = true |- _ => apply andb_true_iff in H as [? ?]
           | H : (_ <? _) = true |- _ => apply Z.ltb_lt in H
           end; unfold kMaxAutoRetries in *; lia.
Qed.

Lemma exec_retry_count (acts : list action) :
  forall tk,
    0 <= auto_retry_count_ tk <= kMaxAutoRetries ->
    auto_retry_count_ tk <= auto_retry_count_ (fst (exec acts tk))
                         <= kMaxAutoRetries.
Proof.
  induction acts as [|a acts IH]; intros tk Hc; cbn [exec]; [cbn; lia|].
  pose proof (do1_retry_count a tk Hc) as H1.
  destruct (do1 a tk) as [tk1 ns1]. cbn [fst] in H1.
  specialize (IH tk1 ltac:(lia)).
  destruct (exec acts tk1) as [tk2 ns2]. cbn [fst] in *. lia.
Qed.

(** X13. A task retries a failed probe by itself at most three times
    in its life: the retry counter starts at 0, never goes down and
    never exceeds 3, whatever the callers and the jobs do (no pause,
    resume or success resets it); a probe that fails once the counter
    is 3 leaves the task [Failed]; and a failed probe that does not
    leave the task [Failed] has used up one retry. *)
Theorem probe_retried_at_most_three_times (task_id max_blocks : Z)
    (acts more : list action) (e : failure) :
  let tk := fst (exec acts (create task_id max_blocks)) in
  0 <= auto_retry_count_ tk <= auto_retry_count_ (fst (exec more tk)) /\
  auto_retry_count_ (fst (exec more tk)) <= kMaxAutoRetries /\
  (auto_retry_count_ tk = kMaxAutoRetries ->
   state_ (fst (step (StartJobThrew e) tk)) = Failed) /\
  (state_ (fst (step (StartJobThrew e) tk)) <> Failed ->
   auto_retry_count_ (fst (step (StartJobThrew e) tk))
   = auto_retry_count_ tk + 1).
Proof.
  cbn zeta.
  assert (0 <= auto_retry_count_ (create task_id max_blocks)
          <= kMaxAutoRetries) as Hc by (by cbn).
  pose proof (exec_retry_count acts _ Hc) as H0.
  cbn [create auto_retry_count_] in Hc.
  change (auto_retry_count_ (create task_id max_blocks)) with 0 in H0.
  unfold kMaxAutoRetries in *.
  assert (0 <= auto_retry_count_ (fst (exec acts (create task_id max_blocks)))
          <= kMaxAutoRetries) as Hc' by (unfold kMaxAutoRetries; lia).
  pose proof (exec_retry_count more _ Hc') as H1.
  unfold kMaxAutoRetries in *.
  split_and!; try lia.
  - intros H3. cbn [step]. unfold start_job_failed, setState.
    destruct e as [h|w]; [|done].
    cbn [with_error auto_retry_count_]. rewrite H3.
    by rewrite andb_false_r.
  - cbn [step]. unfold start_job_failed, setState, start.
    destruct e as [h|w]; [|done].
    destruct (_ && _); [|done]. cbn. by case_decide.
Qed.












End TaskRunFacts.

(** ** Task queue: admission, removal, and moving back and forth *)

Section TaskQueueFacts.
Import Task TaskQueue QueueLimits.

Lemma iter_swap_back (l : list nat) (i : nat) (a b : nat) :
  l !! i = Some a -> l !! S i = Some b ->
  let l' := iter_swap (S i) i l in
  l' !! i = Some b /\ l' !! S i = Some a /\
  (forall j, (j < i)%nat -> l' !! j = l !! j) /\
  length l' = length l /\
  iter_swap i (S i) l' = l.
Proof.
  intros Ha Hb. cbn zeta.
  pose proof (lookup_lt_Some _ _ _ Ha) as Hi.
  pose proof (lookup_lt_Some _ _ _ Hb) as HSi.
  assert (iter_swap (S i) i l = <[S i := a]> (<[i := b]> l)) as ->
    by (unfold iter_swap; by rewrite Ha, Hb).
  assert (<[S i := a]> (<[i := b]> l) !! i = Some b) as H1.
  { rewrite list_lookup_insert_ne by lia.
    by rewrite list_lookup_insert_eq. }
  assert (<[S i := a]> (<[i := b]> l) !! S i = Some a) as H2.
  { rewrite list_lookup_insert_eq; [done|]. by rewrite length_insert. }
  split_and!; try done.
  - intros j Hj. by rewrite !list_lookup_insert_ne by lia.
  - by rewrite !length_insert.
  - unfold iter_swap. rewrite H1, H2.
    rewrite list_insert_insert_eq.
    rewrite (list_insert_insert_ne _ i (S i)) by lia.
    rewrite list_insert_insert_eq.
    by rewrite (list_insert_id _ i a), (list_insert_id _ (S i) b).
Qed.

(** X15. [moveUp] and [moveDown] undo one another: after a [moveUp]
    that returned true, [moveDown] of the same id returns true and puts
    the queue back exactly as it was; after a [moveDown] that returned
    true, [moveUp] does so provided the task that followed does not
    carry the same id (the tasks recovered from metadata all carry the
    id 0, and the first task with the id is the one that moves). *)
Theorem move_up_down_inverse (task_id : Z) (w : world) :
  (fst (moveUp task_id w) = true ->
   moveDown task_id (snd (moveUp task_id w)) = (true, w)) /\
  (fst (moveDown task_id w) = true ->
   (forall i h next, first_with_id w task_id i h ->
      tasks_ (queue w) !! S i = Some next ->
      ~ has_id (objects w) task_id next) ->
   moveUp task_id (snd (moveDown task_id w)) = (true, w)).
Proof.
  split.
  - unfold moveUp.
    destruct (find_task _ _ _) as [[[|i] h]|] eqn:Hfind; try done.
    intros _. cbn [snd].
    apply find_task_first in Hfind as (Hh & Hid & Hfirst).
    destruct (lookup_lt_is_Some_2 (tasks_ (queue w)) i) as [prev Hprev].
    { apply lookup_lt_Some in Hh. lia. }
    destruct (iter_swap_back _ _ _ _ Hprev Hh)
      as (H1 & H2 & Hlow & Hlen & Hback).
    unfold moveDown. cbn [objects queue tasks_ with_tasks].
    assert (find_task (objects w) task_id
              (iter_swap (S i) i (tasks_ (queue w))) = Some (i, h)) as ->.
    { apply list_find_Some. split_and!; try done.
      intros j y Hj Hlt. rewrite Hlow in Hj by done.
      apply (Hfirst j y Hj). lia. }
    case_decide as Hend.
    + rewrite Hlen in Hend. apply lookup_lt_Some in Hh. lia.
    + rewrite Hback. by destruct w as [hp []].
  - unfold moveDown.
    destruct (find_task _ _ _) as [[i h]|] eqn:Hfind; [|done].
    case_decide as Hend; [done|]. intros _ Hnext. cbn [snd].
    apply find_task_first in Hfind. pose proof Hfind as (Hh & Hid & Hfirst).
    destruct (lookup_lt_is_Some_2 (tasks_ (queue w)) (S i)) as [next Hn].
    { apply lookup_lt_Some in Hh. lia. }
    specialize (Hnext i h next Hfind Hn).
    destruct (iter_swap_adjacent _ _ _ _ Hh Hn) as (_ & Hup & Hdown).
    destruct (iter_swap_back _ _ _ _ Hh Hn)
      as (H1 & H2 & Hlow & Hlen & Hback).
    rewrite Hdown, <- Hup.
    unfold moveUp. cbn [objects queue tasks_ with_tasks].
    assert (find_task (objects w) task_id
              (iter_swap (S i) i (tasks_ (queue w))) = Some (S i, h)) as ->.
    { apply list_find_Some. split_and!; try done.
      intros j y Hj Hlt. destruct (decide (j = i)) as [->|Hne].
      - rewrite H1 in Hj. by injection Hj as <-.
      - rewrite Hlow in Hj by lia. apply (Hfirst j y Hj). lia. }
    set (l' := iter_swap (S i) i (tasks_ (queue w))) in *.
    destruct (iter_swap_adjacent _ _ _ _ H1 H2) as (_ & Hup' & Hdown').
    rewrite Hup', <- Hdown', Hback. by destruct w as [hp []].
Qed.

Lemma start_Queued (tk : Task.t) :
  state_ tk = Queued -> state_ (fst (Task.start tk)) = Downloading.
Proof. intros H. unfold Task.start. rewrite H. by case_decide. Qed.

(** What the loop of [tryStartNext] does to the count and to the
    objects. *)
Lemma start_loop_spec (l : list nat) (cap : Z) :
  forall hp active,
    let r := start_loop l cap hp active in
    active <= snd r /\
    (active < snd r -> snd r <= cap) /\
    (forall h,
       fst r !! h = hp !! h \/
       exists tk, hp !! h = Some tk /\ state_ tk = Queued /\
                  fst r !! h = Some (fst (Task.start tk))) /\
    (snd r < cap ->
     forall h, h ∈ l -> state_ <$> fst r !! h <> Some Queued).
Proof.
  induction l as [|h0 l IH]; intros hp active; cbn [start_loop].
  - cbn. split_and!; [lia|lia|by left|]. by intros _ h ?%elem_of_nil.
  - destruct (Z.leb_spec cap active) as [Hfull|Hroom].
    { cbn. split_and!; [lia|lia|by left|lia]. }
    destruct (hp !! h0) as [tk0|] eqn:Hh0.
    + case_decide as Hq.
      * specialize (IH (<[h0 := fst (Task.start tk0)]> hp) (active + 1)).
        cbn zeta in IH. destruct IH as (Hle & Hcap & Hobj & Hnone).
        split_and!; [lia|lia| |].
        -- intros h. destruct (decide (h = h0)) as [->|Hne].
           ++ right. exists tk0. split_and!; [done|done|].
              destruct (Hobj h0) as [->|(tk & Htk & Hst & _)].
              ** by rewrite lookup_insert_eq.
              ** rewrite lookup_insert_eq in Htk. injection Htk as <-.
                 by rewrite start_Queued in Hst.
           ++ destruct (Hobj h) as [->|(tk & Htk & Hst & ->)].
              ** left. by rewrite lookup_insert_ne.
              ** right. exists tk. by rewrite lookup_insert_ne in Htk.
        -- intros Hlt h [->|Hin]%elem_of_cons; [|by apply Hnone].
           destruct (Hobj h0) as [->|(tk & Htk & Hst & _)].
           ++ rewrite lookup_insert_eq. cbn. by rewrite start_Queued.
           ++ rewrite lookup_insert_eq in Htk. injection Htk as <-.
              by rewrite start_Queued in Hst.
      * specialize (IH hp active). cbn zeta in IH.
        destruct IH as (Hle & Hcap & Hobj & Hnone).
        split_and!; [done|done|done|].
        intros Hlt h [->|Hin]%elem_of_cons; [|by apply Hnone].
        destruct (Hobj h0) as [->|(tk & Htk & Hst & _)].
        -- rewrite Hh0. cbn. congruence.
        -- congruence.
    + specialize (IH hp active). cbn zeta in IH.
      destruct IH as (Hle & Hcap & Hobj & Hnone).
      split_and!; [done|done|done|].
      intros Hlt h [->|Hin]%elem_of_cons; [|by apply Hnone].
      destruct (Hobj h0) as [->|(tk & Htk & Hst & _)].
      * by rewrite Hh0.
      * congruence.
Qed.

Lemma tryStartNext_queue (w : world) :
  tasks_ (queue (tryStartNext w)) = tasks_ (queue w) /\
  max_concurrent_ (queue (tryStartNext w)) = max_concurrent_ (queue w) /\
  auto_start_ (queue (tryStartNext w)) = auto_start_ (queue w).
Proof.
  unfold tryStartNext. destruct (auto_start_ (queue w)) eqn:Ha; cbn [negb].
  - by destruct (start_loop _ _ _ _).
  - by rewrite Ha.
Qed.

Lemma tryStartNext_objects (w : world) (h : nat) :
  objects (tryStartNext w) !! h = objects w !! h \/
  exists tk, objects w !! h = Some tk /\ state_ tk = Queued /\
             objects (tryStartNext w) !! h = Some (fst (Task.start tk)).
Proof.
  unfold tryStartNext. destruct (auto_start_ (queue w)); cbn [negb];
    [|by left].
  pose proof (start_loop_spec (tasks_ (queue w)) (max_concurrent_ (queue w))
                (objects w) (active_count_ (queue w))) as (_ & _ & Hobj & _).
  destruct (start_loop _ _ _ _) as [hp active]. apply Hobj.
Qed.

(** X16. [tryStartNext] admits no download beyond the width and leaves
    no free slot unused: it keeps the order of the queue, never lowers
    [active_count_], raises it only up to [max_concurrent_], changes the
    state of no task but [Queued] ones, which it starts (they are then
    [Downloading]), and, with auto-start on, when it leaves the count
    below the width no task of the queue is [Queued] any more. *)
Theorem tryStartNext_admits (w : world) :
  let w' := tryStartNext w in
  tasks_ (queue w') = tasks_ (queue w) /\
  active_count_ (queue w) <= active_count_ (queue w') /\
  (active_count_ (queue w) < active_count_ (queue w') ->
   active_count_ (queue w') <= max_concurrent_ (queue w)) /\
  (forall h,
     state_of w' h = state_of w h \/
     (state_of w h = Some Queued /\ state_of w' h = Some Downloading)) /\
  (auto_start_ (queue w) = true ->
   active_count_ (queue w') < max_concurrent_ (queue w) ->
   forall h, h ∈ tasks_ (queue w) -> state_of w' h <> Some Queued).
Proof.
  cbn zeta. split; [apply tryStartNext_queue|].
  split_and!.
  - unfold tryStartNext. destruct (auto_start_ (queue w)); cbn [negb];
      [|lia].
    pose proof (start_loop_spec (tasks_ (queue w))
                  (max_concurrent_ (queue w)) (objects w)
                  (active_count_ (queue w))) as (Hle & _).
    by destruct (start_loop _ _ _ _).
  - unfold tryStartNext. destruct (auto_start_ (queue w)); cbn [negb];
      [|lia].
    pose proof (start_loop_spec (tasks_ (queue w))
                  (max_concurrent_ (queue w)) (objects w)
                  (active_count_ (queue w))) as (_ & Hcap & _).
    by destruct (start_loop _ _ _ _).
  - intros h. unfold state_of.
    destruct (tryStartNext_objects w h)
      as [->|(tk & Htk & Hst & ->)]; [by left|].
    right. rewrite Htk. cbn. by rewrite Hst, start_Queued.
  - intros Ha. unfold tryStartNext, state_of. rewrite Ha. cbn [negb].
    pose proof (start_loop_spec (tasks_ (queue w))
                  (max_concurrent_ (queue w)) (objects w)
                  (active_count_ (queue w))) as (_ & _ & _ & Hnone).
    destruct (start_loop _ _ _ _) as [hp active]. cbn in *. apply Hnone.
Qed.

(** X17. [removeTask(id)] returns false exactly when no task of the
    queue has the id, and then changes nothing; otherwise it returns
    true, takes the first task with the id (and no other) out of the
    queue, keeping the order of the rest and the width, and that task
    ends [Cancelled], whatever its state was. *)
Theorem removeTask_spec (task_id : Z) (w : world) :
  (fst (removeTask task_id w) = false <-> absent w task_id) /\
  (absent w task_id -> snd (removeTask task_id w) = w) /\
  (forall i h, first_with_id w task_id i h ->
     let w' := snd (removeTask task_id w) in
     fst (removeTask task_id w) = true /\
     tasks_ (queue w') = delete i (tasks_ (queue w)) /\
     state_of w' h = Some Cancelled /\
     max_concurrent_ (queue w') = max_concurrent_ (queue w)).
Proof.
  split_and!.
  - unfold removeTask. rewrite <- find_task_absent.
    by destruct (find_task _ _ _) as [[i h]|].
  - intros Habs%find_task_absent. unfold removeTask. by rewrite Habs.
  - intros i h Hfirst. pose proof Hfirst as (_ & Hid & _).
    apply find_task_first in Hfirst. cbn zeta. unfold removeTask.
    rewrite Hfirst.
    set (w1 := tryStartNext _).
    assert (is_Some (objects w1 !! h)) as [tk1 Htk1].
    { unfold has_id in Hid.
      destruct (objects w !! h) as [tk|] eqn:Htk; [|done].
      destruct (tryStartNext_objects
                  (mkWorld (objects w)
                     (with_tasks (delete i (tasks_
                        (if bool_decide (state_ <$> Some tk = Some Downloading)
                         then with_active (active_count_ (queue w) - 1) (queue w)
                         else queue w)))
                        (if bool_decide (state_ <$> Some tk = Some Downloading)
                         then with_active (active_count_ (queue w) - 1) (queue w)
                         else queue w))) h)
        as [Heq|(tk' & _ & _ & Heq)]; unfold w1; rewrite Heq; cbn; by eexists. }
    destruct (tryStartNext_queue
                (mkWorld (objects w)
                   (with_tasks (delete i (tasks_
                      (if bool_decide (state_ <$> objects w !! h = Some Downloading)
                       then with_active (active_count_ (queue w) - 1) (queue w)
                       else queue w)))
                      (if bool_decide (state_ <$> objects w !! h = Some Downloading)
                       then with_active (active_count_ (queue w) - 1) (queue w)
                       else queue w)))) as (Htasks & Hmax & _).
    fold w1 in Htasks, Hmax.
    cbn [fst snd]. unfold on_task. rewrite Htk1.
    pose proof (cancel_silent tk1) as Hsilent.
    destruct (Task.cancel tk1) as [tk' ns] eqn:Hcancel. cbn in Hsilent.
    subst ns. cbn [dispatch fold_left objects queue].
    unfold state_of. cbn [objects]. rewrite lookup_insert_eq.
    assert (tk' = fst (Task.cancel tk1)) as -> by (by rewrite Hcancel).
    rewrite Htasks, Hmax. cbn.
    split_and!; try done; by case_bool_decide.
Qed.

Lemma tryStartNext_limits (w : world) : limits w -> limits (tryStartNext w).
Proof.
  unfold limits. intros [Hmax Hact].
  destruct (tryStartNext_queue w) as (_ & -> & _). split; [done|].
  unfold tryStartNext. destruct (auto_start_ (queue w)); cbn [negb]; [|done].
  pose proof (start_loop_spec (tasks_ (queue w)) (max_concurrent_ (queue w))
                (objects w) (active_count_ (queue w))) as (Hle & Hcap & _).
  destruct (start_loop _ _ _ _) as [hp active]. cbn in *. lia.
Qed.

Lemma onTaskFinished_limits (task_id : Z) (w : world) :
  limits w -> limits (onTaskFinished task_id w).
Proof.
  intros Hl. unfold onTaskFinished.
  destruct (find_task _ _ _); [|done].
  apply tryStartNext_limits. destruct Hl as [Hmax Hact]. unfold limits.
  destruct (0 <? _); cbn; lia.
Qed.

Lemma dispatch_limits (ns : list notification) :
  forall w, limits w -> limits (dispatch ns w).
Proof.
  unfold dispatch.
  induction ns as [|n ns IH]; intros w Hl; cbn [fold_left]; [done|].
  apply IH. unfold onTaskStateChange.
  destruct (snd n); try done; by apply onTaskFinished_limits.
Qed.

Lemma on_task_limits (h : nat) (f : Task.t -> Task.t * list notification)
    (w : world) :
  limits w -> limits (on_task h f w).
Proof.
  intros Hl. unfold on_task. destruct (objects w !! h) as [tk|]; [|done].
  destruct (f tk) as [tk' ns]. by apply dispatch_limits.
Qed.

Lemma act_limits (a : action) (w : world) : limits w -> limits (act a w).
Proof.
  intros Hl. pose proof Hl as [Hmax Hact].
  destruct a as [h|task_id|task_id|m| |task_id|task_id|h o|h ev]; cbn [act].
  - unfold addTask. destruct (objects w !! h); [|done].
    by apply tryStartNext_limits.
  - unfold removeTask. destruct (find_task _ _ _) as [[i h]|]; [|done].
    cbn [snd]. apply on_task_limits, tryStartNext_limits.
    unfold limits. case_bool_decide; cbn; lia.
  - by apply onTaskFinished_limits.
  - unfold setMaxConcurrent. apply tryStartNext_limits.
    unfold limits, clamp. cbn. repeat case_match; lia.
  - by apply tryStartNext_limits.
  - unfold moveUp. by destruct (find_task _ _ _) as [[[|i] h]|].
  - unfold moveDown. destruct (find_task _ _ _) as [[i h]|]; [|done].
    by case_decide.
  - by apply on_task_limits.
  - by apply on_task_limits.
Qed.

(** X18. Whatever the constructor and [setMaxConcurrent] are given,
    and whatever is done to the queue and its tasks afterwards, the
    width of the queue stays between 1 and 10 and the queue never
    counts more than 10 active downloads. *)
Theorem queue_limits_hold (hp : gmap nat Task.t) (max_concurrent : Z)
    (l : list action) :
  let w := acts l (mkWorld hp (create max_concurrent)) in
  1 <= max_concurrent_ (queue w) <= 10 /\ active_count_ (queue w) <= 10.
Proof.
  cbn zeta.
  assert (limits (mkWorld hp (create max_concurrent))) as H0.
  { unfold limits, create, clamp. cbn. repeat case_match; lia. }
  revert H0. generalize (mkWorld hp (create max_concurrent)).
  unfold acts. induction l as [|a l IH]; intros w Hl; cbn [fold_left].
  - exact Hl.
  - by apply IH, act_limits.
Qed.

End TaskQueueFacts.

(** ** Blocks: what the data callback writes and counts *)

Section BlockDataFacts.
Import BlockData.

(** [acquire] grants all it is asked for, or nothing. *)
Lemma acquire_loop_grants (n : Z) (sched : list TokenBucket.wake) :
  forall tb g,
    fst (TokenBucket.acquire_loop sched tb n) = Some g -> g = n \/ g = 0.
Proof.
  induction sched as [|w rest IH]; intros tb g; cbn.
  - destruct (TokenBucket.cancelled_ tb); cbn; [|done].
    intros [= <-]. by right.
  - destruct (TokenBucket.cancelled_ tb); cbn; [intros [= <-]; by right|].
    destruct (n <=? _); cbn; [intros [= <-]; by left|].
    destruct (_ =? 0); cbn; [intros [= <-]; by left|]. apply IH.
Qed.

Lemma acquire_grants (n : Z) (sched : list TokenBucket.wake)
    (tb : TokenBucket.t) (g : Z) :
  fst (TokenBucket.acquire sched tb n) = Some g -> g = n \/ g = 0.
Proof.
  unfold TokenBucket.acquire.
  destruct (n <=? 0); cbn; [intros [= <-]; by right|].
  destruct (_ =? 0); cbn; [intros [= <-]; by left|].
  apply acquire_loop_grants.
Qed.

Lemma chain_snoc (ws : list (Z * Z)) :
  forall off len,
    chain off ws -> 0 < len -> chain off (ws ++ [(off + total ws, len)]).
Proof.
  unfold total.
  induction ws as [|[o l] ws IH]; intros off len Hc Hl; cbn in *.
  - split_and!; [lia|done|done].
  - destruct Hc as (-> & Hl0 & Hc). split_and!; [done|done|].
    replace (off + (l + foldr (fun w acc => snd w + acc) 0 ws))
      with ((off + l) + foldr (fun w acc => snd w + acc) 0 ws) by lia.
    by apply IH.
Qed.

Lemma total_snoc (ws : list (Z * Z)) (w : Z * Z) :
  total (ws ++ [w]) = total ws + snd w.
Proof. unfold total. induction ws as [|w0 ws IH]; cbn; lia. Qed.

Lemma extends_refl (c : cursor) : extends c c [].
Proof.
  unfold extends, total. cbn. rewrite !app_nil_r. split_and!; try done; lia.
Qed.

Lemma extends_limiter (c c' : cursor) (ws : list (Z * Z)) lim :
  extends c c' ws -> extends c (with_limiter lim c') ws.
Proof. done. Qed.

Lemma extends_limiter_l (c c' : cursor) (ws : list (Z * Z)) lim :
  extends (with_limiter lim c) c' ws -> extends c c' ws.
Proof. done. Qed.

Lemma extends_advance (c c' : cursor) (ws : list (Z * Z)) (written : Z) :
  extends c c' ws -> 0 < written ->
  extends c (advance written c') (ws ++ [(current_offset c', written)]).
Proof.
  intros (Hw & Hr & Hc & Hd & Ho) Hpos. unfold extends, advance. cbn.
  rewrite Hw, Hr, map_app, total_snoc, !app_assoc. cbn.
  split_and!; try done; try lia.
  rewrite Ho. by apply chain_snoc.
Qed.

Lemma extends_trans (c c1 c2 : cursor) (ws1 ws2 : list (Z * Z)) :
  extends c c1 ws1 -> extends c1 c2 ws2 -> extends c c2 (ws1 ++ ws2).
Proof.
  intros (Hw & Hr & Hc & Hd & Ho) (Hw' & Hr' & Hc' & Hd' & Ho').
  assert (total (ws1 ++ ws2) = total ws1 + total ws2) as Ht.
  { unfold total. clear. induction ws1 as [|w ws1 IH]; cbn; lia. }
  unfold extends. rewrite Hw', Hw, Hr', Hr, map_app, !app_assoc, Ht.
  split_and!; try done; try lia.
  rewrite Ho in Hc'. clear -Hc Hc'.
  revert Hc Hc'. generalize (current_offset c).
  induction ws1 as [|[o l] ws1 IH]; intros off Hc Hc'; cbn in *.
  - unfold total in Hc'. cbn in Hc'. by rewrite Z.add_0_r in Hc'.
  - destruct Hc as (-> & Hl & Hc). split_and!; [done|done|].
    apply IH; [done|]. unfold total in *. cbn in Hc'.
    by rewrite Z.add_assoc in Hc'.
Qed.

(** The loop invariant of the callback. *)
Lemma data_loop_spec (ps : list pass) :
  forall c0 c remaining total_written ws,
    Forall writes_within ps ->
    extends c0 c ws -> total ws = total_written -> 0 <= remaining ->
    let r := data_loop ps c remaining total_written in
    exists ws',
      extends c0 (snd r) ws' /\
      total_written <= total ws' <= total_written + remaining /\
      (fst r = Some (total_written + remaining) /\
       total ws' = total_written + remaining \/
       fst r = Some 0 \/ fst r = None).
Proof.
  induction ps as [|p ps IH];
    intros c0 c remaining tw ws Hps Hext Htot Hrem; cbn [data_loop].
  - destruct (Z.leb_spec remaining 0).
    + exists ws. cbn. split_and!; [done|lia|lia|].
      left. split; [f_equal|]; lia.
    + exists ws. cbn. split_and!; [done|lia|lia|]. by right; right.
  - destruct (Z.leb_spec remaining 0).
    { exists ws. cbn. split_and!; [done|lia|lia|].
      left. split; [f_equal|]; lia. }
    apply Forall_cons in Hps as [Hp Hps].
    destruct (paused_now p).
    { exists ws. cbn. split_and!; [done|lia|lia|]. by right; left. }
    destruct (limiter_ c) as [tb|] eqn:Hlim.
    + pose proof (acquire_grants remaining (waits p) tb) as Hgrant.
      destruct (TokenBucket.acquire (waits p) tb remaining) as [[g|] tb'].
      * rewrite bool_decide_eq_true_2 by by eexists.
        cbn [andb]. destruct (Z.eqb_spec g 0) as [->|Hg].
        { exists ws. cbn. split_and!; [done|lia|lia|]. by right; left. }
        destruct (Hgrant g eq_refl) as [->|]; [|done].
        specialize (Hp remaining ltac:(lia)).
        destruct (Z.eqb_spec (write p remaining) 0) as [Hz|Hnz].
        { exists ws. cbn. split_and!; [done|lia|lia|]. by right; left. }
        destruct (IH c0 (advance (write p remaining)
                           (with_limiter (Some tb') c))
                    (remaining - write p remaining) (tw + write p remaining)
                    (ws ++ [(current_offset c, write p remaining)]))
          as (ws' & Hext' & Hbound & Hres); try done.
        -- apply (extends_advance c0 (with_limiter (Some tb') c));
             [done|lia].
        -- rewrite total_snoc. cbn. lia.
        -- lia.
        -- exists ws'. split_and!; [done|lia|lia|].
           destruct Hres as [[Hr Ht]|[Hr|Hr]].
           ++ left. rewrite Hr. split; [f_equal|]; lia.
           ++ by right; left.
           ++ by right; right.
      * exists ws. cbn. split_and!; [done|lia|lia|]. by right; right.
    + rewrite bool_decide_eq_false_2 by (by intros [? ?]). cbn [andb].
      specialize (Hp remaining ltac:(lia)).
      destruct (Z.eqb_spec (write p remaining) 0) as [Hz|Hnz].
      { exists ws. cbn. split_and!; [done|lia|lia|]. by right; left. }
      destruct (IH c0 (advance (write p remaining) (with_limiter None c))
                  (remaining - write p remaining) (tw + write p remaining)
                  (ws ++ [(current_offset c, write p remaining)]))
        as (ws' & Hext' & Hbound & Hres); try done.
      * apply (extends_advance c0 (with_limiter None c)); [done|lia].
      * rewrite total_snoc. cbn. lia.
      * lia.
      * exists ws'. split_and!; [done|lia|lia|].
        destruct Hres as [[Hr Ht]|[Hr|Hr]].
        -- left. rewrite Hr. split; [f_equal|]; lia.
        -- by right; left.
        -- by right; right.
Qed.

Lemma data_loop_returns (ps : list pass) :
  forall c remaining total_written,
    limiter_ c = None -> remaining <= Z.of_nat (length ps) ->
    Forall writes_within ps ->
    fst (data_loop ps c remaining total_written) <> None.
Proof.
  induction ps as [|p ps IH]; intros c remaining tw Hlim Hlen Hps;
    cbn [data_loop].
  - cbn in Hlen. destruct (Z.leb_spec remaining 0); [done|lia].
  - destruct (Z.leb_spec remaining 0); [done|].
    apply Forall_cons in Hps as [Hp Hps].
    destruct (paused_now p); [done|]. rewrite Hlim.
    rewrite bool_decide_eq_false_2 by (by intros [? ?]). cbn [andb].
    specialize (Hp remaining ltac:(lia)).
    destruct (Z.eqb_spec (write p remaining) 0); [done|].
    apply IH; [done| |done]. cbn [length] in Hlen. lia.
Qed.

(** X19. The data callback of a block takes all or nothing: called
    with [n] bytes it returns [n], after writing and counting exactly
    [n] bytes, or 0 (paused, limiter cancelled, write error), and then
    what it has written before giving up stays written and counted.
    Either way the bytes went to the file one write after the other
    from [current_offset] on, [info_.downloaded] and [current_offset]
    advanced by their number, and [on_progress_] was told each write.
    Without a limiter it returns within [n] passes of its loop. *)
Theorem on_data_all_or_nothing (first : bool) (ps : list pass) (c : cursor)
    (n : Z) :
  0 <= n -> Forall writes_within ps ->
  let r := on_data first ps c n in
  (exists ws, extends c (snd r) ws /\ 0 <= total ws <= n /\
     (fst r = Some n /\ total ws = n \/ fst r = Some 0 \/ fst r = None)) /\
  (limiter_ c = None -> n <= Z.of_nat (length ps) -> fst r <> None).
Proof.
  intros Hn Hps. cbn zeta. unfold on_data. destruct first.
  { split; [|done]. exists []. split_and!; [apply extends_refl|done|done|].
    by right; left. }
  split.
  - destruct (data_loop_spec ps c c n 0 [] Hps (extends_refl c) eq_refl Hn)
      as (ws & Hext & Hb & Hres).
    exists ws. split_and!; [done|lia|lia|].
    destruct Hres as [[Hr Ht]|[Hr|Hr]]; [left|by right; left|by right; right].
    by rewrite Hr, Ht.
  - intros Hlim Hlen. by apply data_loop_returns.
Qed.

(** 10000 bytes written in pieces of at most 4096. *)
Lemma on_data_all_or_nothing_witness :
  let ps := [mkPass false [] (Z.min 4096); mkPass false [] (Z.min 4096);
             mkPass false [] (Z.min 4096)] in
  let r := on_data false ps (fresh_cursor None) 10000 in
  (exists ws, extends (fresh_cursor None) (snd r) ws /\
     0 <= total ws <= 10000 /\
     (fst r = Some 10000 /\ total ws = 10000 \/ fst r = Some 0 \/
      fst r = None)) /\
  (limiter_ (fresh_cursor None) = None ->
   10000 <= Z.of_nat (length ps) -> fst r <> None).
Proof.
  apply (on_data_all_or_nothing false
           [mkPass false [] (Z.min 4096); mkPass false [] (Z.min 4096);
            mkPass false [] (Z.min 4096)] (fresh_cursor None) 10000).
  - lia.
  - repeat (constructor; [intros chunk Hc; cbn; lia|]). constructor.
Defined.

(** X20. Over all the calls of the data callback in one
    [engine_->download], first attempt and retries alike, the writes to
    the file follow one another without gap or overlap from the offset
    [range_start + downloaded] the block started at; [downloaded] grows
    by exactly the bytes written, never by more than the transfer
    delivered, and by all of them when every chunk was taken. *)
Theorem transfer_writes_contiguously (ds : list delivery) :
  forall c,
    Forall (fun d => 0 <= size d /\ Forall writes_within (passes d)) ds ->
    exists ws,
      extends c (snd (transfer ds c)) ws /\
      0 <= total ws <= delivered ds /\
      (fst (transfer ds c) = Some true -> total ws = delivered ds).
Proof.
  induction ds as [|d ds IH]; intros c Hds; cbn [transfer].
  - exists []. split_and!; [apply extends_refl|done|done|done].
  - change (delivered (d :: ds)) with (size d + delivered ds).
    apply Forall_cons in Hds as [[Hsz Hps] Hds].
    unfold on_data. destruct (paused_first d).
    { destruct (Z.eqb_spec 0 (size d)) as [Hz|Hnz].
      - destruct (IH c Hds) as (ws & Hext & Hb & Hall).
        exists ws. split_and!; [done|lia|lia|]. intros H. rewrite (Hall H). lia.
      - exists []. pose proof (IH c Hds) as (ws & _ & Hb & _).
        split_and!; [apply extends_refl|done|cbn; lia|done]. }
    destruct (data_loop_spec (passes d) c c (size d) 0 [] Hps
                (extends_refl c) eq_refl Hsz) as (ws1 & Hext1 & Hb1 & Hres).
    pose proof (IH (snd (data_loop (passes d) c (size d) 0)) Hds)
      as (ws2 & Hext2 & Hb2 & Hall).
    destruct (data_loop (passes d) c (size d) 0) as [[consumed|] c1];
      cbn [fst snd] in *.
    + destruct (Z.eqb_spec consumed (size d)) as [->|Hne].
      * exists (ws1 ++ ws2).
        assert (total (ws1 ++ ws2) = total ws1 + total ws2) as Ht.
        { unfold total. clear. induction ws1 as [|w ws1 IH]; cbn; lia. }
        assert (total ws1 = size d) as Hfull.
        { destruct Hres as [[_ ?]|[[= Hz]|[=]]]; [lia|]. lia. }
        split_and!; [by eapply extends_trans|lia|lia|].
        intros H. rewrite Ht, (Hall H). lia.
      * exists ws1. split_and!; [done|lia|lia|done].
    + exists ws1. split_and!; [done|lia|lia|done].
Qed.

(** Two chunks, the second one cut short by a pause. *)
Lemma transfer_writes_contiguously_witness :
  let ds := [mkDelivery 5000 false
               [mkPass false [] (Z.min 4096); mkPass false [] (Z.min 4096)];
             mkDelivery 5000 false
               [mkPass false [] (Z.min 4096); mkPass true [] (Z.min 4096)]] in
  exists ws,
    extends (fresh_cursor None) (snd (transfer ds (fresh_cursor None))) ws /\
    0 <= total ws <= delivered ds /\
    (fst (transfer ds (fresh_cursor None)) = Some true ->
     total ws = delivered ds).
Proof.
  apply (transfer_writes_contiguously
           [mkDelivery 5000 false
              [mkPass false [] (Z.min 4096); mkPass false [] (Z.min 4096)];
            mkDelivery 5000 false
              [mkPass false [] (Z.min 4096); mkPass true [] (Z.min 4096)]]
           (fresh_cursor None)).
  repeat (constructor;
          [split; [cbn; lia|];
           repeat (constructor; [intros chunk Hc; cbn; lia|]); constructor|]).
  constructor.
Defined.

(** X21. A chunk larger than the rate of the limiter is never written:
    the callback asks the bucket for the whole chunk, so with a
    positive rate below the size of the chunk, and as long as nobody
    changes the rate, it stays blocked or returns 0 (on pause or
    cancellation), and the file, [downloaded] and the progress are left
    as they were. *)
Theorem on_data_over_rate_writes_nothing (ps : list pass) (c : cursor)
    (tb : TokenBucket.t) (n : Z) :
  limiter_ c = Some tb -> BucketState.sane tb ->
  0 < TokenBucket.rate_ tb < n ->
  Forall (fun p => BucketState.rate_kept (waits p)) ps ->
  let r := on_data false ps c n in
  (fst r = None \/ fst r = Some 0) /\
  file_writes (snd r) = file_writes c /\
  downloaded_ (snd r) = downloaded_ c /\
  reported (snd r) = reported c.
Proof.
  intros Hlim Hs Hr Hps. cbn zeta. unfold on_data.
  destruct ps as [|p ps]; cbn [data_loop].
  - destruct (Z.leb_spec n 0); [lia|]. cbn. by split_and!; [left|..].
  - destruct (Z.leb_spec n 0); [lia|].
    destruct (paused_now p); [cbn; by split_and!; [right|..]|].
    rewrite Hlim. apply Forall_cons in Hps as [Hp _].
    unfold TokenBucket.acquire.
    destruct (Z.leb_spec n 0); [lia|].
    destruct (Z.eqb_spec (TokenBucket.rate_ tb) 0); [lia|].
    pose proof (acquire_loop_over_rate n (waits p) Hp tb Hs Hr) as Hstall.
    destruct (TokenBucket.acquire_loop (waits p) tb n) as [[g|] tb'];
      cbn [fst snd] in *.
    + destruct Hstall as [[=]|[[= ->] _]].
      rewrite bool_decide_eq_true_2 by by eexists. cbn.
      by split_and!; [right|..].
    + cbn. by split_and!; [left|..].
Qed.

(** A chunk of 16384 bytes under a limit of 1024 bytes per second. *)
Lemma on_data_over_rate_writes_nothing_witness :
  let c := fresh_cursor (Some 1024) in
  let r := on_data false
             [mkPass false [TokenBucket.mkWake 1000000 []] (fun n => n)]
             c 16384 in
  (fst r = None \/ fst r = Some 0) /\
  file_writes (snd r) = file_writes c /\
  downloaded_ (snd r) = downloaded_ c /\
  reported (snd r) = reported c.
Proof.
  apply (on_data_over_rate_writes_nothing
           [mkPass false [TokenBucket.mkWake 1000000 []] (fun n => n)]
           (fresh_cursor (Some 1024)) (TokenBucket.create 1024 0) 16384).
  - reflexivity.
  - unfold BucketState.sane. cbn. lia.
  - cbn. lia.
  - repeat constructor.
Defined.

End BlockDataFacts.

(** ** File names: decoding and the last segment of a URL *)

Section FileNameFacts.
Import Stdlib.Strings.Ascii FileName.

Local Open Scope string_scope.
Local Opaque Ascii.eqb.

Lemma urlDecode_length_le (n : nat) :
  forall s, (String.length s <= n)%nat ->
    (String.length (urlDecode s) <= String.length s)%nat /\
    (s <> EmptyString -> urlDecode s <> EmptyString).
Proof.
  induction n as [|n IH]; intros s Hn.
  - destruct s; [done|cbn in Hn; lia].
  - destruct s as [|c rest]; [done|]. cbn in Hn.
    assert (forall a,
              (String.length (String a (urlDecode rest))
               <= String.length (String c rest))%nat /\
              (String c rest <> EmptyString ->
               String a (urlDecode rest) <> EmptyString)) as Hkeep.
    { intros a. destruct (IH rest ltac:(lia)) as [? _].
      cbn [String.length]. split; [lia|done]. }
    cbn [urlDecode].
    destruct (Ascii.eqb c "%"%char); [|by destruct (Ascii.eqb c "+"%char)].
    destruct rest as [|hi [|lo rest']]; [done|done|].
    destruct (hexVal hi), (hexVal lo); try done.
    cbn [String.length] in *.
    destruct (IH rest' ltac:(lia)) as [? _]. split; [lia|done].
Qed.

Lemma find_tail (c a : Ascii.ascii) (s : string) :
  find c (String a s) = None -> find c s = None.
Proof. cbn. destruct (Ascii.eqb a c); [done|]. by destruct (find c s). Qed.

Lemma urlDecode_plain (s : string) :
  find "%"%char s = None -> find "+"%char s = None -> urlDecode s = s.
Proof.
  induction s as [|c rest IH]; [done|]. intros H1 H2.
  pose proof (find_tail _ _ _ H1). pose proof (find_tail _ _ _ H2).
  cbn [find urlDecode] in *.
  destruct (Ascii.eqb c "%"%char); [done|].
  destruct (Ascii.eqb c "+"%char); [done|].
  f_equal. by apply IH.
Qed.

(** X22. [urlDecode] never makes a string longer, returns the empty
    string only for the empty string, and returns a string that holds
    neither [%] nor [+] as it is. *)
Theorem urlDecode_spec (s : string) :
  (String.length (urlDecode s) <= String.length s)%nat /\
  (urlDecode s = EmptyString <-> s = EmptyString) /\
  (find "%"%char s = None -> find "+"%char s = None -> urlDecode s = s).
Proof.
  destruct (urlDecode_length_le (String.length s) s (le_n _)) as [Hlen Hne].
  split_and!; [done| |apply urlDecode_plain].
  split; [|by intros ->].
  intros He. destruct s; [done|]. by destruct Hne.
Qed.

Lemma str_app_nil (s : string) : "" ++ s = s.
Proof. reflexivity. Qed.

Lemma str_app_cons (a : Ascii.ascii) (s t : string) :
  String a s ++ t = String a (s ++ t).
Proof. reflexivity. Qed.

Lemma str_app_assoc (a b c : string) : (a ++ b) ++ c = a ++ b ++ c.
Proof.
  induction a as [|x a IH]; rewrite ?str_app_nil, ?str_app_cons; [done|].
  by rewrite IH.
Qed.

Lemma find_app_here (c : Ascii.ascii) (a b : string) :
  find c a = None -> find c (a ++ String c b) = Some (String.length a).
Proof.
  induction a as [|x a IH]; rewrite ?str_app_nil, ?str_app_cons; cbn.
  - by rewrite Ascii.eqb_refl.
  - destruct (Ascii.eqb x c); [done|].
    destruct (find c a); [done|]. intros _. by rewrite IH.
Qed.

Lemma find_app_None (c : Ascii.ascii) (a b : string) :
  find c a = None -> find c b = None -> find c (a ++ b) = None.
Proof.
  induction a as [|x a IH]; rewrite ?str_app_nil, ?str_app_cons; cbn; [done|].
  destruct (Ascii.eqb x c); [done|].
  destruct (find c a); [done|]. intros _ Hb. by rewrite IH.
Qed.

Lemma rfind_None (c : Ascii.ascii) (s : string) :
  find c s = None -> rfind c s = None.
Proof.
  induction s as [|x s IH]; cbn; [done|].
  destruct (Ascii.eqb x c); [done|].
  destruct (find c s); [done|]. intros _. by rewrite IH.
Qed.

Lemma rfind_app_here (c : Ascii.ascii) (a b : string) :
  find c b = None -> rfind c (a ++ String c b) = Some (String.length a).
Proof.
  intros Hb. induction a as [|x a IH]; rewrite ?str_app_nil, ?str_app_cons; cbn.
  - by rewrite (rfind_None _ _ Hb), Ascii.eqb_refl.
  - by rewrite IH.
Qed.

Lemma substr_to_app (a b : string) : substr_to (String.length a) (a ++ b) = a.
Proof.
  induction a as [|x a IH]; rewrite ?str_app_nil, ?str_app_cons; cbn;
    [by destruct b|]. by rewrite IH.
Qed.

Lemma substr_from_app (a b : string) (c : Ascii.ascii) :
  substr_from (String.length a + 1) (a ++ String c b) = b.
Proof.
  induction a as [|x a IH]; rewrite ?str_app_nil, ?str_app_cons; cbn;
    [by destruct b|done].
Qed.

Lemma str_length_app (a b : string) :
  String.length (a ++ b) = (String.length a + String.length b)%nat.
Proof. induction a as [|x a IH]; rewrite ?str_app_nil, ?str_app_cons; cbn; [done|]. by rewrite IH. Qed.

Lemma extractFileName_nonempty (url : string) :
  extractFileName url <> EmptyString.
Proof.
  unfold extractFileName.
  set (path := match find "?"%char url with Some q => _ | None => _ end).
  destruct (rfind "/"%char path) as [i|]; [|done].
  destruct (Nat.ltb_spec (i + 1) (String.length path)) as [Hlt|]; [|done].
  intros He.
  destruct (urlDecode_length_le _ (substr_from (i + 1) path) (le_n _))
    as [_ Hne].
  apply Hne; [|done]. clear -Hlt. revert Hlt. generalize (i + 1)%nat.
  induction path as [|x p IH]; intros n Hlt; cbn in Hlt; [lia|].
  destruct n as [|n]; cbn; [done|]. apply IH. lia.
Qed.

Lemma extractFileName_path (pre seg : string) :
  find "?"%char pre = None -> find "?"%char seg = None -> find "/"%char seg = None ->
  seg <> EmptyString ->
  extractFileName (pre ++ String "/"%char seg) = urlDecode seg.
Proof.
  intros Hq Hqs Hs Hne. unfold extractFileName.
  assert (find "?"%char (pre ++ String "/"%char seg) = None) as ->.
  { apply find_app_None; [done|]. cbn. by rewrite Hqs. }
  rewrite rfind_app_here by done.
  rewrite str_length_app. cbn [String.length].
  destruct (Nat.ltb_spec (String.length pre + 1)
              (String.length pre + S (String.length seg))) as [_|Hge].
  - by rewrite substr_from_app.
  - destruct seg; [done|]. cbn in Hge. lia.
Qed.

(** X23. [extractFileName] never returns an empty name.  For a URL
    whose part before the query ends in a segment after its last slash,
    it returns that segment decoded, the query and what follows it cut
    off; when that part ends in a slash, or the URL has no slash at all,
    it returns the name download. *)
Theorem extractFileName_spec :
  (forall url, extractFileName url <> EmptyString) /\
  (forall pre seg query,
     find "?"%char pre = None -> find "?"%char seg = None -> find "/"%char seg = None ->
     seg <> EmptyString ->
     extractFileName (pre ++ String "/"%char seg) = urlDecode seg /\
     extractFileName (pre ++ String "/"%char seg ++ String "?"%char query)
     = urlDecode seg) /\
  (forall pre query,
     find "?"%char pre = None ->
     extractFileName (pre ++ "/") = "download" /\
     extractFileName (pre ++ String "/"%char (String "?"%char query)) = "download") /\
  (forall url, find "/"%char url = None -> extractFileName url = "download").
Proof.
  split_and!.
  - apply extractFileName_nonempty.
  - intros pre seg query Hq Hqs Hs Hne.
    split; [by apply extractFileName_path|].
    pose proof (extractFileName_path pre seg Hq Hqs Hs Hne) as Hp.
    unfold extractFileName in *.
    assert (find "?"%char (pre ++ String "/"%char seg) = None) as Hnone.
    { apply find_app_None; [done|]. cbn. by rewrite Hqs. }
    rewrite Hnone in Hp.
    replace (pre ++ String "/"%char seg ++ String "?"%char query)
      with ((pre ++ String "/"%char seg) ++ String "?"%char query)
      by (by rewrite str_app_assoc).
    rewrite find_app_here by done. by rewrite substr_to_app.
  - intros pre query Hq.
    assert (extractFileName (pre ++ "/") = "download") as Hslash.
    { unfold extractFileName.
      rewrite find_app_None by done.
      rewrite rfind_app_here by done. rewrite str_length_app.
      cbn [String.length]. by rewrite Nat.ltb_irrefl. }
    split; [done|].
    unfold extractFileName in *.
    rewrite find_app_None in Hslash by done.
    replace (pre ++ String "/"%char (String "?"%char query))
      with ((pre ++ "/") ++ String "?"%char query)
      by (by rewrite str_app_assoc).
    rewrite find_app_here by (by apply find_app_None).
    by rewrite substr_to_app.
  - intros url Hs. unfold extractFileName.
    assert (forall n, find "/"%char (substr_to n url) = None) as Hsub.
    { clear -Hs. induction url as [|x u IH]; intros [|n]; cbn; try done.
      cbn in Hs. destruct (Ascii.eqb x "/"%char); [done|].
      rewrite IH; [done|]. by destruct (find "/"%char u). }
    destruct (find "?"%char url) as [q|].
    + by rewrite (rfind_None _ _ (Hsub q)).
    + by rewrite (rfind_None _ _ Hs).
Qed.

End FileNameFacts.

(** ** The probe: HEAD first, GET only when HEAD is refused *)

Section ProbeFacts.
Import Stdlib.Strings.Ascii HttpEngine Probe.

Lemma requests_app (m : request) (a b : list probe_event) :
  requests m (a ++ b) = (requests m a + requests m b)%nat.
Proof. unfold requests. by rewrite List.filter_app, length_app. Qed.

Lemma requests_pre (m : request) (attempt : Z) :
  requests m (if 0 <? attempt then [Slept (backoff attempt)] else []) = 0%nat.
Proof. by destruct (0 <? attempt). Qed.

Lemma effective_code_ok (use_get : bool) (res : CURLcode) (http_code : Z) :
  is_ok (effective_code use_get res http_code) = true ->
  res = CURLE_OK \/
  use_get = true /\ res = CURLE_WRITE_ERROR /\ 0 < http_code.
Proof.
  unfold effective_code.
  destruct (use_get && is_write_error res) eqn:Hw.
  - apply andb_true_iff in Hw as [-> Hw].
    assert (res = CURLE_WRITE_ERROR) as ->.
    { destruct res as [| | | | | | | | | | |code]; try done.
      unfold is_write_error in Hw. unfold CURLE_WRITE_ERROR.
      repeat case_match; try done. }
    destruct (Z.ltb_spec 0 http_code), (Z.ltb_spec http_code 400),
      (Z.leb_spec 400 http_code); cbn; intros; try done;
      right; split_and!; try done; lia.
  - intros Hok. left. by destruct res.
Qed.

Lemma probe_once_end (use_get : bool) (a : pass_env) (r : loop_end) :
  probe_once use_get a = inl r ->
  (r = Forbidden -> use_get = false /\ head_refused a) /\
  (forall info, r = Return info -> answered_well use_get a) /\
  (forall e, r <> Exhausted e) /\
  (forall e, r = Throw e -> probe_what e <> ProbeFailedToFetch).
Proof.
  unfold probe_once, head_refused, answered_well.
  destruct (answer a) as [res0 http lines u cl|w];
    [|intros [= <-]; split_and!; try done; by intros e [= <-]].
  pose proof (effective_code_ok use_get res0 http) as Hok.
  destruct (is_ok (effective_code use_get res0 http)); cbn [negb].
  - specialize (Hok eq_refl).
    destruct (Z.leb_spec 400 http) as [Hhi|Hlo].
    + destruct (negb use_get && _) eqn:Hforb.
      * intros [= <-]. split_and!; try done. intros _.
        apply andb_true_iff in Hforb as [Hg Hcode].
        destruct use_get; [done|]. split; [done|].
        destruct Hok as [->|(? & _)]; [|done].
        do 4 eexists. split; [done|].
        apply orb_true_iff in Hcode as [?%Z.eqb_eq|?%Z.eqb_eq];
          [by left|by right].
      * destruct (negb (negb _)); intros [= <-]; split_and!; try done;
          by intros e [= <-].
    + intros [= <-]. split_and!; try done.
      intros info _. exists res0, http, lines, u, cl. by split_and!.
  - destruct (cancelled_after_transfer a);
      [intros [= <-]; split_and!; try done; by intros e [= <-]|].
    destruct (isTlsCertError _);
      [intros [= <-]; split_and!; try done; by intros e [= <-]|].
    destruct (negb (isRetryableCurlCode _)); [|done].
    intros [= <-]; split_and!; try done. intros e [= <-]. by destruct use_get.
Qed.

Lemma probe_once_continue (use_get : bool) (a : pass_env) (e : ProbeError) :
  probe_once use_get a = inr e -> probe_what e <> ProbeFailedToFetch.
Proof.
  unfold probe_once. destruct (answer a) as [res0 http lines u cl|w]; [|done].
  repeat case_match; try done; intros [= <-]; by destruct use_get.
Qed.

Lemma probe_loop_spec (use_get : bool) (env : bool -> Z -> pass_env)
    (n : nat) :
  forall attempt last_error,
    let r := probe_loop use_get n attempt last_error env in
    let m := if use_get then Get else Head in
    let other := if use_get then Head else Get in
    (requests m (fst r) <= n)%nat /\
    requests other (fst r) = 0%nat /\
    (snd r = Forbidden ->
     use_get = false /\ exists k, head_refused (env false k)) /\
    (forall info, snd r = Return info ->
       exists k, answered_well use_get (env use_get k)) /\
    (forall e, snd r = Throw e -> probe_what e <> ProbeFailedToFetch) /\
    (probe_what last_error <> ProbeFailedToFetch ->
     forall e, snd r = Exhausted e -> probe_what e <> ProbeFailedToFetch).
Proof.
  induction n as [|n IH]; intros attempt last_error; cbn [probe_loop].
  - cbn. split_and!; try done. by intros ? e [= <-].
  - cbv zeta. destruct (_ && _).
    { cbn. split_and!;
        [lia|by destruct use_get|done|done|by intros e [= <-]|done]. }
    destruct (probe_once use_get (env use_get attempt)) as [r|e] eqn:Honce.
    + apply probe_once_end in Honce as (Hf & Hr & Hex & Ht).
      cbn [fst snd]. rewrite !requests_app, !requests_pre.
      split_and!.
      * destruct use_get; cbn; lia.
      * by destruct use_get.
      * intros ->. destruct (Hf eq_refl) as [-> ?]. split; [done|].
        by exists attempt.
      * intros info ->. exists attempt. by eapply Hr.
      * done.
      * intros _ e0 ->. by destruct (Hex e0).
    + apply probe_once_continue in Honce.
      specialize (IH (attempt + 1) e). cbv zeta in IH.
      destruct (probe_loop use_get n (attempt + 1) e env) as [evs r].
      cbn [fst snd] in *. destruct IH as (Hn & Ho & Hf & Hr & Ht & Hex).
      rewrite !requests_app, !requests_pre.
      change (Requested (if use_get then Get else Head) attempt :: evs)
        with ([Requested (if use_get then Get else Head) attempt] ++ evs).
      rewrite !requests_app.
      split_and!; try done.
      * destruct use_get; cbn in *; lia.
      * destruct use_get; cbn in *; lia.
      * intros _. by apply Hex.
Qed.

(** X24. The probe asks with HEAD first and with GET only after a HEAD
    was answered 403 or 405, and never goes back to HEAD; it makes at
    most [max_retries + 1] requests with either method; it returns file
    information only for a transfer that ended without error (or, for
    the GET, with the abort by its own write callback) and with a
    status below 400; the error Failed to fetch file info after the
    loop over the methods is never thrown; and with [max_retries] below
    0 it throws Unknown error without a request. *)
Theorem fetchFileInfo_policy (max_retries : Z)
    (env : bool -> Z -> pass_env) :
  let r := fetchFileInfo max_retries env in
  (requests Head (fst r) <= Z.to_nat (max_retries + 1))%nat /\
  (requests Get (fst r) <= Z.to_nat (max_retries + 1))%nat /\
  (exists heads gets,
     fst r = heads ++ gets /\ requests Get heads = 0%nat /\
     requests Head gets = 0%nat) /\
  ((0 < requests Get (fst r))%nat -> exists k, head_refused (env false k)) /\
  (forall info, snd r = Probed info ->
     exists use_get k, answered_well use_get (env use_get k)) /\
  (forall e, snd r = ProbeThrown e -> probe_what e <> ProbeFailedToFetch) /\
  (max_retries < 0 -> r = ([], ProbeThrown unknown_error)).
Proof.
  cbn zeta. unfold fetchFileInfo.
  pose proof (probe_loop_spec false env (Z.to_nat (max_retries + 1)) 0
                unknown_error) as H1.
  pose proof (probe_loop_spec true env (Z.to_nat (max_retries + 1)) 0
                unknown_error) as H2.
  cbv zeta in H1, H2.
  assert (max_retries < 0 ->
          probe_loop false (Z.to_nat (max_retries + 1)) 0 unknown_error env
          = ([], Exhausted unknown_error)) as Hneg.
  { intros Hlt. by replace (Z.to_nat (max_retries + 1)) with 0%nat by lia. }
  destruct (probe_loop false _ 0 unknown_error env) as [evs1 r1].
  destruct (probe_loop true _ 0 unknown_error env) as [evs2 r2].
  cbn [fst snd] in *.
  destruct H1 as (Hn1 & Ho1 & Hf1 & Hr1 & Ht1 & Hx1).
  destruct H2 as (Hn2 & Ho2 & Hf2 & Hr2 & Ht2 & Hx2).
  assert (exists heads gets : list probe_event,
            evs1 = heads ++ gets /\ requests Get heads = 0%nat /\
            requests Head gets = 0%nat) as Hsplit1.
  { exists evs1, []. by rewrite app_nil_r. }
  destruct r1 as [info1|e1| |last1]; cbn [after_loop fst snd].
  - split_and!; [done|lia|done|intros; lia| | |].
    + intros info [= <-]. exists false. by eapply Hr1.
    + done.
    + intros Hlt. by specialize (Hneg Hlt).
  - split_and!; [done|lia|done|intros; lia| | |].
    + done.
    + intros e [= <-]. by apply Ht1.
    + intros Hlt. by specialize (Hneg Hlt).
  - assert (exists k, head_refused (env false k)) as Hrefused
      by (by destruct (Hf1 eq_refl)).
    assert (exists heads gets : list probe_event,
              evs1 ++ evs2 = heads ++ gets /\ requests Get heads = 0%nat /\
              requests Head gets = 0%nat) as Hsplit
      by (by exists evs1, evs2).
    destruct r2 as [info2|e2| |last2]; cbn [after_loop fst snd];
      rewrite !requests_app.
    + split_and!; [lia|lia|done|done| |done|].
      * intros info [= <-]. exists true. by eapply Hr2.
      * intros Hlt. by specialize (Hneg Hlt).
    + split_and!; [lia|lia|done|done|done| |].
      * intros e [= <-]. by apply Ht2.
      * intros Hlt. by specialize (Hneg Hlt).
    + by destruct (Hf2 eq_refl).
    + split_and!; [lia|lia|done|done|done| |].
      * intros e [= <-]. by apply Hx2.
      * intros Hlt. by specialize (Hneg Hlt).
  - split_and!.
    + done.
    + lia.
    + done.
    + intros; lia.
    + done.
    + intros e [= <-]. by apply Hx1.
    + intros Hlt. specialize (Hneg Hlt). by injection Hneg as -> ->.
Qed.

End ProbeFacts.

(** ** Header lines: names and values *)

Section HeaderFacts.
Import Stdlib.Strings.Ascii HttpEngine Probe.

Local Open Scope string_scope.
Local Opaque Ascii.eqb is_blank.

Lemma name_loop_prefix (name : string) :
  forall header,
    name_loop header name = String.prefix (lower name) (lower header).
Proof.
  induction name as [|n name IH]; intros header; cbn [name_loop lower].
  - by destruct header.
  - destruct header as [|h header]; cbn [name_loop lower String.prefix];
      [done|].
    rewrite (Ascii.eqb_sym (tolower h)).
    destruct (Ascii.eqb_spec (tolower n) (tolower h)) as [Heq|Hne].
    + destruct (ascii_dec (tolower n) (tolower h)); [apply IH|done].
    + by destruct (ascii_dec (tolower n) (tolower h)).
Qed.

Lemma prefix_length (a b : string) :
  String.prefix a b = true -> (String.length a <= String.length b)%nat.
Proof.
  revert b. induction a as [|x a IH]; intros [|y b]; cbn; try done; try lia.
  destruct (ascii_dec x y); [|done]. intros H%IH. lia.
Qed.

Lemma lower_length (s : string) : String.length (lower s) = String.length s.
Proof. induction s as [|a s IH]; cbn; [done|]. by rewrite IH. Qed.

(** X25. [headerNameEquals] compares without regard to the case of
    ASCII letters, and it accepts every header whose name begins with
    the name asked for: it is the prefix test on the two strings in
    lower case (so the header Content-Length-Original is taken for
    Content-Length). *)
Theorem headerNameEquals_spec (header name : string) :
  headerNameEquals header name = String.prefix (lower name) (lower header).
Proof.
  unfold headerNameEquals.
  destruct (Nat.ltb_spec (String.length header) (String.length name))
    as [Hlt|Hge]; [|apply name_loop_prefix].
  symmetry. apply not_true_is_false. intros H%prefix_length.
  rewrite !lower_length in H. lia.
Qed.

Lemma substr_to_S (n : nat) (a : ascii) (s : string) :
  FileName.substr_to (S n) (String a s) = String a (FileName.substr_to n s).
Proof. reflexivity. Qed.

Lemma substr_from_S (n : nat) (a : ascii) (s : string) :
  FileName.substr_from (S n) (String a s) = FileName.substr_from n s.
Proof. reflexivity. Qed.

Lemma first_None (s : string) :
  find_first_not_of_blank s = None ->
  all_blank s = true /\ find_last_not_of_blank s = None.
Proof.
  induction s as [|a s IH]; cbn; [done|].
  destruct (is_blank a); [|done].
  destruct (find_first_not_of_blank s); [done|]. intros _.
  destruct (IH eq_refl) as [-> ->]. done.
Qed.

Lemma last_split (s : string) :
  forall j, find_last_not_of_blank s = Some j ->
    exists body post,
      s = body ++ post /\ all_blank post = true /\
      FileName.substr_to (S j) s = body /\
      find_last_not_of_blank body = Some j /\
      String.length body = S j.
Proof.
  induction s as [|a s IH]; intros j; cbn [find_last_not_of_blank]; [done|].
  destruct (find_last_not_of_blank s) as [i|] eqn:Hlast.
  - intros [= <-]. destruct (IH i eq_refl) as (body & post & -> & Hp & Hsub & Hl & Hlen).
    exists (String a body), post. rewrite substr_to_S.
    rewrite Hsub. cbn [find_last_not_of_blank String.length].
    rewrite Hl, Hlen. done.
  - destruct (is_blank a) eqn:Ha; [done|]. intros [= <-].
    exists (String a ""), s. cbn. rewrite Ha. split_and!; try done.
    clear -Hlast. induction s as [|b s IH]; cbn in *; [done|].
    destruct (find_last_not_of_blank s); [done|].
    destruct (is_blank b); [by apply IH|done].
Qed.

Lemma first_split (s : string) :
  forall i, find_first_not_of_blank s = Some i ->
    exists pre rest,
      s = pre ++ rest /\ all_blank pre = true /\
      FileName.substr_from i s = rest /\
      find_first_not_of_blank rest = Some 0%nat /\
      exists j, find_last_not_of_blank rest = Some j /\
                find_last_not_of_blank s = Some (i + j)%nat.
Proof.
  induction s as [|a s IH]; intros i; cbn [find_first_not_of_blank]; [done|].
  destruct (is_blank a) eqn:Ha.
  - destruct (find_first_not_of_blank s) as [i'|]; [|done].
    intros [= <-].
    destruct (IH i' eq_refl) as (pre & rest & -> & Hp & Hsub & Hf & j & Hj & Hl).
    exists (String a pre), rest. rewrite substr_from_S. cbn [all_blank].
    rewrite Ha, Hp, Hsub. split_and!; try done.
    exists j. split; [done|]. cbn [append find_last_not_of_blank].
    by rewrite Hl.
  - intros [= <-]. exists "", (String a s). cbn [all_blank FileName.substr_from].
    split_and!; try done.
    + cbn. by rewrite Ha.
    + cbn [find_last_not_of_blank].
      destruct (find_last_not_of_blank s) as [j|]; [by exists (S j)|].
      rewrite Ha. by exists 0%nat.
Qed.

(** X26. [trim] removes blanks (space, tab, carriage return, line
    feed) at both ends and nothing else: the string is some blanks, the
    trimmed string, and some blanks; the trimmed string is empty or
    neither begins nor ends with a blank; and trimming again changes
    nothing. *)
Theorem trim_spec (s : string) :
  exists pre post,
    s = pre ++ trim s ++ post /\
    all_blank pre = true /\ all_blank post = true /\
    (trim s = EmptyString \/
     find_first_not_of_blank (trim s) = Some 0%nat /\
     find_last_not_of_blank (trim s)
     = Some (String.length (trim s) - 1)%nat) /\
    trim (trim s) = trim s.
Proof.
  destruct (find_first_not_of_blank s) as [i|] eqn:Hfirst.
  - destruct (first_split s i Hfirst)
      as (pre & rest & -> & Hpre & Hsub & Hf & j & Hj & Hl).
    destruct (last_split rest j Hj)
      as (body & post & -> & Hpost & Hb & Hlb & Hlen).
    assert (trim (pre ++ body ++ post) = body) as Htrim.
    { unfold trim, substr. rewrite Hfirst, Hl, Hsub.
      by replace (i + j - i + 1)%nat with (S j) by lia. }
    assert (find_first_not_of_blank body = Some 0%nat) as Hfb.
    { destruct body as [|c body]; [done|]. rewrite str_app_cons in Hf.
      cbn [find_first_not_of_blank] in *.
      destruct (is_blank c); [|done].
      by destruct (find_first_not_of_blank (body ++ post)). }
    rewrite Htrim. exists pre, post. split_and!; try done.
    + right. rewrite Hlb, Hlen. split; [done|]. f_equal. lia.
    + unfold trim, substr. rewrite Hfb, Hlb.
      cbn [FileName.substr_from]. replace (j - 0 + 1)%nat with (S j) by lia.
      rewrite <- Hlen. clear. induction body as [|c b IH]; [done|].
      cbn [String.length]. by rewrite substr_to_S, IH.
  - destruct (first_None s Hfirst) as [Hall _].
    assert (trim s = "") as Htrim by (unfold trim; by rewrite Hfirst).
    rewrite Htrim. exists s, "". split_and!; try done; [|by left].
    rewrite str_app_nil. clear.
    induction s as [|c s IH]; [done|]. by rewrite str_app_cons, <- IH.
Qed.

End HeaderFacts.

(** ** The manager: its settings and its books *)

Section ManagerFacts.
Import Task TaskQueue Manager.

Ltac solve_clamp :=
  unfold clamp;
  repeat match goal with
         | |- context [?a <? ?b] => destruct (Z.ltb_spec a b)
         end; lia.

Ltac mcbn :=
  cbn -[on_task addTask TaskQueue.removeTask moveUp moveDown tryStartNext
        setMaxConcurrent TokenBucket.setRate clamp].

Lemma tryStartNext_max (w : world) :
  max_concurrent_ (queue (tryStartNext w)) = max_concurrent_ (queue w).
Proof. by destruct (tryStartNext_queue w) as (_ & ? & _). Qed.

Lemma onTaskFinished_max (task_id : Z) (w : world) :
  max_concurrent_ (queue (onTaskFinished task_id w))
  = max_concurrent_ (queue w).
Proof.
  unfold onTaskFinished. destruct (find_task _ _ _); [|done].
  rewrite tryStartNext_max. cbn. by destruct (0 <? _).
Qed.

Lemma dispatch_max (ns : list notification) :
  forall w, max_concurrent_ (queue (dispatch ns w)) = max_concurrent_ (queue w).
Proof.
  unfold dispatch.
  induction ns as [|n ns IH]; intros w; cbn [fold_left]; [done|].
  rewrite IH. unfold onTaskStateChange.
  destruct (snd n); try done; apply onTaskFinished_max.
Qed.

Lemma on_task_max (h : nat) (f : Task.t -> Task.t * list notification)
    (w : world) :
  max_concurrent_ (queue (on_task h f w)) = max_concurrent_ (queue w).
Proof.
  unfold on_task. destruct (objects w !! h) as [tk|]; [|done].
  destruct (f tk) as [tk' ns]. by rewrite dispatch_max.
Qed.

Lemma addTask_max (h : nat) (w : world) :
  max_concurrent_ (queue (addTask h w)) = max_concurrent_ (queue w).
Proof.
  unfold addTask. destruct (objects w !! h); [|done].
  by rewrite tryStartNext_max.
Qed.

Lemma removeTask_max (task_id : Z) (w : world) :
  max_concurrent_ (queue (snd (TaskQueue.removeTask task_id w)))
  = max_concurrent_ (queue w).
Proof.
  unfold TaskQueue.removeTask.
  destruct (find_task _ _ _) as [[i h]|]; [|done]. cbn [snd].
  rewrite on_task_max, tryStartNext_max. cbn. by case_bool_decide.
Qed.

Lemma move_max (task_id : Z) (w : world) :
  max_concurrent_ (queue (snd (moveUp task_id w))) = max_concurrent_ (queue w)
  /\ max_concurrent_ (queue (snd (moveDown task_id w)))
     = max_concurrent_ (queue w).
Proof.
  unfold moveUp, moveDown.
  destruct (find_task _ _ _) as [[[|i] h]|]; cbn; try done;
    by case_decide.
Qed.

Lemma enrol_settings (tk : Z -> Task.t) (m : t) :
  settings_agree m -> settings_agree (snd (enrol tk m)).
Proof.
  unfold settings_agree, enrol. mcbn. intros (? & ? & ? & ? & ? & ? & Hq).
  split_and!; try done; try lia. by rewrite addTask_max.
Qed.

Lemma setSpeedLimit_settings (b now : Z) (m : t) :
  settings_agree m -> settings_agree (setSpeedLimit b now m).
Proof.
  unfold settings_agree, setSpeedLimit. mcbn.
  intros (? & ? & ? & ? & ? & ? & Hq).
  split_and!; try done; try lia. by destruct (Z.ltb_spec b 0); lia.
Qed.

Lemma call1_settings (m : t) (c : call) :
  settings_agree m -> settings_agree (call1 m c).
Proof.
  intros Hs. pose proof Hs as (H1 & H2 & H3 & H4 & H5 & H6 & H7).
  destruct c; cbn [call1].
  - unfold addDownload. destruct (find_duplicate _ _ _ _); [done|].
    by apply enrol_settings.
  - unfold pauseTask, on_found. destruct (findTask _ _); [|done].
    unfold settings_agree. mcbn. by rewrite on_task_max.
  - unfold resumeTask, on_found. destruct (findTask _ _); [|done].
    unfold settings_agree. mcbn. by rewrite on_task_max.
  - unfold cancelTask, on_found. destruct (findTask _ _); [|done].
    unfold settings_agree. mcbn. by rewrite on_task_max.
  - unfold settings_agree. mcbn. by rewrite removeTask_max.
  - unfold settings_agree. mcbn. by rewrite (proj1 (move_max _ _)).
  - unfold settings_agree. mcbn. by rewrite (proj2 (move_max _ _)).
  - by apply setSpeedLimit_settings.
  - unfold recoverTasks. revert m Hs H1 H2 H3 H4 H5 H6 H7.
    induction files as [|[meta|] files IH]; intros m Hs _ _ _ _ _ _ _;
      cbn [fold_left]; [done| |].
    + pose proof (enrol_settings (fun _ => fromMeta now meta) m Hs) as Hs'.
      pose proof Hs' as (? & ? & ? & ? & ? & ? & ?). by apply IH.
    + pose proof Hs as (? & ? & ? & ? & ? & ? & ?). by apply IH.
  - unfold updateConfig, settings_agree, setSpeedLimit, setMaxConcurrent.
    mcbn. rewrite tryStartNext_max. cbn -[clamp].
    split_and!; try done; solve_clamp.
  - unfold settings_agree. mcbn. by rewrite on_task_max.
Qed.

(** X27. The settings of the manager are always in range and agree
    with its parts: after the constructor and any calls, the blocks per
    task are between 1 and 32, the concurrent tasks between 1 and 10,
    the pool has at least one thread, the speed limit is not negative,
    the rate and the capacity of the token bucket are the speed limit
    of the configuration, and the width of the queue is its number of
    concurrent tasks. *)
Theorem manager_settings_agree (config : ManagerConfig) (now : Z)
    (cs : list call) :
  let m := calls cs (create config now) in
  let c := config_ m in
  1 <= max_blocks_per_task c <= 32 /\
  1 <= max_concurrent_tasks c <= 10 /\
  1 <= thread_pool_size c /\
  0 <= speed_limit c /\
  TokenBucket.rate_ (token_bucket_ m) = speed_limit c /\
  TokenBucket.max_tokens_ (token_bucket_ m) = speed_limit c /\
  max_concurrent_ (queue (task_queue_ m)) = max_concurrent_tasks c.
Proof.
  cbn zeta.
  assert (settings_agree (create config now)) as H0.
  { unfold settings_agree, create. cbn -[clamp].
    split_and!; try done; solve_clamp. }
  revert H0. generalize (create config now). unfold calls.
  induction cs as [|c cs IH]; intros m Hs; cbn [fold_left]; [exact Hs|].
  by apply IH, call1_settings.
Qed.


Lemma keeps_ids_refl (w : world) : keeps_ids w w.
Proof. by intros h i. Qed.

Lemma keeps_ids_trans (w1 w2 w3 : world) :
  keeps_ids w1 w2 -> keeps_ids w2 w3 -> keeps_ids w1 w3.
Proof.
  intros H12 H23 h i. split; intros H.
  - by apply H12, H23.
  - by apply H23, H12.
Qed.

Lemma start_task_id (tk : Task.t) : task_id_ (fst (Task.start tk)) = task_id_ tk.
Proof. apply (do1_task_id (TaskRun.Call OpStart)). Qed.

Lemma tryStartNext_keeps (w : world) :
  keeps_ids w (tryStartNext w) /\
  tasks_ (queue (tryStartNext w)) = tasks_ (queue w).
Proof.
  split; [|apply tryStartNext_queue].
  intros h i. unfold has_id.
  destruct (tryStartNext_objects w h) as [->|(tk & -> & _ & ->)]; [done|].
  cbn. by rewrite start_task_id.
Qed.

Lemma onTaskFinished_keeps (task_id : Z) (w : world) :
  keeps_ids w (onTaskFinished task_id w) /\
  tasks_ (queue (onTaskFinished task_id w)) = tasks_ (queue w).
Proof.
  unfold onTaskFinished. destruct (find_task _ _ _); [|done].
  match goal with |- context [tryStartNext ?w1] =>
    destruct (tryStartNext_keeps w1) as [Hk ->]; split; [exact Hk|] end.
  cbn. by destruct (0 <? _).
Qed.

Lemma dispatch_keeps (ns : list notification) :
  forall w, keeps_ids w (dispatch ns w) /\
            tasks_ (queue (dispatch ns w)) = tasks_ (queue w).
Proof.
  unfold dispatch.
  induction ns as [|n ns IH]; intros w; cbn [fold_left]; [done|].
  destruct (IH (onTaskStateChange n w)) as [Hk ->].
  assert (keeps_ids w (onTaskStateChange n w) /\
          tasks_ (queue (onTaskStateChange n w)) = tasks_ (queue w))
    as [Hk' ->].
  { unfold onTaskStateChange.
    destruct (snd n); try done; apply onTaskFinished_keeps. }
  split; [|done]. by eapply keeps_ids_trans.
Qed.

Lemma on_task_keeps (h : nat) (f : Task.t -> Task.t * list notification)
    (w : world) :
  (forall tk, task_id_ (fst (f tk)) = task_id_ tk) ->
  keeps_ids w (on_task h f w) /\
  tasks_ (queue (on_task h f w)) = tasks_ (queue w).
Proof.
  intros Hf. unfold on_task.
  destruct (objects w !! h) as [tk|] eqn:Htk; [|done].
  specialize (Hf tk). destruct (f tk) as [tk' ns]. cbn in Hf.
  match goal with |- context [dispatch ns ?w1] =>
    destruct (dispatch_keeps ns w1) as [Hk ->]; split; [|done];
    apply (keeps_ids_trans _ w1); [|exact Hk] end.
  intros h' i. unfold has_id. cbn.
  destruct (decide (h' = h)) as [->|Hne].
  - rewrite lookup_insert_eq, Htk. cbn. by rewrite Hf.
  - by rewrite lookup_insert_ne.
Qed.

Lemma removeTask_keeps (task_id : Z) (w : world) :
  let w' := snd (TaskQueue.removeTask task_id w) in
  keeps_ids w w' /\
  (absent w task_id /\ w' = w \/
   exists i h, first_with_id w task_id i h /\
               tasks_ (queue w') = delete i (tasks_ (queue w))).
Proof.
  cbn zeta. unfold TaskQueue.removeTask.
  destruct (find_task _ _ _) as [[i h]|] eqn:Hfind.
  - apply find_task_first in Hfind. cbn [snd].
    match goal with |- context [on_task h Task.cancel ?w1] =>
      destruct (on_task_keeps h Task.cancel w1) as [Hk Ht] end.
    { intros tk. apply (do1_task_id (TaskRun.Call OpCancel)). }
    match goal with |- context [tryStartNext ?w1] =>
      destruct (tryStartNext_keeps w1) as [Hk' Ht'] end.
    split.
    + eapply keeps_ids_trans; [|exact Hk].
      eapply keeps_ids_trans; [|exact Hk']. by intros h' i'.
    + right. exists i, h. split; [done|]. rewrite Ht, Ht'. cbn.
      by case_bool_decide.
  - apply find_task_absent in Hfind. split; [done|by left].
Qed.

Lemma iter_swap_perm (l : list nat) (i : nat) (a b : nat) :
  l !! i = Some a -> l !! S i = Some b ->
  iter_swap (S i) i l ≡ₚ l /\ iter_swap i (S i) l ≡ₚ l.
Proof.
  intros Ha Hb.
  destruct (iter_swap_adjacent l i a b Ha Hb) as (Hl & -> & ->).
  rewrite Hl at 3 6. split; apply Permutation_app_head, perm_swap.
Qed.

Lemma move_keeps (task_id : Z) (w : world) :
  (objects (snd (moveUp task_id w)) = objects w /\
   tasks_ (queue (snd (moveUp task_id w))) ≡ₚ tasks_ (queue w)) /\
  (objects (snd (moveDown task_id w)) = objects w /\
   tasks_ (queue (snd (moveDown task_id w))) ≡ₚ tasks_ (queue w)).
Proof.
  unfold moveUp, moveDown.
  destruct (find_task _ _ _) as [[i h]|] eqn:Hfind; [|done].
  apply find_task_first in Hfind as (Hh & _). split.
  - destruct i as [|i]; [done|]. cbn. split; [done|].
    destruct (lookup_lt_is_Some_2 (tasks_ (queue w)) i) as [prev Hprev].
    { apply lookup_lt_Some in Hh. lia. }
    by destruct (iter_swap_perm _ _ _ _ Hprev Hh).
  - case_decide as Hend; [done|]. cbn. split; [done|].
    destruct (lookup_lt_is_Some_2 (tasks_ (queue w)) (S i)) as [next Hn].
    { apply lookup_lt_Some in Hh. lia. }
    by destruct (iter_swap_perm _ _ _ _ Hh Hn).
Qed.

(** The books after a change of the queue that keeps the ids, the map
    and the tasks of the queue. *)
Lemma consistent_queue (m : t) (w' : world) :
  keeps_ids (task_queue_ m) w' ->
  tasks_ (queue w') ≡ₚ tasks_ (queue (task_queue_ m)) ->
  consistent m -> consistent (with_queue w' m).
Proof.
  intros Hk Ht (Hn & Hh & Hmap & Hq & Hnd). unfold consistent. cbn.
  split_and!; try done.
  - intros h i Hid%Hk. by eapply Hh.
  - intros k h Hkh. destruct (Hmap k h Hkh) as [? [?|?]].
    split; [done|]. by left; apply Hk. split; [done|]. by right; apply Hk.
  - intros h Hin. rewrite Ht in Hin.
    destruct (Hq h Hin) as (i & Hid & Hi). exists i. by split; [apply Hk|].
  - by rewrite Ht.
Qed.

Lemma enrol_consistent (tk : Z -> Task.t) (m : t) :
  task_id_ (tk (next_task_id_ m)) = next_task_id_ m \/
  task_id_ (tk (next_task_id_ m)) = 0 ->
  consistent m -> consistent (snd (enrol tk m)).
Proof.
  intros Htk (Hn & Hh & Hmap & Hq & Hnd). unfold enrol. cbn [snd].
  set (h := next_handle_ m) in *. set (k := next_task_id_ m) in *.
  set (w1 := mkWorld (<[h := tk k]> (objects (task_queue_ m)))
               (queue (task_queue_ m))).
  assert (objects (task_queue_ m) !! h = None) as Hfresh.
  { destruct (objects (task_queue_ m) !! h) as [tk0|] eqn:Hobj; [|done].
    assert (has_id (objects (task_queue_ m)) (task_id_ tk0) h) as Hid
      by (unfold has_id; by rewrite Hobj).
    apply Hh in Hid. unfold h in Hid. lia. }
  assert (forall h' i, has_id (objects w1) i h' <->
            h' = h /\ i = task_id_ (tk k) \/
            h' <> h /\ has_id (objects (task_queue_ m)) i h') as Hw1.
  { intros h' i. unfold has_id, w1. cbn.
    destruct (decide (h' = h)) as [->|Hne].
    - rewrite lookup_insert_eq. cbn. split.
      + intros [= <-]. by left.
      + intros [[_ ->]|[? _]]; done.
    - rewrite lookup_insert_ne by done. split; [by right|].
      by intros [[? _]|[_ ?]]. }
  assert (addTask h w1
          = tryStartNext (mkWorld (objects w1)
                            (with_tasks (tasks_ (queue w1) ++ [h]) (queue w1))))
    as Hadd.
  { unfold addTask, w1. cbn. by rewrite lookup_insert_eq. }
  match type of Hadd with _ = tryStartNext ?w2 =>
    destruct (tryStartNext_keeps w2) as [Hk Ht] end.
  rewrite <- Hadd in Hk, Ht. cbn in Ht.
  assert (forall h' i, has_id (objects (addTask h w1)) i h' <->
            h' = h /\ i = task_id_ (tk k) \/
            h' <> h /\ has_id (objects (task_queue_ m)) i h') as Hids.
  { intros h' i. rewrite (Hk h' i). apply Hw1. }
  assert (h ∉ tasks_ (queue (task_queue_ m))) as Hnotin.
  { intros Hin. destruct (Hq h Hin) as (i & Hid & _).
    apply Hh in Hid. unfold h in Hid. lia. }
  unfold consistent. cbn -[addTask]. split_and!.
  - unfold k. lia.
  - intros h' i [[-> _]|[_ Hid]]%Hids; [lia|].
    apply Hh in Hid. unfold h. lia.
  - intros k' h' Hkh.
    destruct (decide (k' = k)) as [->|Hne].
    + rewrite lookup_insert_eq in Hkh. injection Hkh as <-.
      split; [unfold k; lia|].
      destruct Htk as [Htk|Htk]; [left|right]; apply Hids; left; done.
    + rewrite lookup_insert_ne in Hkh by done.
      destruct (Hmap k' h' Hkh) as [Hrange Hid].
      split; [unfold k; lia|].
      assert (h' <> h) as Hneh.
      { intros ->. destruct Hid as [Hid|Hid]; apply Hh in Hid;
          unfold h in Hid; lia. }
      destruct Hid as [Hid|Hid]; [left|right]; apply Hids; by right.
  - intros h' Hin. rewrite Ht in Hin. apply elem_of_app in Hin as [Hin|Hin].
    + destruct (Hq h' Hin) as (i & Hid & Hi).
      assert (h' <> h) as Hneh by (by intros ->).
      exists i. split; [apply Hids; by right|].
      destruct Hi as [->|Hi]; [by left|]. right.
      destruct (Hmap i h' Hi) as [Hrange _].
      rewrite lookup_insert_ne; [done|]. unfold k. lia.
    + apply list_elem_of_singleton in Hin as ->.
      exists (task_id_ (tk k)). split; [apply Hids; by left|].
      destruct Htk as [Htk|Htk]; rewrite Htk; [right|by left].
      by rewrite lookup_insert_eq.
  - rewrite Ht. apply NoDup_app. split_and!; [done| |apply NoDup_singleton].
    intros x Hx ->%list_elem_of_singleton. done.
Qed.

Lemma NoDup_delete_notin (l : list nat) (i : nat) (x : nat) :
  NoDup l -> l !! i = Some x -> x ∉ delete i l.
Proof.
  intros Hnd Hi.
  rewrite <- (take_drop_middle l i x Hi) in Hnd.
  apply NoDup_app in Hnd as (_ & Hcross & Hnd2).
  apply NoDup_cons in Hnd2 as [Hx _].
  rewrite delete_take_drop. intros [Hin|Hin]%elem_of_app; [|done].
  apply (Hcross x Hin). by left.
Qed.

Lemma removeTask_consistent (task_id : Z) (m : t) :
  consistent m -> consistent (removeTask task_id m).
Proof.
  intros (Hn & Hh & Hmap & Hq & Hnd).
  destruct (removeTask_keeps task_id (task_queue_ m)) as [Hk Hcase].
  cbn zeta in Hk, Hcase. unfold removeTask, consistent.
  cbn -[TaskQueue.removeTask].
  assert (forall h, h ∈ tasks_ (queue (snd (TaskQueue.removeTask task_id
                                              (task_queue_ m)))) ->
            h ∈ tasks_ (queue (task_queue_ m)) /\
            ~ (task_id <> 0 /\ has_id (objects (task_queue_ m)) task_id h))
    as Hsub.
  { destruct Hcase as [[Habs ->]|(i & h1 & (Hi & Hid1 & _) & ->)].
    - intros h Hin. split; [done|]. intros [_ Hid].
      unfold absent in Habs. rewrite Forall_forall in Habs.
      by apply (Habs h).
    - intros h Hin.
      assert (h ∈ tasks_ (queue (task_queue_ m))) as Hin'.
      { rewrite delete_take_drop in Hin.
        rewrite <- (take_drop_middle _ i h1 Hi).
        apply elem_of_app in Hin as [?|?]; apply elem_of_app;
          [by left|right; by right]. }
      split; [done|]. intros [Hne Hid].
      destruct (Hq h Hin') as (j & Hj & Hjm).
      destruct (Hq h1 (list_elem_of_lookup_2 _ _ _ Hi)) as (j1 & Hj1 & Hjm1).
      unfold has_id in *.
      assert (j = task_id) as -> by congruence.
      assert (j1 = task_id) as -> by congruence.
      destruct Hjm as [?|Hjm]; [done|]. destruct Hjm1 as [?|Hjm1]; [done|].
      assert (h = h1) as -> by congruence.
      by apply (NoDup_delete_notin _ _ _ Hnd Hi). }
  split_and!; try done.
  - intros h i Hid%Hk. by eapply Hh.
  - intros k h Hkh. apply lookup_delete_Some in Hkh as [Hne Hkh].
    destruct (Hmap k h Hkh) as [? [?|?]].
    split; [done|]. by left; apply Hk. split; [done|]. by right; apply Hk.
  - intros h Hin. destruct (Hsub h Hin) as [Hin' Hnot].
    destruct (Hq h Hin') as (i & Hid & Hi). exists i. split; [by apply Hk|].
    destruct Hi as [->|Hi]; [by left|]. right.
    rewrite lookup_delete_ne; [done|]. intros <-.
    apply Hnot. split; [|done]. destruct (Hmap _ _ Hi). lia.
  - destruct Hcase as [[_ ->]|(i & h1 & _ & ->)]; [done|].
    rewrite delete_take_drop.
    rewrite <- (take_drop (S i) (tasks_ (queue (task_queue_ m)))) in Hnd.
    rewrite <- (take_drop i (take (S i) _)) in Hnd.
    rewrite take_take in Hnd. replace (i `min` S i)%nat with i in Hnd by lia.
    apply NoDup_app in Hnd as (Hnd1 & Hcross & Hnd2).
    apply NoDup_app in Hnd1 as (Hnd11 & _ & _).
    apply NoDup_app. split_and!; try done.
    intros x Hx. apply Hcross. apply elem_of_app. by left.
Qed.

Lemma call1_consistent (m : t) (c : call) :
  consistent m -> consistent (call1 m c).
Proof.
  intros Hc. destruct c; cbn [call1].
  - unfold addDownload. destruct (find_duplicate _ _ _ _); [done|].
    apply enrol_consistent; [by left|done].
  - unfold pauseTask, on_found. destruct (findTask _ _) as [h|]; [|done].
    destruct (on_task_keeps h Task.pause (task_queue_ m)) as [Hk Ht].
    { intros tk. apply (do1_task_id (TaskRun.Call OpPause)). }
    apply consistent_queue; [done|by rewrite Ht|done].
  - unfold resumeTask, on_found. destruct (findTask _ _) as [h|]; [|done].
    destruct (on_task_keeps h Task.resume (task_queue_ m)) as [Hk Ht].
    { intros tk. apply (do1_task_id (TaskRun.Call OpResume)). }
    apply consistent_queue; [done|by rewrite Ht|done].
  - unfold cancelTask, on_found. destruct (findTask _ _) as [h|]; [|done].
    destruct (on_task_keeps h Task.cancel (task_queue_ m)) as [Hk Ht].
    { intros tk. apply (do1_task_id (TaskRun.Call OpCancel)). }
    apply consistent_queue; [done|by rewrite Ht|done].
  - by apply removeTask_consistent.
  - destruct (move_keeps task_id (task_queue_ m)) as [[Ho Ht] _].
    apply consistent_queue; [|done|done].
    intros h i. unfold has_id. by rewrite Ho.
  - destruct (move_keeps task_id (task_queue_ m)) as [_ [Ho Ht]].
    apply consistent_queue; [|done|done].
    intros h i. unfold has_id. by rewrite Ho.
  - done.
  - unfold recoverTasks. revert m Hc.
    induction files as [|[meta|] files IH]; intros m Hc; cbn [fold_left];
      [done| |by apply IH].
    apply IH, enrol_consistent; [by right|done].
  - unfold updateConfig.
    match goal with |- consistent (with_queue (setMaxConcurrent ?x ?w) ?m2) =>
      change (consistent (with_queue (setMaxConcurrent x (task_queue_ m))
                            m2)) end.
    unfold setMaxConcurrent.
    match goal with |- context [tryStartNext ?w1] =>
      destruct (tryStartNext_keeps w1) as [Hk Ht] end.
    destruct Hc as (Hn & Hh & Hmap & Hq & Hnd). unfold consistent.
    cbn -[tryStartNext]. cbn in Ht. split_and!; try done.
    + intros h i Hid%Hk. by eapply Hh.
    + intros k h Hkh. destruct (Hmap k h Hkh) as [? [?|?]].
      split; [done|]. by left; apply Hk. split; [done|]. by right; apply Hk.
    + intros h Hin. rewrite Ht in Hin.
      destruct (Hq h Hin) as (i & Hid & Hi). exists i.
      by split; [apply Hk|].
    + by rewrite Ht.
  - destruct (on_task_keeps h (Task.step ev) (task_queue_ m)) as [Hk Ht].
    { intros tk. apply (do1_task_id (TaskRun.Work ev)). }
    apply consistent_queue; [done|by rewrite Ht|done].
Qed.

Lemma calls_consistent (cs : list call) :
  forall m, consistent m -> consistent (calls cs m).
Proof.
  unfold calls. induction cs as [|c cs IH]; intros m Hc; cbn [fold_left];
    [done|]. by apply IH, call1_consistent.
Qed.

Lemma create_consistent (config : ManagerConfig) (now : Z) :
  consistent (create config now).
Proof.
  unfold consistent, create. cbn. split_and!; try done.
  - intros h Hin. by apply elem_of_nil in Hin.
  - constructor.
Qed.

(** X28. The books of the manager: every id it knows was handed out
    (from 1 on, below the next id) and leads to a task that carries
    this id or, recovered from metadata, the id 0; every task of the
    queue carries 0 or an id that leads back to it; no task is in the
    queue twice; and [addDownload] of a URL that is not being
    downloaded returns an id that was never handed out before. *)
Theorem manager_books_consistent (config : ManagerConfig) (now : Z)
    (cs : list call) :
  let m := calls cs (create config now) in
  let w := task_queue_ m in
  (forall k h, findTask k m = Some h ->
     1 <= k < next_task_id_ m /\
     (has_id (objects w) k h \/ has_id (objects w) 0 h)) /\
  (forall h, h ∈ tasks_ (queue w) ->
     exists i, has_id (objects w) i h /\ (i = 0 \/ findTask i m = Some h)) /\
  NoDup (tasks_ (queue w)) /\
  (forall same_url,
     find_duplicate same_url m (Z.to_nat (next_task_id_ m - 1)) 1 = None ->
     fst (addDownload same_url m) = next_task_id_ m /\
     findTask (next_task_id_ m) m = None /\
     next_task_id_ (snd (addDownload same_url m)) = next_task_id_ m + 1).
Proof.
  cbn zeta.
  destruct (calls_consistent cs _ (create_consistent config now))
    as (Hn & Hh & Hmap & Hq & Hnd).
  split_and!; try done.
  intros same_url Hdup. unfold addDownload. rewrite Hdup. cbn.
  split_and!; try done. unfold findTask.
  destruct (tasks_by_id_ _ !! _) as [h|] eqn:Hk; [|done].
  destruct (Hmap _ _ Hk). lia.
Qed.

(** X29. A task recovered from metadata is out of reach of
    [removeTask], [moveTaskUp] and [moveTaskDown]: it carries the id 0
    while the manager knows it under another id, and the queue looks
    tasks up by the id they carry.  [removeTask] of its id leaves the
    queue and every task as they are (the task stays where it is, in
    its state, not cancelled) and only forgets the id, after which the
    manager cannot pause or cancel it any more; the moves change
    nothing. *)
Theorem recovered_task_cannot_be_removed (config : ManagerConfig) (now : Z)
    (cs : list call) (k : Z) (h : nat) :
  let m := calls cs (create config now) in
  findTask k m = Some h ->
  has_id (objects (task_queue_ m)) 0 h ->
  task_queue_ (removeTask k m) = task_queue_ m /\
  findTask k (removeTask k m) = None /\
  moveTaskUp k m = m /\ moveTaskDown k m = m.
Proof.
  cbn zeta. intros Hfind Hzero.
  destruct (calls_consistent cs _ (create_consistent config now))
    as (Hn & Hh & Hmap & Hq & Hnd).
  set (m := calls cs (create config now)) in *.
  assert (find_task (objects (task_queue_ m)) k (tasks_ (queue (task_queue_ m)))
          = None) as Habsent.
  { apply find_task_absent. unfold absent. apply Forall_forall.
    intros h' Hin Hid. destruct (Hq h' Hin) as (i & Hi & Him).
    destruct (Hmap k h Hfind) as [Hrange _].
    unfold has_id in *.
    assert (i = k) as -> by congruence.
    destruct Him as [?|Him]; [lia|].
    unfold findTask in Hfind. assert (h' = h) as -> by congruence.
    rewrite Hzero in Hid. injection Hid as ?. lia. }
  unfold removeTask, moveTaskUp, moveTaskDown, TaskQueue.removeTask,
    moveUp, moveDown, findTask.
  rewrite Habsent. cbn. split_and!; [done|by rewrite lookup_delete_eq| |];
    by destruct m.
Qed.

(** The recovered and resumed task of [recovered_manager], known as 1. *)
Lemma recovered_task_cannot_be_removed_witness :
  task_queue_ (removeTask 1 recovered_manager) = task_queue_ recovered_manager
  /\ findTask 1 (removeTask 1 recovered_manager) = None
  /\ moveTaskUp 1 recovered_manager = recovered_manager
  /\ moveTaskDown 1 recovered_manager = recovered_manager.
Proof.
  apply (recovered_task_cannot_be_removed (mkConfig 8 3 16 0) 0
           [RecoverTasks 0 [Some MetaFile.sample_meta]; ResumeTask 1]
           1 0%nat).
  - by vm_compute.
  - by vm_compute.
Defined.

End ManagerFacts.

(** ** The logger: the most recent lines *)

Section LoggerFacts.
Import Logger.

Lemma logs_snoc (es : list entry) (e : entry) (lg : t) :
  logs (es ++ [e]) lg = log (fst (fst e)) (snd (fst e)) (snd e) (logs es lg).
Proof. unfold logs. by rewrite fold_left_app. Qed.

Lemma tail_drop_app (k : nat) (l x : list string) :
  (k < length l)%nat -> tail (drop k l ++ x) = drop (S k) l ++ x.
Proof.
  revert k. induction l as [|a l IH]; intros [|k] Hk; cbn in *; try lia;
    [done|]. apply IH. lia.
Qed.

Lemma logs_recent (es : list entry) (file : option (list string)) :
  recent_logs_ (logs es (mk file []))
  = drop (length es - 1000) (map line_of_entry es) /\
  file_ (logs es (mk file []))
  = (fun lines => lines ++ map line_of_entry es) <$> file.
Proof.
  induction es as [|e es [IHr IHf]] using rev_ind.
  - cbn. split; [done|]. destruct file; cbn; [|done]. by rewrite app_nil_r.
  - rewrite logs_snoc. unfold log. cbn [recent_logs_ file_].
    rewrite IHr, IHf. split.
    + rewrite map_app, length_app, length_app, length_drop, length_map.
      cbn [length map]. unfold MAX_RECENT.
      change (line_of e.1.1 e.1.2 e.2) with (line_of_entry e).
      destruct (Z.ltb_spec 1000 (Z.of_nat (length es - (length es - 1000) + 1))).
      * assert (1000 <= length es)%nat as Hlen by lia.
        replace (length es + 1 - 1000)%nat with (S (length es - 1000)) by lia.
        rewrite drop_app_le by (rewrite length_map; lia).
        apply tail_drop_app. rewrite length_map. lia.
      * assert (length es < 1000)%nat as Hlen by lia.
        replace (length es - 1000)%nat with 0%nat by lia.
        replace (length es + 1 - 1000)%nat with 0%nat by lia. done.
    + destruct file; cbn; [|done]. by rewrite map_app, app_assoc.
Qed.

(** X30. The logger keeps the last thousand lines: after any number of
    calls of [log], [recent_logs_] holds the most recent lines, at most
    1000 of them, in the order they were logged; [getRecentLogs(count)]
    with [count >= 0] returns the last [count] of them, or all when
    there are fewer; every line also went to the file when one is open;
    and a negative [count] takes the iterator past the end. *)
Theorem logger_keeps_last_thousand (es : list entry)
    (file : option (list string)) (count : Z) :
  let lg := logs es (mk file []) in
  let lines := map line_of_entry es in
  recent_logs_ lg = drop (length es - 1000) lines /\
  (length (recent_logs_ lg) <= 1000)%nat /\
  file_ lg = (fun written => written ++ lines) <$> file /\
  (0 <= count ->
   getRecentLogs count lg
   = Some (drop (length es - Z.to_nat (Z.min count 1000)) lines)) /\
  (count < 0 -> getRecentLogs count lg = None).
Proof.
  cbn zeta. destruct (logs_recent es file) as [Hr Hf].
  assert (length (recent_logs_ (logs es (mk file [])))
          = Nat.min (length es) 1000) as Hlen.
  { rewrite Hr, length_drop, length_map. lia. }
  split_and!; [done|lia|done| |].
  - intros Hc. unfold getRecentLogs. rewrite Hlen.
    set (n := Z.of_nat (Nat.min (length es) 1000)).
    destruct (Z.leb_spec n count).
    + destruct (Z.ltb_spec n 0); [lia|]. rewrite Hr.
      change (Z.to_nat 0) with 0%nat. rewrite drop_0.
      f_equal. f_equal. lia.
    + destruct (Z.ltb_spec n (n - count)); [lia|]. rewrite Hr, drop_drop.
      f_equal. f_equal. lia.
  - intros Hc. unfold getRecentLogs. rewrite Hlen.
    set (n := Z.of_nat (Nat.min (length es) 1000)).
    destruct (Z.leb_spec n count); [lia|].
    destruct (Z.ltb_spec n (n - count)); [done|lia].
Qed.

End LoggerFacts.
